(** * Deliberate Reasoning Engine: a shallow embedding and its properties

    The development follows the TypeScript sources of the engine:
    - the [Thought] record and the reasoning graph ([types.ts]),
    - the shapes of the tool inputs ([validation.ts]),
    - [validateDependencies], [handleLogThought], [markStale],
      [handleInvalidateAssumption] and [handleQueryThoughts] of [DREServer],
    - [TokenBucketRateLimiter] and [RateLimitManager] of the rate limiter,
    - [handleGetThoughtGraph], [handleGetMetrics], [checkRateLimit], the
      constructor and the handler of tool calls of [DREServer].

    Conventions.  The token bucket is modelled twice.  In the module
    [Binary64] every [number] is an IEEE 754 double and every operation
    rounds as [SpecFloat] defines it: the statements about the values that
    the bucket computes are made there.  Elsewhere a [number] is an exact
    rational ([Q]): that model serves the statements that do not depend on
    the rounding (bounds, the request counter, the independence of the
    callers, the dispatch of the server).  It prints an integer with all
    its digits, as JavaScript does below [10 ^ 21].  Integral quantities
    such as [Date.now()] are integers ([Z]).
    A [Map<string, Thought>] whose keys are the ids of its values is the
    list of its values in insertion order.  Values read from the
    environment ([Date.now()], the ids drawn by [generateId]) are extra
    arguments of the operation that reads them; statements about traces
    assume that the ids drawn are new ([fresh_ids]).  The two recursive
    closures, [markStale] and [hasCycle], carry a bound on the depth of
    their recursion, which is proved never to be reached.  The handlers
    take no account of the persistence layer, whose calls do not touch the
    graph; the handler of tool calls receives the outcome of those calls
    with the other values of the environment ([Env.t]). *)

From Stdlib Require Import Ascii QArith Qround Qminmax Lqa SpecFloat.
From stdpp Require Import base list strings gmap sets pretty sorting.

Local Open Scope string_scope.
Local Open Scope list_scope.

#[local] Set Warnings "-clear-no-such-hyp".

(** ** Data model ([src/types.ts]) *)

Inductive ThoughtType :=
  | objective | hypothesis | assumption | question | sub_problem
  | evidence | action | synthesis | critique.

Inductive Status := active | stale.

Global Instance ThoughtType_eq_dec : EqDecision ThoughtType.
Proof. solve_decision. Defined.

Global Instance Status_eq_dec : EqDecision Status.
Proof. solve_decision. Defined.

(** [Record<string, any>]: an order-preserving list of keys and JSON values. *)
#[local] Unset Elimination Schemes.
Inductive JsonValue :=
  | JNull
  | JBool (b : bool)
  | JNum (q : Q)
  | JStr (s : string)
  | JArr (items : list JsonValue)
  | JObj (fields : list (string * JsonValue)).
#[local] Set Elimination Schemes.

Record ActionRequest := {
  tool : string;
  parameters : option (list (string * JsonValue))
}.

(** [timestamp] is the ISO rendering of a millisecond count; it is kept as
    that count, which is what [new Date(t.timestamp).getTime()] reads back. *)
Record Thought := {
  id : string;
  thought : string;
  thought_type : ThoughtType;
  dependencies : list string;
  confidence : option Q;
  action_request : option ActionRequest;
  timestamp : Z;
  status : Status
}.

(** [this.graph.thoughts]: the entries of the map, oldest first.  The
    session id and the creation time of the graph are never read or
    written by the operations below. *)
Definition ThoughtMap := list Thought.

(** [thought.status = 'stale'] *)
Definition mk_stale (t : Thought) : Thought :=
  {| id := id t; thought := thought t; thought_type := thought_type t;
     dependencies := dependencies t; confidence := confidence t;
     action_request := action_request t; timestamp := timestamp t;
     status := stale |}.

Definition is_active (t : Thought) : bool := bool_decide (status t = active).

(** [Array.prototype.includes] on an array of strings *)
Definition includes (l : list string) (x : string) : bool := bool_decide (x ∈ l).

(** [Map.prototype.get] *)
Fixpoint graph_get (g : ThoughtMap) (k : string) : option Thought :=
  match g with
  | [] => None
  | t :: g' => if bool_decide (id t = k) then Some t else graph_get g' k
  end.

(** [Map.prototype.has] *)
Definition graph_has (g : ThoughtMap) (k : string) : bool :=
  match graph_get g k with Some _ => true | None => false end.

(** [Map.prototype.set(t.id, t)]: an existing key keeps its place, a new key
    goes last. *)
Fixpoint graph_set (g : ThoughtMap) (t : Thought) : ThoughtMap :=
  match g with
  | [] => [t]
  | u :: g' => if bool_decide (id u = id t) then t :: g' else u :: graph_set g' t
  end.

(** The assignment [thought.status = 'stale'] through the reference that
    [get(k)] returned: the entry stored under [k] changes in place. *)
Fixpoint mark_entry_stale (k : string) (g : ThoughtMap) : ThoughtMap :=
  match g with
  | [] => []
  | t :: g' =>
      if bool_decide (id t = k) then mk_stale t :: g'
      else t :: mark_entry_stale k g'
  end.

(** ** Errors ([McpError]) *)

Inductive ErrorCode := InvalidParams | InvalidRequest | MethodNotFound | InternalError.

Record McpError := { code : ErrorCode; message : string }.

Definition dquote : string := String (Ascii.ascii_of_nat 34) EmptyString.

(** ** Cascade invalidation ([markStale]) *)

Section MarkStaleLoop.
(** The recursive call and the id being invalidated. *)
Variable rec : ThoughtMap → string → option (ThoughtMap * list string).
Variable thoughtId : string.

(** [for (const [id, t] of this.graph.thoughts.entries())]: the keys are
    fixed while the loop runs, the status of [t] is read when the entry is
    reached. *)
Fixpoint markStale_loop (keys : list string) (g : ThoughtMap) (stale_ids : list string)
  : option (ThoughtMap * list string) :=
  match keys with
  | [] => Some (g, stale_ids)
  | k :: keys' =>
      match graph_get g k with
      | Some t =>
          if includes (dependencies t) thoughtId && is_active t then
            match rec g k with
            | Some (g', l) => markStale_loop keys' g' (stale_ids ++ l)
            | None => None
            end
          else markStale_loop keys' g stale_ids
      | None => markStale_loop keys' g stale_ids
      end
  end.
End MarkStaleLoop.

(** [markStale], with the depth of the recursion bounded by [fuel]. *)
Fixpoint markStale_fuel (fuel : nat) (g : ThoughtMap) (thoughtId : string)
  : option (ThoughtMap * list string) :=
  match fuel with
  | O => None
  | S fuel' =>
      match graph_get g thoughtId with
      | Some t =>
          if is_active t then
            let g1 := mark_entry_stale thoughtId g in
            markStale_loop (markStale_fuel fuel') thoughtId (map id g1) g1 [thoughtId]
          else Some (g, [])
      | None => Some (g, [])
      end
  end.

(** Every nested call stales one more active thought, so the recursion is
    never deeper than the number of thoughts: see [markStale_fuel_enough]. *)
Definition markStale (g : ThoughtMap) (thoughtId : string) : ThoughtMap * list string :=
  match markStale_fuel (S (length g)) g thoughtId with
  | Some r => r
  | None => (g, [])
  end.

(** ** [handleInvalidateAssumption]

    A handler returns the graph it leaves behind together with either the
    error it throws or its answer. *)

Module InvalidateInput.
Record t := { thought_id : string; reason : string }.
End InvalidateInput.

Record InvalidateOutput := {
  invalidated_thoughts : list string;
  critique_id : string
}.

Definition not_found_error : McpError :=
  {| code := InvalidParams; message := "Thought not found" |}.

Definition not_assumption_error : McpError :=
  {| code := InvalidParams; message := "Thought is not an assumption" |}.

(** The critique appended by an invalidation. *)
Definition critique_of (th : Thought) (input : InvalidateInput.t) (newId : string) (now : Z)
  : Thought :=
  {| id := newId;
     thought := "Assumption invalidated: " ++ dquote ++ thought th ++ dquote
                ++ ". Reason: " ++ InvalidateInput.reason input;
     thought_type := critique;
     dependencies := [InvalidateInput.thought_id input];
     confidence := None;
     action_request := None;
     timestamp := now;
     status := active |}.

(** [newId] is the value of [this.generateId()], [now] that of [new Date()]. *)
Definition handleInvalidateAssumption (g : ThoughtMap) (input : InvalidateInput.t)
    (newId : string) (now : Z) : ThoughtMap * (McpError + InvalidateOutput) :=
  match graph_get g (InvalidateInput.thought_id input) with
  | None => (g, inl not_found_error)
  | Some th =>
      if bool_decide (thought_type th ≠ assumption) then (g, inl not_assumption_error)
      else
        let '(g1, invalidated) := markStale g (InvalidateInput.thought_id input) in
        (graph_set g1 (critique_of th input newId now),
         inr {| invalidated_thoughts := invalidated; critique_id := newId |})
  end.

(** ** Cycle guard ([validateDependencies]) *)

Definition dangling_error (depId : string) : McpError :=
  {| code := InvalidParams;
     message := "Dependency " ++ dquote ++ depId ++ dquote ++ " does not exist" |}.

Definition cycle_error : McpError :=
  {| code := InvalidParams; message := "Circular dependency detected" |}.

(** The first loop of [validateDependencies]: the first missing id is
    reported. *)
Fixpoint first_missing (g : ThoughtMap) (deps : list string) : option string :=
  match deps with
  | [] => None
  | depId :: deps' => if graph_has g depId then first_missing g deps' else Some depId
  end.

(** The sets [visited] and [recursiveStack] of the closure [hasCycle]. *)
Record CycleState := { visited : gset string; recursiveStack : gset string }.

Section HasCycle.
Variable g : ThoughtMap.
Variable tempId : string.
Variable candidate : list string.

(** [nodeId === tempId ? dependencies
     : this.graph.thoughts.get(nodeId)?.dependencies || []] *)
Definition deps_of (nodeId : string) : list string :=
  if bool_decide (nodeId = tempId) then candidate
  else match graph_get g nodeId with
       | Some t => dependencies t
       | None => []
       end.

Section Loop.
Variable rec : CycleState → string → option (bool * CycleState).

(** [for (const depId of deps) { if (hasCycle(depId)) return true; }] *)
Fixpoint hasCycle_loop (deps : list string) (st : CycleState)
  : option (bool * CycleState) :=
  match deps with
  | [] => Some (false, st)
  | depId :: deps' =>
      match rec st depId with
      | Some (true, st') => Some (true, st')
      | Some (false, st') => hasCycle_loop deps' st'
      | None => None
      end
  end.
End Loop.

Fixpoint hasCycle_fuel (fuel : nat) (st : CycleState) (nodeId : string)
  : option (bool * CycleState) :=
  match fuel with
  | O => None
  | S fuel' =>
      if bool_decide (nodeId ∈ recursiveStack st) then Some (true, st)
      else if bool_decide (nodeId ∈ visited st) then Some (false, st)
      else
        let st1 := {| visited := {[nodeId]} ∪ visited st;
                      recursiveStack := {[nodeId]} ∪ recursiveStack st |} in
        match hasCycle_loop (hasCycle_fuel fuel') (deps_of nodeId) st1 with
        | Some (true, st') => Some (true, st')
        | Some (false, st') =>
            Some (false, {| visited := visited st';
                            recursiveStack := recursiveStack st' ∖ {[nodeId]} |})
        | None => None
        end
  end.

(** Only the candidate and the stored thoughts have dependencies to
    descend into, so the recursion is at most [length g + 2] deep: see
    [hasCycle_fuel_enough]. *)
Definition hasCycle (nodeId : string) : bool :=
  match hasCycle_fuel (length g + 2) {| visited := ∅; recursiveStack := ∅ |} nodeId with
  | Some (r, _) => r
  | None => false
  end.
End HasCycle.

(** [now] is the value of [Date.now()] that names the candidate. *)
Definition validateDependencies (g : ThoughtMap) (deps : list string) (now : Z)
  : McpError + unit :=
  match first_missing g deps with
  | Some depId => inl (dangling_error depId)
  | None =>
      let tempId : string := "temp_" +:+ pretty now in
      if hasCycle g tempId deps tempId then inl cycle_error else inr tt
  end.

(** ** [handleLogThought] *)

Module LogThoughtInput.
Record t := {
  thought : string;
  thought_type : ThoughtType;
  dependencies : list string;
  confidence : option Q;
  action_request : option ActionRequest
}.
End LogThoughtInput.

Record LogThoughtOutput := {
  logged_thought_id : string;
  total_thoughts : nat
}.

(** The thought that the handler builds from its input. *)
Definition logged (input : LogThoughtInput.t) (newId : string) (created : Z) : Thought :=
  {| id := newId;
     thought := LogThoughtInput.thought input;
     thought_type := LogThoughtInput.thought_type input;
     dependencies := LogThoughtInput.dependencies input;
     confidence := LogThoughtInput.confidence input;
     action_request := LogThoughtInput.action_request input;
     timestamp := created;
     status := active |}.

(** [now] is read by [validateDependencies], [newId] is the generated id and
    [created] the creation time of the thought. *)
Definition handleLogThought (g : ThoughtMap) (input : LogThoughtInput.t)
    (now : Z) (newId : string) (created : Z) : ThoughtMap * (McpError + LogThoughtOutput) :=
  match validateDependencies g (LogThoughtInput.dependencies input) now with
  | inl e => (g, inl e)
  | inr _ =>
      let g' := graph_set g (logged input newId created) in
      (g', inr {| logged_thought_id := newId; total_thoughts := length g' |})
  end.

(** ** Query engine ([handleQueryThoughts]) *)

Inductive QueryType := by_type | by_dependency | by_content | by_confidence | recent.

(** The input after [QueryThoughtsSchema.parse]: an absent optional field is
    [None], the defaults of [query_type], [limit] and [offset] are filled in. *)
Module QueryThoughtsInput.
Record t := {
  query_type : QueryType;
  thought_type : option ThoughtType;
  dependency_of : option string;
  depends_on : option string;
  content_search : option string;
  min_confidence : option Q;
  max_confidence : option Q;
  status : option Status;
  limit : Q;
  offset : Q
}.
End QueryThoughtsInput.

(** [if (s)] for an optional string: [undefined] and the empty string are
    falsy. *)
Definition truthy (o : option string) : option string :=
  match o with
  | Some EmptyString => None
  | _ => o
  end.

(** [String.prototype.toLowerCase], on the ASCII letters. *)
Definition lower_ascii (c : Ascii.ascii) : Ascii.ascii :=
  let n := Ascii.nat_of_ascii c in
  if (65 <=? n)%nat && (n <=? 90)%nat then Ascii.ascii_of_nat (n + 32) else c.

Fixpoint toLowerCase (s : string) : string :=
  match s with
  | EmptyString => EmptyString
  | String c s' => String (lower_ascii c) (toLowerCase s')
  end.

(** [String.prototype.includes] *)
Fixpoint str_includes (s sub : string) : bool :=
  String.prefix sub s ||
  match s with
  | EmptyString => false
  | String _ s' => str_includes s' sub
  end.

Definition opt_filter {A B} (o : option B) (p : B → A → bool) (l : list A) : list A :=
  match o with
  | Some b => List.filter (p b) l
  | None => l
  end.

Definition has_confidence (p : Q → bool) (t : Thought) : bool :=
  match confidence t with
  | Some c => p c
  | None => false
  end.

(** The filters, in the order in which the handler applies them. *)
Definition apply_filters (g : ThoughtMap) (input : QueryThoughtsInput.t) : list Thought :=
  let thoughts := g in
  let thoughts :=
    opt_filter (QueryThoughtsInput.thought_type input)
      (λ ty t, bool_decide (thought_type t = ty)) thoughts in
  let thoughts :=
    opt_filter (QueryThoughtsInput.status input)
      (λ st t, bool_decide (status t = st)) thoughts in
  let thoughts :=
    opt_filter (truthy (QueryThoughtsInput.content_search input))
      (λ s t, str_includes (toLowerCase (thought t)) (toLowerCase s)) thoughts in
  let thoughts :=
    opt_filter (QueryThoughtsInput.min_confidence input)
      (λ m, has_confidence (λ c, Qle_bool m c)) thoughts in
  let thoughts :=
    opt_filter (QueryThoughtsInput.max_confidence input)
      (λ m, has_confidence (λ c, Qle_bool c m)) thoughts in
  let thoughts :=
    match truthy (QueryThoughtsInput.dependency_of input) with
    | Some target =>
        match graph_get g target with
        | Some targetThought =>
            List.filter (λ t, includes (dependencies targetThought) (id t)) thoughts
        | None => []
        end
    | None => thoughts
    end in
  opt_filter (truthy (QueryThoughtsInput.depends_on input))
    (λ d t, includes (dependencies t) d) thoughts.

Section Sorting.
Context {A : Type}.
Variable cmp : A → A → Q.

(** [x] stood before every element of [l] in the input: it stays in front
    of the elements it does not compare greater than. *)
Fixpoint sort_insert (x : A) (l : list A) : list A :=
  match l with
  | [] => [x]
  | y :: l' => if Qle_bool (cmp x y) 0 then x :: l else y :: sort_insert x l'
  end.

(** [Array.prototype.sort(cmp)], which is stable. *)
Definition js_sort (l : list A) : list A := foldr sort_insert [] l.
End Sorting.

(** [ToIntegerOrInfinity]: truncation towards zero. *)
Definition to_integer (q : Q) : Z := if Qle_bool 0 q then Qfloor q else Qceiling q.

Definition relative_index (len rel : Z) : Z :=
  if (rel <? 0)%Z then Z.max (len + rel) 0 else Z.min rel len.

(** [Array.prototype.slice(start, end)] *)
Definition js_slice {A} (l : list A) (start stop : Q) : list A :=
  let len := Z.of_nat (length l) in
  let k := relative_index len (to_integer start) in
  let final := relative_index len (to_integer stop) in
  take (Z.to_nat (final - k)) (drop (Z.to_nat k) l).

Record QueryRow := {
  row : Thought;
  dependencies_count : nat;
  dependent_thoughts : list (string * ThoughtType)
}.

Record QueryOutput := {
  total_results : nat;
  returned_count : nat;
  out_offset : Q;
  out_limit : Q;
  thoughts : list QueryRow
}.

Section Query.
(** [String.prototype.localeCompare], whose order is that of the host's
    locale. *)
Variable localeCompare : string → string → Z.

(** The name of a thought type, as the strings of the union type spell it. *)
Definition type_name (ty : ThoughtType) : string :=
  match ty with
  | objective => "objective" | hypothesis => "hypothesis"
  | assumption => "assumption" | question => "question"
  | sub_problem => "sub_problem" | evidence => "evidence"
  | action => "action" | synthesis => "synthesis" | critique => "critique"
  end.

(** [c || 0] for an optional number. *)
Definition or_zero (c : option Q) : Q := match c with Some q => q | None => 0 end.

(** The comparator of each [query_type]. *)
Definition comparator (qt : QueryType) (a b : Thought) : Q :=
  match qt with
  | recent => inject_Z (timestamp b - timestamp a)
  | by_confidence => or_zero (confidence b) - or_zero (confidence a)
  | by_type => inject_Z (localeCompare (type_name (thought_type a)) (type_name (thought_type b)))
  | by_content => inject_Z (localeCompare (thought a) (thought b))
  | by_dependency =>
      inject_Z (Z.of_nat (length (dependencies b)) - Z.of_nat (length (dependencies a)))
  end.

Definition apply_sort (qt : QueryType) (l : list Thought) : list Thought :=
  js_sort (comparator qt) l.

Definition augment (g : ThoughtMap) (t : Thought) : QueryRow :=
  {| row := t;
     dependencies_count := length (dependencies t);
     dependent_thoughts :=
       map (λ other, (id other, thought_type other))
           (List.filter (λ other, includes (dependencies other) (id t)) g) |}.

Definition handleQueryThoughts (g : ThoughtMap) (input : QueryThoughtsInput.t) : QueryOutput :=
  let thoughts := apply_sort (QueryThoughtsInput.query_type input) (apply_filters g input) in
  let total := length thoughts in
  let paginatedThoughts :=
    js_slice thoughts (QueryThoughtsInput.offset input)
             (QueryThoughtsInput.offset input + QueryThoughtsInput.limit input) in
  {| total_results := total;
     returned_count := length paginatedThoughts;
     out_offset := QueryThoughtsInput.offset input;
     out_limit := QueryThoughtsInput.limit input;
     thoughts := map (augment g) paginatedThoughts |}.
End Query.

(** ** Admission control (the token bucket rate limiter) *)

(** [String.prototype.split(sep)] for a one-character separator. *)
Fixpoint split_on (sep : Ascii.ascii) (s : string) : list string :=
  match s with
  | EmptyString => [EmptyString]
  | String c s' =>
      if Ascii.eqb c sep then EmptyString :: split_on sep s'
      else match split_on sep s' with
           | w :: ws => String c w :: ws
           | [] => [String c EmptyString]
           end
  end.

Definition is_space (c : Ascii.ascii) : bool :=
  let n := Ascii.nat_of_ascii c in
  ((9 <=? n)%nat && (n <=? 13)%nat) || (n =? 32)%nat.

Fixpoint skip_spaces (s : string) : string :=
  match s with
  | String c s' => if is_space c then skip_spaces s' else s
  | EmptyString => s
  end.

Definition digit_value (radix : Z) (c : Ascii.ascii) : option Z :=
  let n := Z.of_nat (Ascii.nat_of_ascii c) in
  let v := if (48 <=? n)%Z && (n <=? 57)%Z then Some (n - 48)%Z
           else if (97 <=? n)%Z && (n <=? 122)%Z then Some (n - 87)%Z
           else if (65 <=? n)%Z && (n <=? 90)%Z then Some (n - 55)%Z
           else None in
  match v with
  | Some d => if (d <? radix)%Z then Some d else None
  | None => None
  end.

Fixpoint parse_digits (radix : Z) (s : string) (acc : option Z) : option Z :=
  match s with
  | EmptyString => acc
  | String c s' =>
      match digit_value radix c with
      | Some d =>
          parse_digits radix s'
            (Some (match acc with Some a => a * radix + d | None => d end)%Z)
      | None => acc
      end
  end.

(** [parseInt(s)] without a radix, on ASCII input; [None] is [NaN], which
    is also the value at [undefined]. *)
Definition parseInt (o : option string) : option Z :=
  match o with
  | None => None
  | Some s =>
      let s := skip_spaces s in
      let '(sign, s) :=
        match s with
        | String "-"%char s' => ((-1)%Z, s')
        | String "+"%char s' => (1%Z, s')
        | _ => (1%Z, s)
        end in
      let '(radix, s) :=
        match s with
        | String "0"%char (String "x"%char s') => (16%Z, s')
        | String "0"%char (String "X"%char s') => (16%Z, s')
        | _ => (10%Z, s)
        end in
      Z.mul sign <$> parse_digits radix s None
  end.

Module RateLimitConfig.
Record t := {
  maxTokens : Q;
  refillRate : Q;
  windowMs : option Q
}.
End RateLimitConfig.

(** [retryAfter]: a division by a zero refill rate yields [Infinity]. *)
Inductive RetryAfter := RetryMs (ms : Z) | RetryInfinity.

Record LimitResult := {
  allowed : bool;
  retryAfter : option RetryAfter;
  remaining : Z
}.

Record LimiterStats := {
  currentTokens : Z;
  stats_maxTokens : Q;
  stats_refillRate : Q;
  requestsInWindow : nat
}.

Module TokenBucketRateLimiter.
Record t := {
  tokens : Q;
  lastRefill : Z;
  maxTokens : Q;
  refillRate : Q;
  requestCount : gmap string nat;
  windowMs : Q
}.

(** The constructor; [now] is its reading of [Date.now()]. *)
Definition new (config : RateLimitConfig.t) (now : Z) : t :=
  {| maxTokens := RateLimitConfig.maxTokens config;
     refillRate := RateLimitConfig.refillRate config;
     windowMs := match RateLimitConfig.windowMs config with
                 | Some w => if Qeq_bool w 0 then 60000%Q else w
                 | None => 60000%Q
                 end;
     tokens := RateLimitConfig.maxTokens config;
     lastRefill := now;
     requestCount := ∅ |}.

Definition refillTokens (b : t) (now : Z) : t :=
  let timePassed : Q := (inject_Z (now - lastRefill b) / 1000)%Q in
  let tokensToAdd : Q := (timePassed * refillRate b)%Q in
  {| tokens := Qmin (maxTokens b) (tokens b + tokensToAdd);
     lastRefill := now;
     maxTokens := maxTokens b;
     refillRate := refillRate b;
     requestCount := requestCount b;
     windowMs := windowMs b |}.

(** [`${clientId}:${Math.floor(now / this.windowMs)}`], for an index below
    [10 ^ 21], which is printed with all its digits. *)
Definition windowKey (b : t) (clientId : string) (now : Z) : string :=
  clientId +:+ ":" +:+ pretty (Qfloor (inject_Z now / windowMs b)%Q).

(** The test of the clean-up loop on one key of [requestCount]. *)
Definition expired (b : t) (now : Z) (key : string) : bool :=
  match parseInt (split_on ":"%char key !! 1%nat) with
  | Some ts => (ts <? Qfloor ((inject_Z now - windowMs b) / windowMs b)%Q)%Z
  | None => false
  end.

(** [(cost - this.tokens) / this.refillRate * 1000], rounded up, when the
    bucket holds fewer than [cost] tokens. *)
Definition retry_after (b : t) (cost : Q) : RetryAfter :=
  if Qeq_bool (refillRate b) 0 then RetryInfinity
  else RetryMs (Qceiling ((cost - tokens b) / refillRate b * 1000)%Q).

(** [now1] is read by [refillTokens], [now2] by [checkLimit] itself. *)
Definition checkLimit (b : t) (clientId : string) (cost : Q) (now1 now2 : Z)
  : t * LimitResult :=
  let b := refillTokens b now1 in
  let key := windowKey b clientId now2 in
  let counts :=
    filter (λ kv : string * nat, expired b now2 kv.1 = false) (requestCount b) in
  if Qle_bool cost (tokens b) then
    let tokens' : Q := (tokens b - cost)%Q in
    let currentCount := default 0%nat (counts !! key) in
    ({| tokens := tokens';
        lastRefill := lastRefill b;
        maxTokens := maxTokens b;
        refillRate := refillRate b;
        requestCount := <[key := (currentCount + 1)%nat]> counts;
        windowMs := windowMs b |},
     {| allowed := true; retryAfter := None; remaining := Qfloor tokens' |})
  else
    ({| tokens := tokens b;
        lastRefill := lastRefill b;
        maxTokens := maxTokens b;
        refillRate := refillRate b;
        requestCount := counts;
        windowMs := windowMs b |},
     {| allowed := false;
        retryAfter := Some (retry_after b cost);
        remaining := Qfloor (tokens b) |}).

Definition getStats (b : t) (clientId : string) (now1 now2 : Z) : t * LimiterStats :=
  let b := refillTokens b now1 in
  (b, {| currentTokens := Qfloor (tokens b);
         stats_maxTokens := maxTokens b;
         stats_refillRate := refillRate b;
         requestsInWindow := default 0%nat (requestCount b !! windowKey b clientId now2) |}).
End TokenBucketRateLimiter.

Module RateLimitManager.
Record t := {
  limiters : gmap string TokenBucketRateLimiter.t;
  defaultConfig : RateLimitConfig.t
}.

Definition default_config : RateLimitConfig.t :=
  {| RateLimitConfig.maxTokens := 100%Q;
     RateLimitConfig.refillRate := 10%Q;
     RateLimitConfig.windowMs := Some 60000%Q |}.

Definition addLimiter (m : t) (name : string) (config : RateLimitConfig.t) (now : Z) : t :=
  {| limiters := <[name := TokenBucketRateLimiter.new config now]> (limiters m);
     defaultConfig := defaultConfig m |}.

(** [now0] is read by the constructor of a limiter created on demand. *)
Definition checkLimit (m : t) (limiterName clientId : string) (cost : Q)
    (now0 now1 now2 : Z) : t * (LimitResult * string) :=
  let limiter :=
    match limiters m !! limiterName with
    | Some l => l
    | None => TokenBucketRateLimiter.new (defaultConfig m) now0
    end in
  let '(limiter', result) :=
    TokenBucketRateLimiter.checkLimit limiter clientId cost now1 now2 in
  ({| limiters := <[limiterName := limiter']> (limiters m);
      defaultConfig := defaultConfig m |},
   (result, limiterName)).
End RateLimitManager.

(** ** Operations on the graph and their traces *)

(** A call of one of the two mutating tools, with the values it reads from
    its environment. *)
Inductive Op :=
  | OpLog (input : LogThoughtInput.t) (now : Z) (newId : string) (created : Z)
  | OpInvalidate (input : InvalidateInput.t) (newId : string) (now : Z).

(** The graph an operation leaves behind, whether it answers or throws. *)
Definition exec (g : ThoughtMap) (op : Op) : ThoughtMap :=
  match op with
  | OpLog input now newId created => (handleLogThought g input now newId created).1
  | OpInvalidate input newId now => (handleInvalidateAssumption g input newId now).1
  end.

Definition run (g : ThoughtMap) (ops : list Op) : ThoughtMap := foldl exec g ops.

(** The id that [generateId] returned to the operation. *)
Definition op_new_id (op : Op) : string :=
  match op with
  | OpLog _ _ newId _ => newId
  | OpInvalidate _ newId _ => newId
  end.

(** [generateId] draws ids that collide with no stored id: every operation
    of the trace received an id absent from the graph it started from. *)
Fixpoint fresh_ids (g : ThoughtMap) (ops : list Op) : bool :=
  match ops with
  | [] => true
  | op :: ops' => negb (graph_has g (op_new_id op)) && fresh_ids (exec g op) ops'
  end.

(** ** Vocabulary of the statements *)

Definition active_in (g : ThoughtMap) (k : string) : Prop :=
  ∃ t, graph_get g k = Some t ∧ status t = active.

Definition stale_in (g : ThoughtMap) (k : string) : Prop :=
  ∃ t, graph_get g k = Some t ∧ status t = stale.

(** [z] lists [y] among its dependencies. *)
Definition depends_in (g : ThoughtMap) (z y : string) : Prop :=
  ∃ t, graph_get g z = Some t ∧ y ∈ dependencies t.

(** The thoughts that rest on [a]: [a] itself when it is active, and every
    active thought that lists one of them as a dependency. *)
Inductive cascade (g : ThoughtMap) (a : string) : string → Prop :=
  | cascade_root : active_in g a → cascade g a a
  | cascade_step y z :
      cascade g a y → depends_in g z y → active_in g z → cascade g a z.

(** Entry by entry, [g'] is [g] with some thoughts turned stale. *)
Definition evolves (g g' : ThoughtMap) : Prop :=
  Forall2 (λ t t', t' = t ∨ t' = mk_stale t) g g'.

Definition count_active (g : ThoughtMap) : nat := length (List.filter is_active g).

(** What a call [markStale g x] that returns [(g', l)] has done: it turned
    stale the thoughts that rest on [x], and [l] lists them once each. *)
Definition marks (g : ThoughtMap) (x : string) (g' : ThoughtMap) (l : list string) : Prop :=
  evolves g g' ∧
  (∀ y, stale_in g' y ↔ stale_in g y ∨ cascade g x y) ∧
  NoDup l ∧
  (∀ y, y ∈ l ↔ active_in g y ∧ stale_in g' y).

(** No thought of [g1] that is stale in [gs] but was active in [g1] has a
    dependent that was active in [g1] and is not stale in [gs]. *)
Definition cascade_closed (g1 gs : ThoughtMap) : Prop :=
  ∀ y z, active_in g1 y → stale_in gs y → depends_in g1 z y → active_in g1 z → stale_in gs z.

(** The dependency relation has no cycle. *)
Definition acyclic (g : ThoughtMap) : Prop := ∀ x, ¬ tc (depends_in g) x x.

(** Every dependency of a stored thought is stored. *)
Definition deps_closed (g : ThoughtMap) : Prop :=
  ∀ t d, t ∈ g → d ∈ dependencies t → is_Some (graph_get g d).

(** Every thought was stored under a new id, after all its dependencies. *)
Inductive insertion_ordered : ThoughtMap → Prop :=
  | ordered_nil : insertion_ordered []
  | ordered_snoc g t :
      insertion_ordered g →
      id t ∉ map id g →
      (∀ d, d ∈ dependencies t → d ∈ map id g) →
      insertion_ordered (g ++ [t]).

Section CycleVocabulary.
Variable g : ThoughtMap.
Variable tempId : string.
Variable candidate : list string.

(** The edges that [hasCycle] follows: those of the candidate, named
    [tempId], and those of the stored thoughts. *)
Definition follows (a b : string) : Prop := b ∈ deps_of g tempId candidate a.

(** A cycle can be reached from the candidate. *)
Definition closes_cycle : Prop :=
  ∃ c, rtc follows tempId c ∧ tc follows c c.
End CycleVocabulary.

(** The conjunction of the filters of a query, on one thought. *)
Definition matches (g : ThoughtMap) (input : QueryThoughtsInput.t) (t : Thought) : bool :=
  match QueryThoughtsInput.thought_type input with
  | Some ty => bool_decide (thought_type t = ty) | None => true end
  && match QueryThoughtsInput.status input with
     | Some st => bool_decide (status t = st) | None => true end
  && match truthy (QueryThoughtsInput.content_search input) with
     | Some s => str_includes (toLowerCase (thought t)) (toLowerCase s) | None => true end
  && match QueryThoughtsInput.min_confidence input with
     | Some m => has_confidence (λ c, Qle_bool m c) t | None => true end
  && match QueryThoughtsInput.max_confidence input with
     | Some m => has_confidence (λ c, Qle_bool c m) t | None => true end
  && match truthy (QueryThoughtsInput.dependency_of input) with
     | Some target =>
         match graph_get g target with
         | Some targetThought => includes (dependencies targetThought) (id t)
         | None => false
         end
     | None => true end
  && match truthy (QueryThoughtsInput.depends_on input) with
     | Some d => includes (dependencies t) d | None => true end.

(** Every thought of [g] is still stored in [h], unchanged or turned stale. *)
Definition grows (g h : ThoughtMap) : Prop :=
  ∀ k t, graph_get g k = Some t →
         ∃ t', graph_get h k = Some t' ∧ (t' = t ∨ t' = mk_stale t).

(** The critique [c] of the assumption [a] is stored as it was appended,
    and [a] is stale. *)
Definition critique_kept (c : Thought) (a : string) (h : ThoughtMap) : Prop :=
  graph_get h (id c) = Some c ∧ stale_in h a.

(** The nodes a call of [hasCycle] has left for good, latest first: the
    dependencies of each were left before it. *)
Fixpoint finished (R : relation string) (B : list string) : Prop :=
  match B with
  | [] => True
  | m :: B' => (∀ d, R m d → d ∈ B') ∧ finished R B'
  end.

(** The nodes that can have dependencies: the candidate and the stored
    thoughts. *)
Definition expandable (g : ThoughtMap) (tempId : string) : gset string :=
  {[tempId]} ∪ list_to_set (map id g).

Definition empty_state : CycleState := {| visited := ∅; recursiveStack := ∅ |}.

Section CycleSpecification.
Variable g : ThoughtMap.
Variable tempId : string.
Variable candidate : list string.

(** What a call on [n] leaves when it answers [false]: the stack it found,
    and [n] among the nodes left for good. *)
Definition left_clean (st : CycleState) (B : list string) (n : string)
    (st' : CycleState) : Prop :=
  ∃ B', recursiveStack st' = recursiveStack st
        ∧ (∀ x, x ∈ visited st' ↔ x ∈ recursiveStack st ∨ x ∈ B')
        ∧ finished (follows g tempId candidate) B' ∧ B ⊆ B' ∧ n ∈ B'.

(** The contract of a call of [hasCycle] on a node [n] that the candidate
    reaches and that every node of the stack reaches: it answers, [true]
    only if a cycle can be reached, [false] only after it has explored [n]. *)
Definition call_spec (rec : CycleState → string → option (bool * CycleState)) (bound : nat)
  : Prop :=
  ∀ st n B,
    (size (expandable g tempId ∖ recursiveStack st) < bound)%nat →
    (∀ x, x ∈ visited st ↔ x ∈ recursiveStack st ∨ x ∈ B) →
    finished (follows g tempId candidate) B →
    (∀ s, s ∈ recursiveStack st → tc (follows g tempId candidate) s n) →
    rtc (follows g tempId candidate) tempId n →
    ∃ r st', rec st n = Some (r, st')
             ∧ if r then closes_cycle g tempId candidate else left_clean st B n st'.
End CycleSpecification.

(** The token count after a refill at time [now]: the tokens held plus the
    elapsed seconds times the refill rate, capped at the capacity. *)
Definition refilled (b : TokenBucketRateLimiter.t) (now : Z) : Q :=
  Qmin (TokenBucketRateLimiter.maxTokens b)
       (TokenBucketRateLimiter.tokens b
        + inject_Z (now - TokenBucketRateLimiter.lastRefill b) / 1000
          * TokenBucketRateLimiter.refillRate b)%Q.

(** ** Sample data *)

Definition sample_thought (i : string) (ty : ThoughtType) (deps : list string) (st : Status)
  : Thought :=
  {| id := i; thought := "t"; thought_type := ty; dependencies := deps;
     confidence := None; action_request := None; timestamp := 0; status := st |}.

Definition invalidate_a : InvalidateInput.t :=
  {| InvalidateInput.thought_id := "a"; InvalidateInput.reason := "r" |}.

(** One assumption, already stale. *)
Definition stale_a : Thought := sample_thought "a" assumption [] stale.
Definition g_stale : ThoughtMap := [stale_a].

(** An assumption [a] with two dependents, one of which rests on the other. *)
Definition active_a : Thought := sample_thought "a" assumption ["o"] active.
Definition g_diamond : ThoughtMap :=
  [sample_thought "o" objective [] active;
   active_a;
   sample_thought "s" sub_problem ["a"] active;
   sample_thought "u" synthesis ["a"; "s"] active].

(** A thought of evidence that rests on [s]. *)
Definition log_evidence : LogThoughtInput.t :=
  {| LogThoughtInput.thought := "e";
     LogThoughtInput.thought_type := evidence;
     LogThoughtInput.dependencies := ["s"];
     LogThoughtInput.confidence := Some (1 # 2);
     LogThoughtInput.action_request := None |}.

(** Invalidate [a], log evidence on [s], invalidate [a] again. *)
Definition sample_trace : list Op :=
  [OpInvalidate invalidate_a "c" 1; OpLog log_evidence 7 "e" 8; OpInvalidate invalidate_a "d" 9].

(** An assumption, then a critique of it logged by the client, then the
    invalidation of the assumption. *)
Definition log_assumption : LogThoughtInput.t :=
  {| LogThoughtInput.thought := "the cache is warm";
     LogThoughtInput.thought_type := assumption;
     LogThoughtInput.dependencies := [];
     LogThoughtInput.confidence := None;
     LogThoughtInput.action_request := None |}.

Definition log_critique : LogThoughtInput.t :=
  {| LogThoughtInput.thought := "the cache is cold after a deploy";
     LogThoughtInput.thought_type := critique;
     LogThoughtInput.dependencies := ["a"];
     LogThoughtInput.confidence := None;
     LogThoughtInput.action_request := None |}.

Definition logged_critique_trace : list Op :=
  [OpLog log_assumption 1 "a" 1; OpLog log_critique 2 "k" 2].

(** A thought that names [z], which no sample graph stores. *)
Definition log_missing : LogThoughtInput.t :=
  {| LogThoughtInput.thought := "m";
     LogThoughtInput.thought_type := evidence;
     LogThoughtInput.dependencies := ["a"; "z"; "y"];
     LogThoughtInput.confidence := None;
     LogThoughtInput.action_request := None |}.

(** Two thoughts that depend on each other, and a candidate resting on
    one of them. *)
Definition g_cyclic : ThoughtMap :=
  [sample_thought "p" hypothesis ["q"] active; sample_thought "q" hypothesis ["p"] active].

Definition log_on_cycle : LogThoughtInput.t :=
  {| LogThoughtInput.thought := "n";
     LogThoughtInput.thought_type := synthesis;
     LogThoughtInput.dependencies := ["p"];
     LogThoughtInput.confidence := None;
     LogThoughtInput.action_request := None |}.

(** A comparison of strings by code unit, which stands for the order of a
    locale in the examples. *)
Definition sample_localeCompare (a b : string) : Z :=
  match String.compare a b with
  | Lt => (-1)%Z
  | Eq => 0%Z
  | Gt => 1%Z
  end.

(** A query for the ten most recent thoughts that [target] depends on,
    from [offset] on. *)
Definition query_dependency_of (target : string) (offset : Q) : QueryThoughtsInput.t :=
  {| QueryThoughtsInput.query_type := recent;
     QueryThoughtsInput.thought_type := None;
     QueryThoughtsInput.dependency_of := Some target;
     QueryThoughtsInput.depends_on := None;
     QueryThoughtsInput.content_search := None;
     QueryThoughtsInput.min_confidence := None;
     QueryThoughtsInput.max_confidence := None;
     QueryThoughtsInput.status := None;
     QueryThoughtsInput.limit := 10;
     QueryThoughtsInput.offset := offset |}.

Definition sample_config : RateLimitConfig.t :=
  {| RateLimitConfig.maxTokens := 3%Q;
     RateLimitConfig.refillRate := (1 # 2)%Q;
     RateLimitConfig.windowMs := None |}.

(** The session of the engine's own test client: an objective, a hypothesis
    on it, an assumption on the hypothesis and a sub-problem on the
    assumption. *)
Definition log_plain (text : string) (ty : ThoughtType) (deps : list string)
  : LogThoughtInput.t :=
  {| LogThoughtInput.thought := text;
     LogThoughtInput.thought_type := ty;
     LogThoughtInput.dependencies := deps;
     LogThoughtInput.confidence := None;
     LogThoughtInput.action_request := None |}.

Definition scenario_trace : list Op :=
  [OpLog (log_plain "objective" objective []) 1 "O" 1;
   OpLog (log_plain "hypothesis" hypothesis ["O"]) 2 "H" 2;
   OpLog (log_plain "assumption" assumption ["H"]) 3 "A" 3;
   OpLog (log_plain "sub-problem" sub_problem ["A"]) 4 "S" 4].

Definition invalidate_A : InvalidateInput.t :=
  {| InvalidateInput.thought_id := "A"; InvalidateInput.reason := "R" |}.

(** Closed decidable facts hold by evaluation. *)
Ltac by_evaluation := apply (bool_decide_unpack _); vm_compute; exact I.

(** ** Vocabulary of the further properties *)

(** [Array.from(this.graph.thoughts.values()).filter(t => t.status === 'stale').length] *)
Definition stale_count (g : ThoughtMap) : nat :=
  length (List.filter (λ t, bool_decide (status t = stale)) g).


(** The string holds no colon. *)
Fixpoint colon_free (s : string) : bool :=
  match s with
  | EmptyString => true
  | String c s' => negb (Ascii.eqb c ":") && colon_free s'
  end.

Definition is_digit (c : Ascii.ascii) : bool :=
  let n := Ascii.nat_of_ascii c in (48 <=? n)%nat && (n <=? 57)%nat.

(** The string holds decimal digits only. *)
Fixpoint all_digits (s : string) : bool :=
  match s with
  | EmptyString => true
  | String c s' => is_digit c && all_digits s'
  end.

(** The number by which a numeric sort mode orders the thoughts, largest
    first; the two other modes compare strings. *)
Definition numeric_key (qt : QueryType) : option (Thought → Q) :=
  match qt with
  | recent => Some (λ t, inject_Z (timestamp t))
  | by_confidence => Some (λ t, or_zero (confidence t))
  | by_dependency => Some (λ t, inject_Z (Z.of_nat (length (dependencies t))))
  | by_type | by_content => None
  end.

(** The same query for the page of [n] results from the [o]-th on. *)
Definition with_page (input : QueryThoughtsInput.t) (o n : nat) : QueryThoughtsInput.t :=
  {| QueryThoughtsInput.query_type := QueryThoughtsInput.query_type input;
     QueryThoughtsInput.thought_type := QueryThoughtsInput.thought_type input;
     QueryThoughtsInput.dependency_of := QueryThoughtsInput.dependency_of input;
     QueryThoughtsInput.depends_on := QueryThoughtsInput.depends_on input;
     QueryThoughtsInput.content_search := QueryThoughtsInput.content_search input;
     QueryThoughtsInput.min_confidence := QueryThoughtsInput.min_confidence input;
     QueryThoughtsInput.max_confidence := QueryThoughtsInput.max_confidence input;
     QueryThoughtsInput.status := QueryThoughtsInput.status input;
     QueryThoughtsInput.limit := inject_Z (Z.of_nat n);
     QueryThoughtsInput.offset := inject_Z (Z.of_nat o) |}.

(** The thoughts of the rows of an answer, in the order of the answer. *)
Definition rows (out : QueryOutput) : list Thought := map row (thoughts out).

(** A query without filters, from offset 0. *)
Definition query_all (qt : QueryType) (limit : Q) : QueryThoughtsInput.t :=
  {| QueryThoughtsInput.query_type := qt;
     QueryThoughtsInput.thought_type := None;
     QueryThoughtsInput.dependency_of := None;
     QueryThoughtsInput.depends_on := None;
     QueryThoughtsInput.content_search := None;
     QueryThoughtsInput.min_confidence := None;
     QueryThoughtsInput.max_confidence := None;
     QueryThoughtsInput.status := None;
     QueryThoughtsInput.limit := limit;
     QueryThoughtsInput.offset := 0 |}.

Definition dependency_count (t : Thought) : Q :=
  inject_Z (Z.of_nat (length (dependencies t))).

(** A thought that names the same dependency twice. *)
Definition g_repeated : ThoughtMap :=
  [sample_thought "o" objective [] active;
   sample_thought "h" hypothesis ["o"; "o"] active].

(** ** The server ([DREServer]): graph views, metrics and dispatch *)

Inductive GraphFormat := format_full | format_summary.

Module GetGraphInput.
Record t := { format : GraphFormat }.
End GetGraphInput.

Module GetMetricsInput.
Record t := { include_sessions : bool }.
End GetMetricsInput.

(** [ReasoningGraph]: the thoughts, and the id and the creation time of the
    session. *)
Module ReasoningGraph.
Record t := { thoughts : ThoughtMap; session_id : string; created_at : Z }.
End ReasoningGraph.

(** [typeCounts[ty] = (typeCounts[ty] || 0) + 1], on an object whose keys
    keep the order in which they were added. *)
Fixpoint count_type (ty : ThoughtType) (typeCounts : list (ThoughtType * nat))
  : list (ThoughtType * nat) :=
  match typeCounts with
  | [] => [(ty, 1%nat)]
  | (k, n) :: rest =>
      if bool_decide (k = ty) then (k, (n + 1)%nat) :: rest
      else (k, n) :: count_type ty rest
  end.

(** [typeCounts[ty] || 0] *)
Fixpoint type_count (ty : ThoughtType) (typeCounts : list (ThoughtType * nat)) : nat :=
  match typeCounts with
  | [] => 0%nat
  | (k, n) :: rest => if bool_decide (k = ty) then n else type_count ty rest
  end.

(** The thoughts of type [ty]. *)
Definition of_type (ty : ThoughtType) (g : ThoughtMap) : list Thought :=
  List.filter (λ t, bool_decide (thought_type t = ty)) g.

Inductive GraphOutput :=
  | FullGraph (session_id : string) (created_at : Z) (all_thoughts : list Thought)
              (total : nat)
  | GraphSummary (session_id : string) (total : nat)
                 (thought_types : list (ThoughtType * nat)) (stale_thoughts : nat).

Definition handleGetThoughtGraph (graph : ReasoningGraph.t) (input : GetGraphInput.t)
  : GraphOutput :=
  match GetGraphInput.format input with
  | format_full =>
      FullGraph (ReasoningGraph.session_id graph) (ReasoningGraph.created_at graph)
                (ReasoningGraph.thoughts graph) (length (ReasoningGraph.thoughts graph))
  | format_summary =>
      let typeCounts :=
        foldl (λ typeCounts thought, count_type (thought_type thought) typeCounts)
              [] (ReasoningGraph.thoughts graph) in
      GraphSummary (ReasoningGraph.session_id graph)
                   (length (ReasoningGraph.thoughts graph))
                   typeCounts
                   (stale_count (ReasoningGraph.thoughts graph))
  end.

(** [RateLimitManager.getStats]: [null] for a limiter that was never
    added, and no limiter is created. *)
Record ManagerStats := {
  stats_limiter : string;
  stats_client : string;
  stats_of_limiter : LimiterStats
}.

Definition manager_getStats (m : RateLimitManager.t) (limiterName clientId : string)
    (now1 now2 : Z) : RateLimitManager.t * option ManagerStats :=
  match RateLimitManager.limiters m !! limiterName with
  | None => (m, None)
  | Some limiter =>
      let '(limiter', st) := TokenBucketRateLimiter.getStats limiter clientId now1 now2 in
      ({| RateLimitManager.limiters := <[limiterName := limiter']> (RateLimitManager.limiters m);
          RateLimitManager.defaultConfig := RateLimitManager.defaultConfig m |},
       Some {| stats_limiter := limiterName; stats_client := clientId;
               stats_of_limiter := st |})
  end.

Module CurrentSession.
Record t := {
  session_id : string;
  created_at : Z;
  thoughts_in_memory : nat;
  active_thoughts : nat;
  stale_thoughts : nat
}.
End CurrentSession.

Record MetricsOutput := {
  current_session : CurrentSession.t;
  global_metrics : JsonValue;
  sessions : option JsonValue;
  rate_limiting : list (string * option ManagerStats)
}.

(** What one call of a tool reads from outside the server: the clock, the
    id generator, and the outcome of the calls of the store. *)
Module Env.
Record t := {
  (** the three readings of the clock in [RateLimitManager.checkLimit] *)
  limit_clock : Z * Z * Z;
  (** [this.generateId()] *)
  new_id : string;
  (** [Date.now()] in [validateDependencies], [new Date()] of a critique *)
  now : Z;
  (** [new Date()] of a logged thought *)
  created : Z;
  (** [String(error)] when an awaited [saveThought] throws *)
  save_error : option string;
  (** [persistence.getMetrics()] and [persistence.getAllSessions()] *)
  metrics : string + JsonValue;
  all_sessions : string + JsonValue;
  (** the two readings of the clock in [getStats] of each limiter *)
  stats_clock : string → Z * Z
}.
End Env.

Module DREServer.
Record t := { graph : ReasoningGraph.t; rateLimiter : RateLimitManager.t }.

(** The constructor: five limiters, an empty graph.  [clock] is the reading
    of the clock when the limiter of a tool is built. *)
Definition new (clock : string → Z) (session_id : string) (created_at : Z) : t :=
  let m := {| RateLimitManager.limiters := ∅;
              RateLimitManager.defaultConfig := RateLimitManager.default_config |} in
  let m := RateLimitManager.addLimiter m "log_thought"
             {| RateLimitConfig.maxTokens := 50; RateLimitConfig.refillRate := 5;
                RateLimitConfig.windowMs := Some 60000%Q |} (clock "log_thought") in
  let m := RateLimitManager.addLimiter m "query_thoughts"
             {| RateLimitConfig.maxTokens := 20; RateLimitConfig.refillRate := 2;
                RateLimitConfig.windowMs := Some 60000%Q |} (clock "query_thoughts") in
  let m := RateLimitManager.addLimiter m "get_metrics"
             {| RateLimitConfig.maxTokens := 10; RateLimitConfig.refillRate := 1;
                RateLimitConfig.windowMs := Some 60000%Q |} (clock "get_metrics") in
  let m := RateLimitManager.addLimiter m "invalidate_assumption"
             {| RateLimitConfig.maxTokens := 30; RateLimitConfig.refillRate := 3;
                RateLimitConfig.windowMs := Some 60000%Q |} (clock "invalidate_assumption") in
  let m := RateLimitManager.addLimiter m "get_thought_graph"
             {| RateLimitConfig.maxTokens := 15; RateLimitConfig.refillRate := 2;
                RateLimitConfig.windowMs := Some 60000%Q |} (clock "get_thought_graph") in
  {| graph := {| ReasoningGraph.thoughts := [];
                 ReasoningGraph.session_id := session_id;
                 ReasoningGraph.created_at := created_at |};
     rateLimiter := m |}.

Definition thoughts (s : t) : ThoughtMap := ReasoningGraph.thoughts (graph s).

Definition set_thoughts (s : t) (g : ThoughtMap) : t :=
  {| graph := {| ReasoningGraph.thoughts := g;
                 ReasoningGraph.session_id := ReasoningGraph.session_id (graph s);
                 ReasoningGraph.created_at := ReasoningGraph.created_at (graph s) |};
     rateLimiter := rateLimiter s |}.

Definition set_rateLimiter (s : t) (m : RateLimitManager.t) : t :=
  {| graph := graph s; rateLimiter := m |}.
End DREServer.

(** A step of a request: it may change the server, and it returns a value
    or throws the error that the request answers with. *)
Definition Call (A : Type) : Type := DREServer.t → DREServer.t * (McpError + A).

#[global] Instance call_ret : MRet Call := λ A a s, (s, inr a).

#[global] Instance call_bind : MBind Call := λ A B f m s,
  match m s with
  | (s', inl e) => (s', inl e)
  | (s', inr a) => f a s'
  end.

Definition throw {A} (e : McpError) : Call A := λ s, (s, inl e).

(** [`${result.retryAfter}`] *)
Definition show_retry (r : option RetryAfter) : string :=
  match r with
  | Some (RetryMs ms) => pretty ms
  | Some RetryInfinity => "Infinity"
  | None => "undefined"
  end.

Definition rate_limit_error (toolName : string) (result : LimitResult) : McpError :=
  {| code := InvalidRequest;
     message := "Rate limit exceeded for " +:+ toolName +:+ ". Try again in "
                +:+ show_retry (retryAfter result) +:+ "ms. Remaining tokens: "
                +:+ pretty (remaining result) |}.

(** [checkRateLimit(toolName)]: the client is always ['default']. *)
Definition checkRateLimit (toolName : string) (env : Env.t) : Call unit := λ s,
  let '(now0, now1, now2) := Env.limit_clock env in
  let '(m, (result, _)) :=
    RateLimitManager.checkLimit (DREServer.rateLimiter s) toolName "default" 1
                                now0 now1 now2 in
  let s' := DREServer.set_rateLimiter s m in
  if allowed result then (s', inr tt) else (s', inl (rate_limit_error toolName result)).

(** An issue of a [ZodError]: the path, each step as a string, and the
    message. *)
Record ZodIssue := { issue_path : list string; issue_message : string }.

(** The error that the [catch] of the request handler makes of a
    [ZodError]. *)
Definition invalid_params (issues : list ZodIssue) : McpError :=
  {| code := InvalidParams;
     message := "Invalid parameters: "
                +:+ String.concat ", "
                      (map (λ e, String.concat "." (issue_path e) +:+ ": " +:+ issue_message e)
                           issues) |}.

(** The error that the [catch] makes of any other error. *)
Definition internal_error (text : string) : McpError :=
  {| code := InternalError; message := text |}.

Definition unknown_tool_error (name : string) : McpError :=
  {| code := MethodNotFound; message := "Unknown tool: " +:+ name |}.

(** [Schema.parse(args)] *)
Definition parse {A} (schema : JsonValue → list ZodIssue + A) (args : JsonValue) : Call A :=
  match schema args with
  | inl issues => throw (invalid_params issues)
  | inr input => mret input
  end.

(** An awaited call of the store that returns a value. *)
Definition from_store {A} (r : string + A) : Call A :=
  match r with
  | inl text => throw (internal_error text)
  | inr a => mret a
  end.

(** The awaited calls of [saveThought], after the graph was changed. *)
Definition saveThoughts (env : Env.t) : Call unit :=
  match Env.save_error env with
  | Some text => throw (internal_error text)
  | None => mret tt
  end.

Definition logThought (input : LogThoughtInput.t) (env : Env.t) : Call LogThoughtOutput :=
  λ s,
  let '(g, r) := handleLogThought (DREServer.thoughts s) input
                   (Env.now env) (Env.new_id env) (Env.created env) in
  (DREServer.set_thoughts s g, r).

Definition invalidateAssumption (input : InvalidateInput.t) (env : Env.t)
  : Call InvalidateOutput := λ s,
  let '(g, r) := handleInvalidateAssumption (DREServer.thoughts s) input
                   (Env.new_id env) (Env.now env) in
  (DREServer.set_thoughts s g, r).

Definition getThoughtGraph (input : GetGraphInput.t) : Call GraphOutput := λ s,
  (s, inr (handleGetThoughtGraph (DREServer.graph s) input)).

Definition currentSession : Call CurrentSession.t := λ s,
  let g := DREServer.thoughts s in
  (s, inr {| CurrentSession.session_id := ReasoningGraph.session_id (DREServer.graph s);
             CurrentSession.created_at := ReasoningGraph.created_at (DREServer.graph s);
             CurrentSession.thoughts_in_memory := length g;
             CurrentSession.active_thoughts :=
               length (List.filter (λ t, bool_decide (status t = active)) g);
             CurrentSession.stale_thoughts :=
               length (List.filter (λ t, bool_decide (status t = stale)) g) |}).

(** [this.rateLimiter.getStats(name)] *)
Definition limiterStats (name : string) (env : Env.t) : Call (string * option ManagerStats) :=
  λ s,
  let '(now1, now2) := Env.stats_clock env name in
  let '(m, st) := manager_getStats (DREServer.rateLimiter s) name "default" now1 now2 in
  (DREServer.set_rateLimiter s m, inr (name, st)).

Definition handleGetMetrics (input : GetMetricsInput.t) (env : Env.t) : Call MetricsOutput :=
  metrics ← from_store (Env.metrics env);
  session ← currentSession;
  all ← (if GetMetricsInput.include_sessions input
         then x ← from_store (Env.all_sessions env); mret (Some x)
         else mret None);
  s1 ← limiterStats "log_thought" env;
  s2 ← limiterStats "get_thought_graph" env;
  s3 ← limiterStats "invalidate_assumption" env;
  s4 ← limiterStats "get_metrics" env;
  s5 ← limiterStats "query_thoughts" env;
  mret {| current_session := session;
          global_metrics := metrics;
          sessions := all;
          rate_limiting := [s1; s2; s3; s4; s5] |}.

Inductive ToolResult :=
  | LoggedThought (out : LogThoughtOutput)
  | GraphView (out : GraphOutput)
  | Invalidated (out : InvalidateOutput)
  | Metrics (out : MetricsOutput)
  | QueryResult (out : QueryOutput).

(** What the server takes from its libraries: the order of the locale and
    the five schemas. *)
Record Host := {
  host_localeCompare : string → string → Z;
  LogThoughtSchema : JsonValue → list ZodIssue + LogThoughtInput.t;
  GetGraphSchema : JsonValue → list ZodIssue + GetGraphInput.t;
  InvalidateSchema : JsonValue → list ZodIssue + InvalidateInput.t;
  GetMetricsSchema : JsonValue → list ZodIssue + GetMetricsInput.t;
  QueryThoughtsSchema : JsonValue → list ZodIssue + QueryThoughtsInput.t
}.

Section Dispatch.
Variable host : Host.

Definition queryThoughts (input : QueryThoughtsInput.t) : Call QueryOutput := λ s,
  (s, inr (handleQueryThoughts (host_localeCompare host) (DREServer.thoughts s) input)).

(** The handler of [CallToolRequestSchema], with its [catch].  A request
    runs to its answer before the next one is taken; the graph is changed
    before the first [await] of a handler, so that what is stored does not
    depend on what runs while a handler waits for the store. *)
Definition callTool (name : string) (args : JsonValue) (env : Env.t) : Call ToolResult :=
  if bool_decide (name = "log_thought") then
    checkRateLimit "log_thought" env;;
    input ← parse (LogThoughtSchema host) args;
    out ← logThought input env;
    saveThoughts env;;
    mret (LoggedThought out)
  else if bool_decide (name = "get_thought_graph") then
    checkRateLimit "get_thought_graph" env;;
    input ← parse (GetGraphSchema host) args;
    out ← getThoughtGraph input;
    mret (GraphView out)
  else if bool_decide (name = "invalidate_assumption") then
    checkRateLimit "invalidate_assumption" env;;
    input ← parse (InvalidateSchema host) args;
    out ← invalidateAssumption input env;
    saveThoughts env;;
    mret (Invalidated out)
  else if bool_decide (name = "get_metrics") then
    checkRateLimit "get_metrics" env;;
    input ← parse (GetMetricsSchema host) args;
    out ← handleGetMetrics input env;
    mret (Metrics out)
  else if bool_decide (name = "query_thoughts") then
    checkRateLimit "query_thoughts" env;;
    input ← parse (QueryThoughtsSchema host) args;
    out ← queryThoughts input;
    mret (QueryResult out)
  else throw (unknown_tool_error name).


Record Request := { req_name : string; req_args : JsonValue; req_env : Env.t }.

(** The server after a request, whatever the answer. *)
Definition serve1 (s : DREServer.t) (r : Request) : DREServer.t :=
  (callTool (req_name r) (req_args r) (req_env r) s).1.

(** Requests are taken one at a time. *)
Definition serve (s : DREServer.t) (rs : list Request) : DREServer.t := foldl serve1 s rs.

(** Every request drew an id that the graph did not hold. *)
Fixpoint fresh_requests (s : DREServer.t) (rs : list Request) : bool :=
  match rs with
  | [] => true
  | r :: rs' =>
      negb (graph_has (DREServer.thoughts s) (Env.new_id (req_env r)))
      && fresh_requests (serve1 s r) rs'
  end.
End Dispatch.

(** The names of the tools. *)
Definition tool_names : list string :=
  ["log_thought"; "get_thought_graph"; "invalidate_assumption"; "get_metrics";
   "query_thoughts"].

(** The capacity and the refill rate that the constructor gives each tool. *)
Definition tool_limits : list (string * (Q * Q)) :=
  [("log_thought", (50, 5)%Q); ("get_thought_graph", (15, 2)%Q);
   ("invalidate_assumption", (30, 3)%Q); ("get_metrics", (10, 1)%Q);
   ("query_thoughts", (20, 2)%Q)].

(** The manager holds the limiters of the five tools and no other, each
    with the capacity and the rate of its tool. *)
Definition configured (m : RateLimitManager.t) : Prop :=
  dom (RateLimitManager.limiters m) = list_to_set tool_names
  ∧ ∀ name cap rate, (name, (cap, rate)) ∈ tool_limits →
      ∃ b, RateLimitManager.limiters m !! name = Some b
           ∧ TokenBucketRateLimiter.maxTokens b = cap
           ∧ TokenBucketRateLimiter.refillRate b = rate
           ∧ TokenBucketRateLimiter.windowMs b = 60000%Q.

(** The capacity and the rate in the statistics of each limiter. *)
Definition reported_limits (out : MetricsOutput) : list (string * option (Q * Q)) :=
  map (λ p, (p.1, (λ st, (stats_maxTokens (stats_of_limiter st),
                          stats_refillRate (stats_of_limiter st))) <$> p.2))
      (rate_limiting out).

(** A step that leaves the graph alone and the limiters configured. *)
Definition keeps_graph (s s' : DREServer.t) : Prop :=
  DREServer.graph s' = DREServer.graph s
  ∧ (configured (DREServer.rateLimiter s) → configured (DREServer.rateLimiter s')).

(** A step that leaves the thoughts alone or changes them as one
    operation of a trace does, with the id that [env] supplies. *)
Definition graph_step (env : Env.t) (s s' : DREServer.t) : Prop :=
  ReasoningGraph.session_id (DREServer.graph s') = ReasoningGraph.session_id (DREServer.graph s)
  ∧ ReasoningGraph.created_at (DREServer.graph s') = ReasoningGraph.created_at (DREServer.graph s)
  ∧ (configured (DREServer.rateLimiter s) → configured (DREServer.rateLimiter s'))
  ∧ (DREServer.thoughts s' = DREServer.thoughts s
     ∨ ∃ op, op_new_id op = Env.new_id env
             ∧ DREServer.thoughts s' = exec (DREServer.thoughts s) op).

(** Schemas that refuse [null] and read every other value as a fixed
    input. *)
Definition sample_schema {A} (input : A) (args : JsonValue) : list ZodIssue + A :=
  match args with
  | JNull => inl [{| issue_path := ["thought"]; issue_message := "Required" |}]
  | _ => inr input
  end.

Definition sample_host : Host :=
  {| host_localeCompare := sample_localeCompare;
     LogThoughtSchema := sample_schema (log_plain "objective" objective []);
     GetGraphSchema := sample_schema {| GetGraphInput.format := format_summary |};
     InvalidateSchema := sample_schema invalidate_a;
     GetMetricsSchema := sample_schema {| GetMetricsInput.include_sessions := false |};
     QueryThoughtsSchema := sample_schema (query_all recent 10) |}.

(** A call at time [now] that draws the id [newId]; [failure] is the error
    of the store, if it fails. *)
Definition sample_env (now : Z) (newId : string) (failure : option string) : Env.t :=
  {| Env.limit_clock := (now, now, now);
     Env.new_id := newId;
     Env.now := now;
     Env.created := now;
     Env.save_error := failure;
     Env.metrics := inr JNull;
     Env.all_sessions := inr JNull;
     Env.stats_clock := λ _, (now, now) |}.

Definition new_server : DREServer.t := DREServer.new (λ _, 0%Z) "session" 0.




Definition sample_requests : list Request :=
  [{| req_name := "log_thought"; req_args := JObj []; req_env := sample_env 1 "O" None |};
   {| req_name := "log_thought"; req_args := JNull; req_env := sample_env 2 "P" None |};
   {| req_name := "no_such_tool"; req_args := JNull; req_env := sample_env 3 "Q" None |};
   {| req_name := "invalidate_assumption"; req_args := JObj [];
      req_env := sample_env 4 "R" (Some "Error: disk full") |}].

(** The server after the sample requests, and the answer to a call of
    [get_metrics] that follows them. *)
Definition served_server : DREServer.t :=
  serve sample_host (DREServer.new (λ _, 0%Z) "session" 0) sample_requests.

Definition sample_metrics : MetricsOutput :=
  Eval vm_compute in
  match (callTool sample_host "get_metrics" (JObj []) (sample_env 5 "M" None)
           served_server).2 with
  | inr (Metrics out) => out
  | _ => {| current_session :=
              {| CurrentSession.session_id := EmptyString; CurrentSession.created_at := 0;
                 CurrentSession.thoughts_in_memory := 0; CurrentSession.active_thoughts := 0;
                 CurrentSession.stale_thoughts := 0 |};
            global_metrics := JNull; sessions := None; rate_limiting := [] |}
  end.

Definition sample_graph : ReasoningGraph.t :=
  {| ReasoningGraph.thoughts := g_diamond;
     ReasoningGraph.session_id := "session";
     ReasoningGraph.created_at := 0 |}.

(** ** JavaScript numbers as IEEE 754 doubles

    The operations are those of the binary64 format as [SpecFloat] defines
    them, with rounding to the nearest double, ties to even. *)
Module Number.
Definition t : Type := spec_float.
Definition prec : Z := 53.
Definition emax : Z := 1024.

Definition add : t → t → t := SFadd prec emax.
Definition sub : t → t → t := SFsub prec emax.
Definition mul : t → t → t := SFmul prec emax.
Definition div : t → t → t := SFdiv prec emax.

(** The double nearest to an integer; the integers up to [2 ^ 53] in
    absolute value are doubles. *)
Definition of_Z (z : Z) : t := binary_normalize prec emax z 0 false.

(** [a >= b] and [a < b] *)
Definition ge (a b : t) : bool :=
  match SFcompare a b with
  | Some Gt | Some Eq => true
  | _ => false
  end.

Definition lt (a b : t) : bool := SFltb a b.

(** [Math.min(a, b)] *)
Definition min (a b : t) : t :=
  match a, b with
  | S754_nan, _ | _, S754_nan => S754_nan
  | S754_zero sa, S754_zero sb => S754_zero (sa || sb)
  | _, _ => if SFltb b a then b else a
  end.

(** The integer part of [m * 2 ^ e] for [e < 0], and whether it is all of
    it. *)
Definition integer_part (m : positive) (e : Z) : Z * bool :=
  let q := Z.shiftr (Zpos m) (- e) in
  (q, Z.eqb (Z.shiftl q (- e)) (Zpos m)).

(** [Math.floor] *)
Definition floor (x : t) : t :=
  match x with
  | S754_finite s m e =>
      if (0 <=? e)%Z then x
      else
        let '(q, exact) := integer_part m e in
        if s then of_Z (- (if exact then q else q + 1)) else of_Z q
  | _ => x
  end.

(** [Math.ceil] *)
Definition ceil (x : t) : t :=
  match x with
  | S754_finite s m e =>
      if (0 <=? e)%Z then x
      else
        let '(q, exact) := integer_part m e in
        if s then (if (q =? 0)%Z then S754_zero true else of_Z (- q))
        else of_Z (if exact then q else q + 1)
  | _ => x
  end.

(** [x || y] for two numbers: zero and [NaN] are falsy. *)
Definition or_else (x y : t) : t :=
  match x with
  | S754_zero _ | S754_nan => y
  | _ => x
  end.

(** Neither [NaN] nor an infinity. *)
Definition is_finite (x : t) : bool :=
  match x with
  | S754_zero _ | S754_finite _ _ _ => true
  | _ => false
  end.
End Number.

(** ** The token bucket in doubles

    The rate limiter once more, with every [number] a double and every
    operation rounded as the processor rounds it.  [toString] is the
    conversion of a number to a string in a template literal. *)
Module Binary64.
Module RateLimitConfig.
Record t := {
  maxTokens : Number.t;
  refillRate : Number.t;
  windowMs : option Number.t
}.
End RateLimitConfig.

Module TokenBucketRateLimiter.
Record t := {
  tokens : Number.t;
  lastRefill : Number.t;
  maxTokens : Number.t;
  refillRate : Number.t;
  requestCount : gmap string nat;
  windowMs : Number.t
}.

Record Result := {
  allowed : bool;
  retryAfter : option Number.t;
  remaining : Number.t
}.

(** The constructor; [now] is its reading of [Date.now()]. *)
Definition new (config : RateLimitConfig.t) (now : Z) : t :=
  {| maxTokens := RateLimitConfig.maxTokens config;
     refillRate := RateLimitConfig.refillRate config;
     windowMs := match RateLimitConfig.windowMs config with
                 | Some w => Number.or_else w (Number.of_Z 60000)
                 | None => Number.of_Z 60000
                 end;
     tokens := RateLimitConfig.maxTokens config;
     lastRefill := Number.of_Z now;
     requestCount := ∅ |}.

Definition refillTokens (b : t) (now : Z) : t :=
  let timePassed := Number.div (Number.sub (Number.of_Z now) (lastRefill b))
                               (Number.of_Z 1000) in
  let tokensToAdd := Number.mul timePassed (refillRate b) in
  {| tokens := Number.min (maxTokens b) (Number.add (tokens b) tokensToAdd);
     lastRefill := Number.of_Z now;
     maxTokens := maxTokens b;
     refillRate := refillRate b;
     requestCount := requestCount b;
     windowMs := windowMs b |}.

(** The test of the clean-up loop on one key of [requestCount]; [bound] is
    [Math.floor((now - this.windowMs) / this.windowMs)]. *)
Definition expired (bound : Number.t) (key : string) : bool :=
  match parseInt (split_on ":"%char key !! 1%nat) with
  | Some ts => Number.lt (Number.of_Z ts) bound
  | None => false
  end.

Section CheckLimit.
Variable toString : Number.t → string.

(** [now1] is read by [refillTokens], [now2] by [checkLimit] itself. *)
Definition checkLimit (b : t) (clientId : string) (cost : Number.t) (now1 now2 : Z)
  : t * Result :=
  let b := refillTokens b now1 in
  let now := Number.of_Z now2 in
  let windowKey :=
    clientId +:+ ":" +:+ toString (Number.floor (Number.div now (windowMs b))) in
  let bound := Number.floor (Number.div (Number.sub now (windowMs b)) (windowMs b)) in
  let counts :=
    filter (λ kv : string * nat, expired bound kv.1 = false) (requestCount b) in
  if Number.ge (tokens b) cost then
    let tokens' := Number.sub (tokens b) cost in
    let currentCount := default 0%nat (counts !! windowKey) in
    ({| tokens := tokens';
        lastRefill := lastRefill b;
        maxTokens := maxTokens b;
        refillRate := refillRate b;
        requestCount := <[windowKey := (currentCount + 1)%nat]> counts;
        windowMs := windowMs b |},
     {| allowed := true; retryAfter := None; remaining := Number.floor tokens' |})
  else
    ({| tokens := tokens b;
        lastRefill := lastRefill b;
        maxTokens := maxTokens b;
        refillRate := refillRate b;
        requestCount := counts;
        windowMs := windowMs b |},
     {| allowed := false;
        retryAfter :=
          Some (Number.ceil
                  (Number.mul (Number.div (Number.sub cost (tokens b)) (refillRate b))
                              (Number.of_Z 1000)));
        remaining := Number.floor (tokens b) |}).

End CheckLimit.
End TokenBucketRateLimiter.
End Binary64.


(** A number printed with the digits of its integer part; the model of the
    token count does not depend on how numbers are printed. *)
Definition sample_toString (x : Number.t) : string :=
  match x with
  | S754_finite s m e => (if s then "-" else EmptyString) +:+ pretty (Z.shiftl (Zpos m) e)
  | S754_zero _ => "0"
  | S754_infinity s => (if s then "-" else EmptyString) +:+ "Infinity"
  | S754_nan => "NaN"
  end.


(** * Properties *)

(** ** Lookups and in-place status changes *)

Lemma graph_get_elem g k t : graph_get g k = Some t → t ∈ g.
Proof.
  induction g as [|u g IH]; simpl; [done|].
  case_bool_decide.
  - intros [= ->]. left.
  - right; auto.
Qed.

Lemma graph_get_None g k : graph_get g k = None ↔ k ∉ map id g.
Proof.
  induction g as [|u g IH]; simpl.
  - split; [intros _; apply not_elem_of_nil | done].
  - case_bool_decide; rewrite not_elem_of_cons.
    + split; [done | intros [? _]; congruence].
    + rewrite IH. split; [intros ?; split; [congruence | done] | intros [_ ?]; done].
Qed.

Lemma graph_get_Some_ids g k : is_Some (graph_get g k) ↔ k ∈ map id g.
Proof.
  destruct (graph_get g k) eqn:E.
  - split; [intros _ | eauto].
    destruct (decide (k ∈ map id g)) as [|Hn]; [done|].
    apply graph_get_None in Hn. congruence.
  - split; [intros [? ?]; done|]. intros Hin. apply graph_get_None in E. done.
Qed.

Lemma active_stale_excl g k : active_in g k → stale_in g k → False.
Proof. intros (t & Ht & Ha) (t' & Ht' & Hs). congruence. Qed.

Lemma in_graph_cases g k t :
  graph_get g k = Some t → active_in g k ∨ stale_in g k.
Proof. intros H. destruct (status t) eqn:E; [left | right]; exists t; done. Qed.

Lemma evolves_refl g : evolves g g.
Proof. apply Forall2_same_length_lookup_2; [done|]. intros i x y ? ?; left; congruence. Qed.

Lemma evolves_trans g1 g2 g3 : evolves g1 g2 → evolves g2 g3 → evolves g1 g3.
Proof.
  unfold evolves. intros H12. revert g3.
  induction H12 as [|t t' g g' Ht _ IH]; intros g3 H23; inversion H23; subst; [constructor|].
  constructor; [|by apply IH].
  destruct Ht as [->| ->]; [done|].
  match goal with H : _ = mk_stale t ∨ _ = mk_stale (mk_stale t) |- _ => destruct H as [->| ->] end;
    right; done.
Qed.

Lemma evolves_get g g' k t :
  evolves g g' → graph_get g k = Some t →
  ∃ t', graph_get g' k = Some t' ∧ (t' = t ∨ t' = mk_stale t).
Proof.
  induction 1 as [|u u' g g' Hu _ IH]; simpl; [done|].
  assert (id u' = id u) as -> by (destruct Hu as [->| ->]; done).
  case_bool_decide; [|done]. intros [= ->]. eauto.
Qed.

Lemma evolves_get_None g g' k :
  evolves g g' → graph_get g k = None → graph_get g' k = None.
Proof.
  induction 1 as [|u u' g g' Hu _ IH]; simpl; [done|].
  assert (id u' = id u) as -> by (destruct Hu as [->| ->]; done).
  case_bool_decide; done.
Qed.

Lemma evolves_get_inv g g' k t' :
  evolves g g' → graph_get g' k = Some t' →
  ∃ t, graph_get g k = Some t ∧ (t' = t ∨ t' = mk_stale t).
Proof.
  intros He Hg. destruct (graph_get g k) as [t|] eqn:E.
  - destruct (evolves_get _ _ _ _ He E) as (t'' & Ht'' & Hor).
    exists t. split; [done|]. congruence.
  - rewrite (evolves_get_None _ _ _ He E) in Hg. done.
Qed.

Lemma evolves_ids g g' : evolves g g' → map id g' = map id g.
Proof.
  induction 1 as [|u u' g g' Hu _ IH]; simpl; [done|].
  rewrite IH. destruct Hu as [->| ->]; done.
Qed.

Lemma evolves_length g g' : evolves g g' → length g' = length g.
Proof. intros H. symmetry. eapply Forall2_length, H. Qed.

Lemma evolves_active_back g g' k : evolves g g' → active_in g' k → active_in g k.
Proof.
  intros He (t' & Hg & Hs).
  destruct (evolves_get_inv _ _ _ _ He Hg) as (t & Ht & [->| ->]); [by exists t | done].
Qed.

Lemma evolves_stale g g' k : evolves g g' → stale_in g k → stale_in g' k.
Proof.
  intros He (t & Hg & Hs).
  destruct (evolves_get _ _ _ _ He Hg) as (t' & Ht' & [->| ->]); eexists; eauto.
Qed.

Lemma evolves_depends g g' z y : evolves g g' → depends_in g' z y ↔ depends_in g z y.
Proof.
  intros He; split.
  - intros (t' & Hg & Hd).
    destruct (evolves_get_inv _ _ _ _ He Hg) as (t & Ht & [->| ->]); by exists t.
  - intros (t & Hg & Hd).
    destruct (evolves_get _ _ _ _ He Hg) as (t' & Ht' & [->| ->]); eexists; eauto.
Qed.

Lemma evolves_active_cases g g' k :
  evolves g g' → active_in g k → active_in g' k ∨ stale_in g' k.
Proof.
  intros He (t & Hg & Hs).
  destruct (evolves_get _ _ _ _ He Hg) as (t' & Ht' & _).
  eapply in_graph_cases, Ht'.
Qed.

Lemma evolves_count g g' : evolves g g' → (count_active g' ≤ count_active g)%nat.
Proof.
  unfold count_active.
  induction 1 as [|u u' g g' Hu _ IH]; simpl; [done|].
  destruct Hu as [->| ->].
  - destruct (is_active u); simpl; lia.
  - replace (is_active (mk_stale u)) with false by done.
    destruct (is_active u); simpl; lia.
Qed.

(** ** The first step of [markStale] *)

Lemma mark_entry_evolves k g : evolves g (mark_entry_stale k g).
Proof.
  induction g as [|u g IH]; simpl; [constructor|].
  case_bool_decide.
  - constructor; [by right | apply evolves_refl].
  - constructor; [by left | done].
Qed.

Lemma mark_entry_get k g : graph_get (mark_entry_stale k g) k = mk_stale <$> graph_get g k.
Proof.
  induction g as [|u g IH]; simpl; [done|].
  case_bool_decide as E; simpl.
  - rewrite bool_decide_true; done.
  - rewrite bool_decide_false; done.
Qed.

Lemma mark_entry_get_ne k j g : j ≠ k → graph_get (mark_entry_stale k g) j = graph_get g j.
Proof.
  intros Hne. induction g as [|u g IH]; simpl; [done|].
  case_bool_decide as E; simpl.
  - rewrite !bool_decide_false; congruence.
  - case_bool_decide; done.
Qed.

Lemma mark_entry_count k g :
  active_in g k → S (count_active (mark_entry_stale k g)) = count_active g.
Proof.
  unfold count_active. intros (t & Hg & Hs).
  induction g as [|u g IH]; simpl in *; [done|].
  case_bool_decide as E.
  - injection Hg as ->. replace (is_active (mk_stale t)) with false by done.
    unfold is_active. rewrite bool_decide_true; done.
  - simpl. destruct (is_active u); simpl; rewrite <- IH; done.
Qed.

Lemma count_active_le_length g : (count_active g ≤ length g)%nat.
Proof.
  unfold count_active. induction g as [|u g IH]; simpl; [done|].
  destruct (is_active u); simpl; lia.
Qed.

(** ** Reachability along active dependents *)

Lemma cascade_root_active g a y : cascade g a y → active_in g a.
Proof. induction 1; done. Qed.

Lemma cascade_active g a y : cascade g a y → active_in g y.
Proof. destruct 1; done. Qed.

Lemma cascade_mono g gs k y : evolves g gs → cascade gs k y → cascade g k y.
Proof.
  intros He. induction 1 as [Hk | y z _ IH Hd Hz].
  - apply cascade_root. eapply evolves_active_back; eauto.
  - eapply cascade_step; [exact IH | | ].
    + by apply (evolves_depends _ _ _ _ He).
    + eapply evolves_active_back; eauto.
Qed.

Lemma cascade_later g1 gs k y :
  evolves g1 gs → cascade_closed g1 gs → cascade g1 k y → cascade gs k y ∨ stale_in gs y.
Proof.
  intros He Hc. induction 1 as [Hk | y z Hy IH Hd Hz].
  - destruct (evolves_active_cases _ _ _ He Hk); [left; by apply cascade_root | by right].
  - destruct (evolves_active_cases _ _ _ He Hz) as [Hza | Hzs]; [|by right].
    destruct IH as [IH | IH].
    + left. eapply cascade_step; [exact IH | | done].
      by apply (evolves_depends _ _ _ _ He).
    + right. apply (Hc y z); [eapply cascade_active; eauto | done | done | done].
Qed.

Lemma cascade_of_stale g1 gs k y :
  evolves g1 gs → cascade_closed g1 gs → stale_in gs k → cascade g1 k y → stale_in gs y.
Proof.
  intros He Hc Hk Hy. destruct (cascade_later _ _ _ _ He Hc Hy) as [H|H]; [|done].
  destruct (active_stale_excl gs k); eauto using cascade_root_active.
Qed.

Lemma cascade_split g x y :
  active_in g x →
  cascade g x y ↔
  y = x ∨ ∃ k, depends_in (mark_entry_stale x g) k x ∧ cascade (mark_entry_stale x g) k y.
Proof.
  intros Hx. pose proof (mark_entry_evolves x g) as He.
  assert (Hact : ∀ z, z ≠ x → active_in g z → active_in (mark_entry_stale x g) z).
  { intros z Hne (t & Hg & Hs). exists t. by rewrite mark_entry_get_ne. }
  split.
  - induction 1 as [_ | y z _ IH Hd Hz]; [by left|].
    destruct (decide (z = x)) as [->|Hne]; [by left|].
    right. destruct IH as [-> | (k & Hk & Hc)].
    + exists z. split; [by apply (evolves_depends _ _ _ _ He) | apply cascade_root; auto].
    + exists k. split; [done|].
      eapply cascade_step; [exact Hc | by apply (evolves_depends _ _ _ _ He) | auto].
  - intros [-> | (k & Hk & Hc)]; [by apply cascade_root|].
    induction Hc as [Hka | y z _ IH Hd Hz].
    + eapply cascade_step; [by apply cascade_root | | ].
      * by apply (evolves_depends _ _ _ _ He).
      * eapply evolves_active_back; eauto.
    + eapply cascade_step; [exact IH | | ].
      * by apply (evolves_depends _ _ _ _ He).
      * eapply evolves_active_back; eauto.
Qed.

(** ** The loop of [markStale] *)

Section LoopSpec.
Variable rec : ThoughtMap → string → option (ThoughtMap * list string).
Variable bound : nat.
Hypothesis rec_spec : ∀ gs k,
  (count_active gs < bound)%nat → active_in gs k →
  ∃ g' l, rec gs k = Some (g', l) ∧ marks gs k g' l.

Variable g1 : ThoughtMap.
Variable x : string.
Hypothesis g1_bound : (count_active g1 < bound)%nat.

Lemma markStale_loop_spec keys : ∀ gs acc,
  evolves g1 gs → cascade_closed g1 gs →
  ∃ g' l',
    markStale_loop rec x keys gs acc = Some (g', acc ++ l') ∧
    evolves gs g' ∧ cascade_closed g1 g' ∧ NoDup l' ∧
    (∀ y, y ∈ l' ↔ active_in gs y ∧ stale_in g' y) ∧
    (∀ y, stale_in g' y ↔
          stale_in gs y ∨ ∃ k, k ∈ keys ∧ depends_in g1 k x ∧ cascade g1 k y).
Proof.
  induction keys as [|k keys IH]; intros gs acc He Hc.
  - exists gs, []. rewrite app_nil_r. simpl.
    split_and!; [done | apply evolves_refl | done | constructor | | ].
    + intros y. split; [by intros ?%elem_of_nil|].
      intros [? ?]. destruct (active_stale_excl gs y); done.
    + intros y. split; [by left|]. intros [?|(k & ?%elem_of_nil & _)]; done.
  - assert (Hskip : (∀ y, depends_in g1 k x → cascade g1 k y → stale_in gs y) →
      ∃ g' l',
        markStale_loop rec x keys gs acc = Some (g', acc ++ l') ∧
        evolves gs g' ∧ cascade_closed g1 g' ∧ NoDup l' ∧
        (∀ y, y ∈ l' ↔ active_in gs y ∧ stale_in g' y) ∧
        (∀ y, stale_in g' y ↔
           stale_in gs y ∨ ∃ k', k' ∈ k :: keys ∧ depends_in g1 k' x ∧ cascade g1 k' y)).
    { intros Hk. destruct (IH gs acc He Hc) as (g' & l' & Hrun & He' & Hc' & Hnd & Hl & Hst).
      exists g', l'. split_and!; try done.
      intros y. rewrite Hst. split.
      - intros [?|(k' & Hin & ?)]; [by left|]. right. exists k'. split; [by right | done].
      - intros [?|(k' & Hin & Hd & Hcas)]; [by left|].
        apply elem_of_cons in Hin as [->|Hin]; [left; auto | right; eauto]. }
    simpl. destruct (graph_get gs k) as [t|] eqn:Hget.
    2:{ apply Hskip. intros y Hd _. apply (evolves_depends _ _ _ _ He) in Hd.
        destruct Hd as (t & Ht & _). congruence. }
    destruct (includes (dependencies t) x && is_active t) eqn:Hcond.
    2:{ apply Hskip. intros y Hd Hcas.
        eapply cascade_of_stale; [done | done | | exact Hcas].
        apply (evolves_depends _ _ _ _ He) in Hd. destruct Hd as (t' & Ht' & Hin).
        assert (t' = t) as -> by congruence.
        apply andb_false_iff in Hcond as [Hcond | Hcond].
        - unfold includes in Hcond. by apply bool_decide_eq_false in Hcond.
        - unfold is_active in Hcond. apply bool_decide_eq_false in Hcond.
          exists t. split; [done|]. by destruct (status t). }
    apply andb_true_iff in Hcond as [Hinc Hact].
    unfold includes in Hinc. apply bool_decide_eq_true in Hinc.
    unfold is_active in Hact. apply bool_decide_eq_true in Hact.
    assert (Hka : active_in gs k) by (by exists t).
    assert (Hkd : depends_in g1 k x).
    { apply (evolves_depends _ _ _ _ He). by exists t. }
    destruct (rec_spec gs k) as (gs' & lk & Hrec & Hev & Hstk & Hndk & Hlk); [|done|].
    { pose proof (evolves_count _ _ He). lia. }
    rewrite Hrec.
    assert (He1 : evolves g1 gs') by (eapply evolves_trans; eauto).
    assert (Hc1 : cascade_closed g1 gs').
    { intros y z Hy Hys Hd Hz. apply Hstk in Hys as [Hys | Hys].
      - apply (evolves_stale _ _ _ Hev). by apply (Hc y z).
      - destruct (evolves_active_cases _ _ _ He Hz) as [Hza | Hzs].
        + apply Hstk. right. eapply cascade_step; [exact Hys | | done].
          by apply (evolves_depends _ _ _ _ He).
        + by apply (evolves_stale _ _ _ Hev). }
    destruct (IH gs' (acc ++ lk) He1 Hc1) as (g' & l' & Hrun & He' & Hc' & Hnd & Hl & Hst).
    exists g', (lk ++ l'). rewrite app_assoc. split_and!; try done.
    + eapply evolves_trans; eauto.
    + apply NoDup_app. split_and!; [done | | done].
      intros y Hy1 Hy2. apply Hlk in Hy1 as [_ Hy1]. apply Hl in Hy2 as [Hy2 _].
      eapply active_stale_excl; eauto.
    + intros y. rewrite elem_of_app, Hlk, Hl. split.
      * intros [[? ?] | [? ?]]; split; try done.
        -- by apply (evolves_stale _ _ _ He').
        -- eapply evolves_active_back; eauto.
      * intros [Hya Hys].
        destruct (evolves_active_cases _ _ _ Hev Hya); [right | left]; done.
    + intros y. rewrite Hst, Hstk. split.
      * intros [[?|Hcas] | (k' & Hin & ?)]; [by left | | ].
        -- right. exists k. split_and!; [left | done | exact (cascade_mono _ _ _ _ He Hcas)].
        -- right. exists k'. split; [by right | done].
      * intros [?|(k' & Hin & Hd & Hcas)]; [by left; left|].
        apply elem_of_cons in Hin as [->|Hin]; [|right; eauto].
        left. destruct (cascade_later _ _ _ _ He Hc Hcas); [by right | by left].
Qed.
End LoopSpec.

(** ** [markStale] *)

Lemma markStale_fuel_spec fuel : ∀ g x,
  (count_active g < fuel)%nat → active_in g x →
  ∃ g' l, markStale_fuel fuel g x = Some (g', x :: l) ∧ marks g x g' (x :: l).
Proof.
  induction fuel as [|fuel IH]; intros g x Hfuel Hx; [lia|].
  assert (IH' : ∀ gs k, (count_active gs < fuel)%nat → active_in gs k →
                 ∃ g' l, markStale_fuel fuel gs k = Some (g', l) ∧ marks gs k g' l).
  { intros gs k ? ?. destruct (IH gs k) as (g' & l & ? & ?); eauto. }
  pose proof Hx as (t & Hget & Hst).
  simpl. rewrite Hget. unfold is_active. rewrite bool_decide_true by done.
  set (g1 := mark_entry_stale x g).
  pose proof (mark_entry_evolves x g) as He. fold g1 in He.
  assert (Hb : (count_active g1 < fuel)%nat).
  { pose proof (mark_entry_count x g Hx). fold g1 in H. lia. }
  assert (Hxs : stale_in g1 x).
  { exists (mk_stale t). unfold g1. rewrite mark_entry_get, Hget. done. }
  assert (Hc0 : cascade_closed g1 g1).
  { intros y z Hy Hys. destruct (active_stale_excl g1 y); done. }
  destruct (markStale_loop_spec _ fuel IH' g1 x Hb (map id g1) g1 [x] (evolves_refl _) Hc0)
    as (g' & l' & Hrun & He' & _ & Hnd & Hl & Hstale).
  exists g', l'. split; [exact Hrun|].
  assert (Hstale' : ∀ y, stale_in g' y ↔ stale_in g y ∨ cascade g x y).
  { intros y. rewrite Hstale, (cascade_split g x y Hx). fold g1. split.
    - intros [Hy | (k & _ & Hd & Hcas)]; [|right; right; eauto].
      destruct (decide (y = x)) as [->|Hne]; [right; by left|].
      left. destruct Hy as (u & Hu & Hus). exists u. split; [|done].
      unfold g1 in Hu. by rewrite mark_entry_get_ne in Hu.
    - intros [Hy | [-> | (k & Hd & Hcas)]].
      + left. by apply (evolves_stale _ _ _ He).
      + by left.
      + right. exists k. split_and!; [|done|done].
        destruct Hd as (u & Hu & _). apply graph_get_Some_ids. eauto. }
  split_and!; [eapply evolves_trans; eauto | done | | ].
  - constructor; [|done]. intros Hin. apply Hl in Hin as [Hin _].
    eapply active_stale_excl; eauto.
  - intros y. rewrite elem_of_cons, Hl. split.
    + intros [-> | [Hya Hys]].
      * split; [done|]. by apply (evolves_stale _ _ _ He').
      * split; [eapply evolves_active_back; eauto | done].
    + intros [Hya Hys]. destruct (decide (y = x)) as [|Hne]; [by left|]. right.
      split; [|done]. destruct Hya as (u & Hu & Hus). exists u. split; [|done].
      unfold g1. by rewrite mark_entry_get_ne.
Qed.

Lemma markStale_fuel_inactive fuel g x :
  ¬ active_in g x → markStale_fuel (S fuel) g x = Some (g, []).
Proof.
  intros Hn. simpl. destruct (graph_get g x) as [t|] eqn:Hget; [|done].
  unfold is_active. case_bool_decide; [|done]. destruct Hn. by exists t.
Qed.

Lemma markStale_loop_mono rec rec' x :
  (∀ g k r, rec g k = Some r → rec' g k = Some r) →
  ∀ keys g acc r,
    markStale_loop rec x keys g acc = Some r → markStale_loop rec' x keys g acc = Some r.
Proof.
  intros Hrec. induction keys as [|k keys IH]; intros g acc r; simpl; [done|].
  destruct (graph_get g k) as [t|]; [|apply IH].
  destruct (includes (dependencies t) x && is_active t); [|apply IH].
  destruct (rec g k) as [[g' l]|] eqn:E; [|done].
  rewrite (Hrec _ _ _ E). apply IH.
Qed.

Lemma markStale_fuel_mono fuel : ∀ fuel' g x r,
  (fuel ≤ fuel')%nat → markStale_fuel fuel g x = Some r → markStale_fuel fuel' g x = Some r.
Proof.
  induction fuel as [|fuel IH]; intros fuel' g x r Hle; [done|].
  destruct fuel' as [|fuel']; [lia|]. simpl.
  destruct (graph_get g x) as [t|]; [|done].
  destruct (is_active t); [|done].
  apply markStale_loop_mono. intros gs k r'. apply IH. lia.
Qed.

(** The recursion never runs out of fuel once it is given more than the
    number of active thoughts, and its result is then that of [markStale]. *)
Lemma markStale_fuel_enough fuel g x :
  (count_active g < fuel)%nat → markStale_fuel fuel g x = Some (markStale g x).
Proof.
  intros Hfuel.
  assert (Hsome : ∀ n, (count_active g < n)%nat → is_Some (markStale_fuel n g x)).
  { intros n Hn. destruct (graph_get g x) as [t|] eqn:Hget.
    - destruct (status t) eqn:Hs.
      + destruct (markStale_fuel_spec n g x Hn) as (g' & l & -> & _); [by exists t | eauto].
      + destruct n as [|n]; [lia|]. rewrite markStale_fuel_inactive; [eauto|].
        intros (t' & Ht' & Hs'). congruence.
    - destruct n as [|n]; [lia|]. rewrite markStale_fuel_inactive; [eauto|].
      intros (t' & Ht' & _). congruence. }
  pose proof (count_active_le_length g) as Hlen.
  destruct (Hsome fuel Hfuel) as [r Hr].
  assert (Hlt : (count_active g < S (length g))%nat) by lia.
  destruct (Hsome (S (length g)) Hlt) as [r' Hr'].
  unfold markStale. rewrite Hr', Hr. f_equal.
  destruct (decide (fuel ≤ S (length g))%nat) as [Hle|Hgt].
  - pose proof (markStale_fuel_mono _ _ _ _ _ Hle Hr). congruence.
  - assert (Hle : (S (length g) ≤ fuel)%nat) by lia.
    pose proof (markStale_fuel_mono _ _ _ _ _ Hle Hr'). congruence.
Qed.

Lemma markStale_active g x :
  active_in g x → ∃ g' l, markStale g x = (g', x :: l) ∧ marks g x g' (x :: l).
Proof.
  intros Hx. pose proof (count_active_le_length g) as Hlen.
  assert (Hlt : (count_active g < S (length g))%nat) by lia.
  destruct (markStale_fuel_spec (S (length g)) g x Hlt Hx) as (g' & l & Hrun & Hm).
  exists g', l. split; [|done]. unfold markStale. by rewrite Hrun.
Qed.

Lemma markStale_inactive g x : ¬ active_in g x → markStale g x = (g, []).
Proof. intros Hx. unfold markStale. by rewrite markStale_fuel_inactive. Qed.

(** ** [Map.prototype.set] *)

Lemma graph_has_true g k : graph_has g k = true ↔ is_Some (graph_get g k).
Proof.
  unfold graph_has. destruct (graph_get g k); split; try done; by eauto.
Qed.

Lemma graph_has_false g k : graph_has g k = false ↔ graph_get g k = None.
Proof. unfold graph_has. destruct (graph_get g k); split; done. Qed.

Lemma graph_set_fresh g t : graph_has g (id t) = false → graph_set g t = g ++ [t].
Proof.
  rewrite graph_has_false. induction g as [|u g IH]; simpl; [done|].
  case_bool_decide; [done|]. intros H'. by rewrite IH.
Qed.

Lemma graph_get_app g h k :
  graph_get (g ++ h) k = match graph_get g k with Some t => Some t | None => graph_get h k end.
Proof.
  induction g as [|u g IH]; simpl; [done|]. case_bool_decide; done.
Qed.

(** ** Invalidation *)

(** The answer of a successful invalidation, in terms of [markStale]. *)
Lemma handleInvalidateAssumption_ok g input th newId now :
  graph_get g (InvalidateInput.thought_id input) = Some th →
  thought_type th = assumption →
  handleInvalidateAssumption g input newId now =
    (graph_set (markStale g (InvalidateInput.thought_id input)).1
               (critique_of th input newId now),
     inr {| invalidated_thoughts := (markStale g (InvalidateInput.thought_id input)).2;
            critique_id := newId |}).
Proof.
  intros Hget Hty. unfold handleInvalidateAssumption. rewrite Hget.
  rewrite bool_decide_false by (intros Hne; done).
  by destruct (markStale g (InvalidateInput.thought_id input)).
Qed.

(** C1, as the code has it: invalidating an assumption that is already
    stale turns no thought stale and returns an empty list of invalidated
    ids, but it still stores one new critique of the assumption; the
    critique goes last when its id is new. *)
Theorem invalidate_stale_assumption g input th newId now :
  graph_get g (InvalidateInput.thought_id input) = Some th →
  thought_type th = assumption →
  status th = stale →
  handleInvalidateAssumption g input newId now =
    (graph_set g (critique_of th input newId now),
     inr {| invalidated_thoughts := []; critique_id := newId |})
  ∧ (graph_has g newId = false →
     graph_set g (critique_of th input newId now) = g ++ [critique_of th input newId now]).
Proof.
  intros Hget Hty Hst. split.
  - rewrite (handleInvalidateAssumption_ok _ _ _ _ _ Hget Hty).
    rewrite markStale_inactive; [done|].
    intros (t' & Ht' & Hs'). congruence.
  - intros Hfresh. by apply graph_set_fresh.
Qed.

Lemma invalidate_stale_assumption_witness :
  handleInvalidateAssumption g_stale invalidate_a "c" 1 =
    (graph_set g_stale (critique_of stale_a invalidate_a "c" 1),
     inr {| invalidated_thoughts := []; critique_id := "c" |})
  ∧ (graph_has g_stale "c" = false →
     graph_set g_stale (critique_of stale_a invalidate_a "c" 1)
     = g_stale ++ [critique_of stale_a invalidate_a "c" 1]).
Proof.
  apply (invalidate_stale_assumption g_stale invalidate_a stale_a "c" 1); reflexivity.
Defined.

(** C1 as stated fails: invalidating the stale assumption of [g_stale] is
    not a no-op, the graph gains a critique. *)
Lemma invalidate_stale_assumption_not_noop :
  (handleInvalidateAssumption g_stale invalidate_a "c" 1).1 ≠ g_stale
  ∧ length (handleInvalidateAssumption g_stale invalidate_a "c" 1).1 = 2%nat
  ∧ ∃ t, graph_get (handleInvalidateAssumption g_stale invalidate_a "c" 1).1 "c" = Some t
         ∧ thought_type t = critique ∧ status t = active.
Proof.
  split_and!.
  - intros H. apply (f_equal length) in H. vm_compute in H. discriminate.
  - reflexivity.
  - eexists. split_and!; reflexivity.
Qed.

(** The session of the test client: invalidating the assumption reports
    the assumption and then the sub-problem, stores one critique that
    depends on the assumption alone, and leaves two stale thoughts. *)
Example scenario_invalidate :
  let out := handleInvalidateAssumption (run [] scenario_trace) invalidate_A "C" 5 in
  out.2 = inr {| invalidated_thoughts := ["A"; "S"]; critique_id := "C" |}
  ∧ length out.1 = 5%nat
  ∧ dependencies <$> graph_get out.1 "C" = Some ["A"]
  ∧ length (List.filter (λ t, bool_decide (status t = stale)) out.1) = 2%nat.
Proof. split_and!; reflexivity. Qed.

(** C2: invalidating an active assumption [a] turns stale exactly the
    thoughts that rest on [a] through active thoughts: [a] itself and,
    transitively, every active thought that lists such a thought among its
    dependencies.  No other entry changes, and the returned list holds each
    of those ids once, [a] first.  The critique is then stored, last when
    its id is new. *)
Theorem invalidate_cascade_closure g input th newId now :
  let a := InvalidateInput.thought_id input in
  graph_get g a = Some th →
  thought_type th = assumption →
  status th = active →
  ∃ g' l,
    handleInvalidateAssumption g input newId now =
      (graph_set g' (critique_of th input newId now),
       inr {| invalidated_thoughts := a :: l; critique_id := newId |})
    ∧ evolves g g'
    ∧ (∀ y, stale_in g' y ↔ stale_in g y ∨ cascade g a y)
    ∧ NoDup (a :: l)
    ∧ (∀ y, y ∈ a :: l ↔ cascade g a y)
    ∧ (graph_has g newId = false →
       graph_set g' (critique_of th input newId now) = g' ++ [critique_of th input newId now]).
Proof.
  intros a Hget Hty Hst.
  assert (Ha : active_in g a) by (by exists th).
  destruct (markStale_active g a Ha) as (g' & l & Hrun & He & Hstale & Hnd & Hl).
  exists g', l. split_and!; try done.
  - rewrite (handleInvalidateAssumption_ok _ _ _ _ _ Hget Hty). fold a. by rewrite Hrun.
  - intros y. rewrite Hl, Hstale. split.
    + intros [Hya [Hys | Hc]]; [|done]. destruct (active_stale_excl g y); done.
    + intros Hc. split; [eapply cascade_active; eauto | by right].
  - intros Hfresh. apply graph_set_fresh. simpl.
    apply graph_has_false. apply graph_has_false in Hfresh.
    by apply (evolves_get_None _ _ _ He).
Qed.

Lemma invalidate_cascade_closure_witness :
  ∃ g' l,
    handleInvalidateAssumption g_diamond invalidate_a "c" 1 =
      (graph_set g' (critique_of active_a invalidate_a "c" 1),
       inr {| invalidated_thoughts := "a" :: l; critique_id := "c" |})
    ∧ evolves g_diamond g'
    ∧ (∀ y, stale_in g' y ↔ stale_in g_diamond y ∨ cascade g_diamond "a" y)
    ∧ NoDup ("a" :: l)
    ∧ (∀ y, y ∈ "a" :: l ↔ cascade g_diamond "a" y)
    ∧ (graph_has g_diamond "c" = false →
       graph_set g' (critique_of active_a invalidate_a "c" 1)
       = g' ++ [critique_of active_a invalidate_a "c" 1]).
Proof.
  apply (invalidate_cascade_closure g_diamond invalidate_a active_a "c" 1); reflexivity.
Defined.

(** ** One operation *)

Lemma first_missing_None g deps :
  first_missing g deps = None ↔ ∀ d, d ∈ deps → graph_has g d = true.
Proof.
  induction deps as [|d deps IH]; simpl.
  - split; [intros _ d ?%elem_of_nil; done | done].
  - destruct (graph_has g d) eqn:E.
    + rewrite IH. split.
      * intros H d' [->|?]%elem_of_cons; auto.
      * intros H d' ?. apply H. by right.
    + split; [done|]. intros H. rewrite H in E; [done | left].
Qed.

Lemma first_missing_Some g deps d :
  first_missing g deps = Some d → d ∈ deps ∧ graph_has g d = false.
Proof.
  induction deps as [|d' deps IH]; simpl; [done|].
  destruct (graph_has g d') eqn:E.
  - intros H. destruct (IH H). split; [by right | done].
  - intros [= ->]. split; [left | done].
Qed.

Lemma validateDependencies_ok g deps now :
  validateDependencies g deps now = inr tt → ∀ d, d ∈ deps → d ∈ map id g.
Proof.
  unfold validateDependencies. destruct (first_missing g deps) eqn:E; [done|].
  intros _ d Hd. apply graph_get_Some_ids, graph_has_true.
  by apply (proj1 (first_missing_None g deps) E).
Qed.

Lemma markStale_marks g x : ∃ g' l, markStale g x = (g', l) ∧ marks g x g' l.
Proof.
  destruct (graph_get g x) as [t|] eqn:Hget.
  - destruct (status t) eqn:Hs.
    + destruct (markStale_active g x) as (g' & l & ? & ?); [by exists t | eauto].
    + exists g, []. assert (Hn : ¬ active_in g x) by (intros (t' & ? & ?); congruence).
      split; [by apply markStale_inactive|].
      split_and!; [apply evolves_refl | | constructor | ].
      * intros y. split; [by left|]. intros [?|Hc]; [done|].
        destruct Hn. eapply cascade_root_active; eauto.
      * intros y. split; [by intros ?%elem_of_nil|].
        intros [? ?]. destruct (active_stale_excl g y); done.
  - exists g, []. assert (Hn : ¬ active_in g x) by (intros (t' & ? & ?); congruence).
    split; [by apply markStale_inactive|].
    split_and!; [apply evolves_refl | | constructor | ].
    + intros y. split; [by left|]. intros [?|Hc]; [done|].
      destruct Hn. eapply cascade_root_active; eauto.
    + intros y. split; [by intros ?%elem_of_nil|].
      intros [? ?]. destruct (active_stale_excl g y); done.
Qed.

(** What an operation that received a new id leaves behind: the graph it
    found, or that graph with one more thought, or the graph after the
    cascade with one more critique. *)
Lemma exec_cases g op :
  graph_has g (op_new_id op) = false →
  exec g op = g
  ∨ (∃ input now newId created,
       op = OpLog input now newId created
       ∧ (∀ d, d ∈ LogThoughtInput.dependencies input → d ∈ map id g)
       ∧ exec g op = g ++ [logged input newId created])
  ∨ (∃ input newId now th g' l,
       op = OpInvalidate input newId now
       ∧ graph_get g (InvalidateInput.thought_id input) = Some th
       ∧ thought_type th = assumption
       ∧ marks g (InvalidateInput.thought_id input) g' l
       ∧ exec g op = g' ++ [critique_of th input newId now]).
Proof.
  destruct op as [input now newId created | input newId now]; simpl; intros Hfresh.
  - unfold handleLogThought.
    destruct (validateDependencies g (LogThoughtInput.dependencies input) now) as [e|[]] eqn:Hv;
      [by left|].
    right; left. exists input, now, newId, created. split_and!; [done | | ].
    + by apply (validateDependencies_ok _ _ _ Hv).
    + simpl. by apply (graph_set_fresh g (logged input newId created)).
  - unfold handleInvalidateAssumption.
    destruct (graph_get g (InvalidateInput.thought_id input)) as [th|] eqn:Hget; [|by left].
    case_bool_decide as Hty; [by left|].
    assert (thought_type th = assumption) as Hty'.
    { destruct (decide (thought_type th = assumption)); [done|]. by destruct Hty. }
    destruct (markStale_marks g (InvalidateInput.thought_id input)) as (g' & l & Hrun & Hm).
    rewrite Hrun. simpl. right; right.
    exists input, newId, now, th, g', l. split_and!; try done.
    apply (graph_set_fresh g' (critique_of th input newId now)). simpl.
    apply graph_has_false. apply graph_has_false in Hfresh.
    destruct Hm as (He & _). by apply (evolves_get_None _ _ _ He).
Qed.

Lemma run_cons g op ops : run g (op :: ops) = run (exec g op) ops.
Proof. reflexivity. Qed.

(** A property kept by every operation that receives a new id holds along
    every trace. *)
Lemma run_invariant (P : ThoughtMap → Prop) :
  (∀ g op, P g → graph_has g (op_new_id op) = false → P (exec g op)) →
  ∀ ops g, P g → fresh_ids g ops = true → P (run g ops).
Proof.
  intros Hstep. induction ops as [|op ops IH]; intros g Hg Hfresh; [done|].
  simpl in Hfresh. apply andb_true_iff in Hfresh as [Hnew Hrest].
  apply negb_true_iff in Hnew. rewrite run_cons. apply IH; auto.
Qed.

(** ** Monotonicity of the status *)

Lemma grows_refl g : grows g g.
Proof. intros k t Hk. exists t. auto. Qed.

Lemma grows_trans g1 g2 g3 : grows g1 g2 → grows g2 g3 → grows g1 g3.
Proof.
  intros H12 H23 k t Hk.
  destruct (H12 _ _ Hk) as (t2 & Hk2 & Ht2).
  destruct (H23 _ _ Hk2) as (t3 & Hk3 & Ht3).
  exists t3. split; [done|].
  destruct Ht2 as [->| ->]; destruct Ht3 as [->| ->]; auto.
Qed.

Lemma grows_evolves_app g g' new : evolves g g' → grows g (g' ++ new).
Proof.
  intros He k t Hk. destruct (evolves_get _ _ _ _ He Hk) as (t' & Hk' & Ht').
  exists t'. split; [|done]. by rewrite graph_get_app, Hk'.
Qed.

Lemma grows_stale g h k : grows g h → stale_in g k → stale_in h k.
Proof.
  intros Hg (t & Hk & Hs). destruct (Hg _ _ Hk) as (t' & Hk' & [->| ->]); eexists; eauto.
Qed.

Lemma exec_grows g op : graph_has g (op_new_id op) = false → grows g (exec g op).
Proof.
  intros Hfresh.
  destruct (exec_cases g op Hfresh)
    as [-> | [(input & now & newId & created & _ & _ & ->)
           | (input & newId & now & th & g' & l & _ & _ & _ & (He & _) & ->)]].
  - apply grows_refl.
  - apply grows_evolves_app, evolves_refl.
  - by apply grows_evolves_app.
Qed.

Lemma exec_new_active g op k t' :
  graph_has g (op_new_id op) = false →
  graph_get g k = None → graph_get (exec g op) k = Some t' → status t' = active.
Proof.
  intros Hfresh Hk.
  destruct (exec_cases g op Hfresh)
    as [-> | [(input & now & newId & created & _ & _ & ->)
           | (input & newId & now & th & g' & l & _ & _ & _ & (He & _) & ->)]].
  - congruence.
  - rewrite graph_get_app, Hk. simpl. case_bool_decide; [|done]. by intros [= <-].
  - rewrite graph_get_app, (evolves_get_None _ _ _ He Hk). simpl.
    case_bool_decide; [|done]. by intros [= <-].
Qed.

(** C6: along every trace whose operations receive new ids, a thought
    that an operation adds is active when the operation returns, a stored
    thought stays stored and changes at most by turning stale, and a stale
    thought stays stale. *)
Theorem stale_is_terminal g op ops :
  fresh_ids g (op :: ops) = true →
  (∀ k t', graph_get g k = None → graph_get (exec g op) k = Some t' → status t' = active)
  ∧ (∀ k t, graph_get g k = Some t →
       ∃ t', graph_get (run g (op :: ops)) k = Some t' ∧ (t' = t ∨ t' = mk_stale t))
  ∧ (∀ k, stale_in g k → stale_in (run g (op :: ops)) k).
Proof.
  intros Hfresh.
  assert (Hg : grows g (run g (op :: ops))).
  { apply (run_invariant (grows g)); [|apply grows_refl|done].
    intros h o Hh Hnew. eapply grows_trans; [exact Hh | by apply exec_grows]. }
  split_and!.
  - simpl in Hfresh. apply andb_true_iff in Hfresh as [Hnew _].
    apply negb_true_iff in Hnew. intros k t'. by apply exec_new_active.
  - exact Hg.
  - intros k. by apply grows_stale.
Qed.

Lemma stale_is_terminal_witness :
  fresh_ids g_diamond sample_trace = true
  ∧ (∀ k t', graph_get g_diamond k = None →
       graph_get (exec g_diamond (OpInvalidate invalidate_a "c" 1)) k = Some t' →
       status t' = active)
  ∧ (∀ k t, graph_get g_diamond k = Some t →
       ∃ t', graph_get (run g_diamond sample_trace) k = Some t' ∧ (t' = t ∨ t' = mk_stale t))
  ∧ (∀ k, stale_in g_diamond k → stale_in (run g_diamond sample_trace) k).
Proof.
  split; [reflexivity|].
  apply (stale_is_terminal g_diamond (OpInvalidate invalidate_a "c" 1)
           [OpLog log_evidence 7 "e" 8; OpInvalidate invalidate_a "d" 9]).
  reflexivity.
Defined.

(** ** Critiques *)

(** C4 as stated fails: a critique that the client logged with the
    assumption [a] as a dependency is active before [a] is invalidated and
    stale afterwards. *)
Lemma logged_critique_is_staled :
  fresh_ids [] (logged_critique_trace ++ [OpInvalidate invalidate_a "c" 3]) = true
  ∧ (∃ t, graph_get (run [] logged_critique_trace) "k" = Some t
          ∧ thought_type t = critique ∧ status t = active)
  ∧ (∃ t, graph_get (exec (run [] logged_critique_trace) (OpInvalidate invalidate_a "c" 3)) "k"
          = Some t
          ∧ thought_type t = critique ∧ status t = stale).
Proof.
  split_and!.
  - reflexivity.
  - eexists. split_and!; reflexivity.
  - eexists. split_and!; reflexivity.
Qed.


Lemma critique_kept_step c a h op :
  thought_type c = critique → status c = active → dependencies c = [a] →
  critique_kept c a h → graph_has h (op_new_id op) = false →
  critique_kept c a (exec h op).
Proof.
  intros Hty Hst Hdeps [Hc Ha] Hfresh.
  pose proof (exec_grows h op Hfresh) as Hg.
  split; [|by apply (grows_stale _ _ _ Hg)].
  destruct (exec_cases h op Hfresh)
    as [-> | [(input & now & newId & created & _ & _ & ->)
           | (input & newId & now & th & g' & l & _ & Hx & Hxty & (He & Hstale & _) & ->)]].
  - done.
  - by rewrite graph_get_app, Hc.
  - destruct (evolves_get _ _ _ _ He Hc) as (c' & Hc' & [->| ->]);
      [by rewrite graph_get_app, Hc'|].
    exfalso.
    assert (Hcs : stale_in g' (id c)) by (by exists (mk_stale c)).
    apply Hstale in Hcs as [(c0 & Hc0 & Hs0) | Hcas]; [congruence|].
    inversion Hcas as [Hroot | y z Hy Hd Hz Heq].
    + congruence.
    + destruct Hd as (c1 & Hc1 & Hin). assert (c1 = c) as -> by congruence.
      rewrite Hdeps in Hin. apply list_elem_of_singleton in Hin as ->.
      eapply active_stale_excl; [eapply cascade_active; exact Hy | exact Ha].
Qed.

(** C4, as the code has it: the critique that an invalidation appends
    under a new id is never turned stale: after every later trace whose
    operations receive new ids, it is stored exactly as it was appended. *)
Theorem appended_critique_stays_active g input th newId now ops :
  graph_get g (InvalidateInput.thought_id input) = Some th →
  thought_type th = assumption →
  graph_has g newId = false →
  fresh_ids (handleInvalidateAssumption g input newId now).1 ops = true →
  graph_get (run (handleInvalidateAssumption g input newId now).1 ops) newId
  = Some (critique_of th input newId now).
Proof.
  intros Hget Hty Hfresh Hops.
  set (c := critique_of th input newId now).
  set (a := InvalidateInput.thought_id input).
  assert (Hstart : critique_kept c a (handleInvalidateAssumption g input newId now).1).
  { destruct (exec_cases g (OpInvalidate input newId now) Hfresh)
      as [Heq | [(? & ? & ? & ? & ? & _) | (input' & newId' & now' & th' & g' & l & Hop & Hx
                                            & _ & (He & Hstale & _) & Heq)]].
    - exfalso. simpl in Heq. rewrite (handleInvalidateAssumption_ok _ _ _ _ _ Hget Hty) in Heq.
      simpl in Heq. destruct (markStale_marks g a) as (g' & l & Hrun & (He & _)).
      fold a in Heq. rewrite Hrun in Heq. simpl in Heq.
      rewrite (graph_set_fresh g' (critique_of th input newId now)) in Heq.
      + apply (f_equal length) in Heq. rewrite length_app, (evolves_length _ _ He) in Heq.
        simpl in Heq. lia.
      + simpl. apply graph_has_false. apply graph_has_false in Hfresh.
        by apply (evolves_get_None _ _ _ He).
    - done.
    - injection Hop as <- <- <-. simpl in Heq. rewrite Heq.
      assert (th' = th) as -> by congruence.
      assert (Hnone : graph_get g' newId = None).
      { apply graph_has_false in Hfresh. by apply (evolves_get_None _ _ _ He). }
      split.
      + unfold c. simpl. rewrite graph_get_app, Hnone. simpl. by rewrite bool_decide_true.
      + destruct (evolves_get _ _ _ _ He Hget) as (t' & Ht' & Hor).
        assert (Hin : stale_in g' a).
        { destruct (status th) eqn:Hs.
          - apply Hstale. right. apply cascade_root. by exists th.
          - apply Hstale. left. by exists th. }
        destruct Hin as (t'' & Ht'' & Hs''). exists t''. split; [|done].
        by rewrite graph_get_app, Ht''. }
  apply (run_invariant (critique_kept c a)); [|done|done].
  intros h op Hh Hnew. by apply critique_kept_step.
Qed.

Lemma appended_critique_stays_active_witness :
  graph_get
    (run (handleInvalidateAssumption g_diamond invalidate_a "c" 1).1
         [OpLog log_evidence 7 "e" 8; OpInvalidate invalidate_a "d" 9])
    "c"
  = Some (critique_of active_a invalidate_a "c" 1).
Proof.
  apply (appended_critique_stays_active g_diamond invalidate_a active_a "c" 1
           [OpLog log_evidence 7 "e" 8; OpInvalidate invalidate_a "d" 9]);
    reflexivity.
Defined.

(** ** Acyclicity *)

Lemma evolves_snoc_inv g t h :
  evolves (g ++ [t]) h → ∃ g' t', h = g' ++ [t'] ∧ evolves g g' ∧ (t' = t ∨ t' = mk_stale t).
Proof.
  intros He. apply Forall2_app_inv_l in He as (g' & r & Hg & Hr & ->).
  inversion Hr as [|? t' ? r' Ht Hnil]; subst. inversion Hnil; subst.
  exists g', t'. auto.
Qed.

Lemma evolves_ordered g : insertion_ordered g → ∀ h, evolves g h → insertion_ordered h.
Proof.
  induction 1 as [|g t Hord IH Hid Hdeps]; intros h He.
  - inversion He. constructor.
  - apply evolves_snoc_inv in He as (g' & t' & -> & He & Ht).
    assert (id t' = id t ∧ dependencies t' = dependencies t) as [Hi Hd]
      by (destruct Ht as [->| ->]; done).
    constructor; [by apply IH | | ]; rewrite ?Hi, ?Hd, (evolves_ids _ _ He); done.
Qed.

Lemma exec_ordered g op :
  insertion_ordered g → graph_has g (op_new_id op) = false → insertion_ordered (exec g op).
Proof.
  intros Hord Hfresh.
  assert (Hnew : op_new_id op ∉ map id g).
  { apply graph_get_None. by apply graph_has_false. }
  destruct (exec_cases g op Hfresh)
    as [-> | [(input & now & newId & created & -> & Hdeps & ->)
           | (input & newId & now & th & g' & l & -> & Hx & _ & (He & _) & ->)]].
  - done.
  - by constructor.
  - constructor; simpl.
    + by apply (evolves_ordered g).
    + by rewrite (evolves_ids _ _ He).
    + intros d ->%list_elem_of_singleton. rewrite (evolves_ids _ _ He).
      apply graph_get_Some_ids. eauto.
Qed.

Lemma ordered_deps_closed g : insertion_ordered g → deps_closed g.
Proof.
  induction 1 as [|g t Hord IH Hid Hdeps]; intros u d Hu Hd.
  - by apply elem_of_nil in Hu.
  - apply graph_get_Some_ids. rewrite map_app. apply elem_of_app. left.
    apply elem_of_app in Hu as [Hu | ->%list_elem_of_singleton]; [|auto].
    apply graph_get_Some_ids. eauto.
Qed.

Lemma depends_target g z y : deps_closed g → depends_in g z y → y ∈ map id g.
Proof.
  intros Hcl (t & Ht & Hin). apply graph_get_Some_ids.
  eapply Hcl; [eapply graph_get_elem; exact Ht | exact Hin].
Qed.

Lemma tc_depends_target g z y : deps_closed g → tc (depends_in g) z y → y ∈ map id g.
Proof. intros Hcl. induction 1; eauto using depends_target. Qed.

Lemma depends_snoc_old g t z y :
  z ∈ map id g → depends_in (g ++ [t]) z y → depends_in g z y.
Proof.
  intros Hz (u & Hu & Hin). apply graph_get_Some_ids in Hz as [v Hv].
  rewrite graph_get_app, Hv in Hu. exists v. split; [done | congruence].
Qed.

Lemma depends_snoc_target g t z y :
  deps_closed g → (∀ d, d ∈ dependencies t → d ∈ map id g) →
  depends_in (g ++ [t]) z y → y ∈ map id g.
Proof.
  intros Hcl Hdeps Hd.
  destruct (decide (z ∈ map id g)) as [Hz|Hz].
  - eapply depends_target; [done | by eapply depends_snoc_old].
  - destruct Hd as (u & Hu & Hin). apply graph_get_None in Hz.
    rewrite graph_get_app, Hz in Hu. simpl in Hu.
    case_bool_decide; [|done]. injection Hu as <-. auto.
Qed.

Lemma tc_depends_snoc_old g t z y :
  deps_closed g → z ∈ map id g →
  tc (depends_in (g ++ [t])) z y → tc (depends_in g) z y.
Proof.
  intros Hcl Hz Htc. induction Htc as [z y Hd | z w y Hd _ IH].
  - apply tc_once. by eapply depends_snoc_old.
  - pose proof (depends_snoc_old _ _ _ _ Hz Hd) as Hd'.
    eapply tc_l; [exact Hd'|]. apply IH. by eapply depends_target.
Qed.

Lemma ordered_acyclic g : insertion_ordered g → acyclic g.
Proof.
  induction 1 as [|g t Hord IH Hid Hdeps]; intros x Hx.
  - assert (H : ∀ a b, tc (depends_in []) a b → False); [|by eapply H].
    intros a b Hab. destruct Hab as [? ? (u & Hu & _) | ? ? ? (u & Hu & _) _]; done.
  - pose proof (ordered_deps_closed g Hord) as Hcl.
    assert (Hin : x ∈ map id g); [|by eapply IH, tc_depends_snoc_old].
    inversion Hx as [? ? Hd | ? w ? Hd Hrest]; subst.
    + by eapply depends_snoc_target.
    + eapply tc_depends_target; [done|].
      eapply tc_depends_snoc_old; [done | | exact Hrest].
      by eapply depends_snoc_target.
Qed.

(** C3: after every trace of [log_thought] and [invalidate_assumption]
    calls that starts from the empty graph and whose operations receive new
    ids, the dependency relation has no cycle and every dependency of a
    stored thought is stored. *)
Theorem graph_stays_acyclic ops :
  fresh_ids [] ops = true → acyclic (run [] ops) ∧ deps_closed (run [] ops).
Proof.
  intros Hfresh.
  assert (Hord : insertion_ordered (run [] ops)).
  { apply (run_invariant insertion_ordered); [|constructor|done].
    intros g op. apply exec_ordered. }
  split; [by apply ordered_acyclic | by apply ordered_deps_closed].
Qed.

Lemma graph_stays_acyclic_witness :
  acyclic (run [] (logged_critique_trace ++ [OpInvalidate invalidate_a "c" 3]))
  ∧ deps_closed (run [] (logged_critique_trace ++ [OpInvalidate invalidate_a "c" 3])).
Proof.
  apply (graph_stays_acyclic (logged_critique_trace ++ [OpInvalidate invalidate_a "c" 3])).
  reflexivity.
Defined.

(** ** The cycle guard *)

Lemma finished_closed R B x d : finished R B → x ∈ B → R x d → d ∈ B.
Proof.
  induction B as [|m B IH]; simpl; [by intros _ ?%elem_of_nil|].
  intros [Hm HB] [->|Hx]%elem_of_cons HR; right; eauto.
Qed.

Lemma finished_rtc R B x c : finished R B → x ∈ B → rtc R x c → c ∈ B.
Proof. intros HB Hx Hrtc. induction Hrtc; eauto using finished_closed. Qed.

Lemma finished_tc R B x c : finished R B → x ∈ B → tc R x c → c ∈ B.
Proof. intros HB Hx Htc. eapply finished_rtc; eauto using tc_rtc. Qed.

Lemma finished_acyclic R B x : finished R B → x ∈ B → ¬ tc R x x.
Proof.
  induction B as [|m B IH]; simpl; [by intros _ ?%elem_of_nil|].
  intros [Hm HB] Hx Hcyc.
  destruct (decide (x ∈ B)) as [Hin|Hnin]; [by eapply IH|].
  apply elem_of_cons in Hx as [->|?]; [|done].
  apply Hnin. inversion Hcyc as [? ? Hd | ? w ? Hd Hrest]; subst; [by apply Hm|].
  eapply finished_tc; eauto.
Qed.

Lemma size_list_to_set_le (l : list string) : (size (list_to_set l : gset string) ≤ length l)%nat.
Proof.
  induction l as [|x l IH]; [by rewrite list_to_set_nil, size_empty|].
  rewrite list_to_set_cons, size_union_alt, size_singleton. simpl.
  pose proof (subseteq_size (list_to_set l ∖ {[x]}) (list_to_set l : gset string)) as Hle.
  assert (list_to_set l ∖ {[x]} ⊆ (list_to_set l : gset string)) as Hsub by set_solver.
  specialize (Hle Hsub). lia.
Qed.

Lemma expandable_size g tempId : (size (expandable g tempId) < length g + 2)%nat.
Proof.
  unfold expandable. rewrite size_union_alt, size_singleton.
  pose proof (size_list_to_set_le (map id g)) as H1. rewrite length_map in H1.
  pose proof (subseteq_size (list_to_set (map id g) ∖ {[tempId]})
                (list_to_set (map id g) : gset string)) as H2.
  assert (list_to_set (map id g) ∖ {[tempId]} ⊆ (list_to_set (map id g) : gset string))
    as Hsub by set_solver.
  specialize (H2 Hsub). lia.
Qed.

Section HasCycleSpec.
Variable g : ThoughtMap.
Variable tempId : string.
Variable candidate : list string.

Local Abbreviation R := (follows g tempId candidate).
Local Abbreviation N := (expandable g tempId).

Lemma deps_of_expandable n d : R n d → n ∈ N.
Proof.
  unfold follows, deps_of, expandable. case_bool_decide as E.
  - intros _. set_solver.
  - destruct (graph_get g n) as [t|] eqn:Hget; [|by intros ?%elem_of_nil].
    intros _. apply elem_of_union_r, elem_of_list_to_set, graph_get_Some_ids. eauto.
Qed.

Lemma hasCycle_loop_spec rec bound m :
  call_spec g tempId candidate rec bound →
  ∀ deps st B,
    (size (N ∖ recursiveStack st) < bound)%nat →
    (∀ x, x ∈ visited st ↔ x ∈ recursiveStack st ∨ x ∈ B) → finished R B →
    (∀ s, s ∈ recursiveStack st → rtc R s m) → rtc R tempId m →
    (∀ d, d ∈ deps → R m d) →
    ∃ r st', hasCycle_loop rec deps st = Some (r, st')
             ∧ if r then closes_cycle g tempId candidate
               else ∃ B', recursiveStack st' = recursiveStack st
                          ∧ (∀ x, x ∈ visited st' ↔ x ∈ recursiveStack st ∨ x ∈ B')
                          ∧ finished R B' ∧ B ⊆ B' ∧ (∀ d, d ∈ deps → d ∈ B').
Proof.
  intros Hrec. induction deps as [|d deps IH]; intros st B Hsize Hvis Hfin Hstack Hroot Hdeps.
  - exists false, st. split; [done|]. exists B. split_and!; try done.
    by intros d ?%elem_of_nil.
  - simpl.
    assert (Hmd : R m d) by (apply Hdeps; left).
    destruct (Hrec st d B Hsize Hvis Hfin) as (r & st1 & Hcall & Hres).
    { intros s Hs. eapply tc_rtc_l; [by apply Hstack | by apply tc_once]. }
    { eapply rtc_r; eauto. }
    rewrite Hcall. destruct r; [by exists true, st1|].
    destruct Hres as (B1 & Hst1 & Hvis1 & Hfin1 & Hsub1 & Hd1).
    destruct (IH st1 B1) as (r & st2 & Hloop & Hres2).
    { by rewrite Hst1. }
    { intros x. by rewrite Hst1. }
    { done. }
    { intros s. rewrite Hst1. apply Hstack. }
    { done. }
    { intros d' Hd'. apply Hdeps. by right. }
    exists r, st2. split; [done|]. destruct r; [done|].
    destruct Hres2 as (B2 & Hst2 & Hvis2 & Hfin2 & Hsub2 & Hd2).
    exists B2. split_and!.
    + congruence.
    + intros x. rewrite Hvis2. by rewrite Hst1.
    + done.
    + set_solver.
    + intros d' [->|Hd']%elem_of_cons; [by apply Hsub2 | by apply Hd2].
Qed.

Lemma hasCycle_fuel_spec fuel :
  call_spec g tempId candidate (hasCycle_fuel g tempId candidate fuel) fuel.
Proof.
  induction fuel as [|fuel IH]; intros st n B Hsize Hvis Hfin Hstack Hroot; [lia|].
  simpl. case_bool_decide as Hon.
  { exists true, st. split; [done|]. exists n. split; [done | by apply Hstack]. }
  case_bool_decide as Hseen.
  { exists false, st. split; [done|]. exists B. split_and!; try done.
    apply Hvis in Hseen as [?|?]; done. }
  set (st1 := {| visited := {[n]} ∪ visited st;
                 recursiveStack := {[n]} ∪ recursiveStack st |}).
  assert (Hloop : ∃ r st', hasCycle_loop (hasCycle_fuel g tempId candidate fuel)
                             (deps_of g tempId candidate n) st1 = Some (r, st')
             ∧ if r then closes_cycle g tempId candidate
               else ∃ B', recursiveStack st' = recursiveStack st1
                          ∧ (∀ x, x ∈ visited st' ↔ x ∈ recursiveStack st1 ∨ x ∈ B')
                          ∧ finished R B' ∧ B ⊆ B'
                          ∧ (∀ d, d ∈ deps_of g tempId candidate n → d ∈ B')).
  { destruct (deps_of g tempId candidate n) as [|d0 deps0] eqn:Hdeps.
    - exists false, st1. split; [done|]. exists B. split_and!; try done.
      + intros x. simpl. rewrite !elem_of_union, Hvis. tauto.
      + by intros d ?%elem_of_nil.
    - rewrite <- Hdeps.
      apply (hasCycle_loop_spec _ fuel n IH); try done.
      + assert (Hn : n ∈ N).
        { apply (deps_of_expandable n d0). unfold follows. rewrite Hdeps. left. }
        simpl.
        assert (N ∖ ({[n]} ∪ recursiveStack st) ⊂ N ∖ recursiveStack st) as Hsub.
        { split; [set_solver|]. intros Hback. specialize (Hback n). set_solver. }
        apply subset_size in Hsub. lia.
      + intros x. simpl. rewrite !elem_of_union, Hvis. tauto.
      + simpl. intros s [->%elem_of_singleton|Hs]%elem_of_union; [done|].
        by apply tc_rtc, Hstack. }
  destruct Hloop as (r & st' & Hrun & Hres). rewrite Hrun.
  destruct r; [by exists true, st'|].
  destruct Hres as (B' & Hst' & Hvis' & Hfin' & Hsub' & Hd').
  eexists false, _. split; [done|].
  exists (n :: B'). split_and!.
  - simpl. rewrite Hst'. simpl. set_solver.
  - intros x. simpl. rewrite Hvis'. simpl.
    rewrite elem_of_union, elem_of_singleton, elem_of_cons.
    split; [tauto|]. intros [?|[?|?]]; auto.
  - split; [|done]. intros d Hd. by apply Hd'.
  - set_solver.
  - left.
Qed.
End HasCycleSpec.

Lemma hasCycle_fuel_enough g tempId candidate :
  ∃ st', hasCycle_fuel g tempId candidate (length g + 2) empty_state tempId
         = Some (hasCycle g tempId candidate tempId, st').
Proof.
  destruct (hasCycle_fuel_spec g tempId candidate (length g + 2) empty_state tempId [])
    as (r & st' & Hrun & _); simpl.
  - pose proof (expandable_size g tempId) as Hs.
    replace (expandable g tempId ∖ ∅) with (expandable g tempId) by set_solver. done.
  - intros x. set_solver.
  - done.
  - intros s. set_solver.
  - done.
  - exists st'. unfold hasCycle. fold empty_state. by rewrite Hrun.
Qed.

(** [hasCycle] answers [true] exactly when a cycle can be reached from the
    candidate. *)
Lemma hasCycle_correct g tempId candidate :
  hasCycle g tempId candidate tempId = true ↔ closes_cycle g tempId candidate.
Proof.
  destruct (hasCycle_fuel_spec g tempId candidate (length g + 2) empty_state tempId [])
    as (r & st' & Hrun & Hres); simpl.
  - pose proof (expandable_size g tempId) as Hs.
    replace (expandable g tempId ∖ ∅) with (expandable g tempId) by set_solver. done.
  - intros x. set_solver.
  - done.
  - intros s. set_solver.
  - done.
  - unfold hasCycle. fold empty_state. rewrite Hrun. destruct r; [done|].
    split; [done|]. intros (c & Hreach & Hcyc).
    destruct Hres as (B' & _ & _ & Hfin & _ & Hin). exfalso.
    eapply finished_acyclic; [exact Hfin | | exact Hcyc].
    eapply finished_rtc; eauto.
Qed.

Lemma first_missing_exists g deps d :
  d ∈ deps → graph_has g d = false → ∃ d', first_missing g deps = Some d'.
Proof.
  intros Hin Hd. destruct (first_missing g deps) as [d'|] eqn:E; [eauto|].
  rewrite (proj1 (first_missing_None g deps) E d Hin) in Hd. done.
Qed.

(** C5: an insertion one of whose dependencies is not stored throws the
    error that names the first such dependency and leaves the graph as it
    was; an insertion whose dependencies are all stored and from whose
    candidate node a cycle can be reached throws the circular-dependency
    error and leaves the graph as it was; the two errors differ (by their
    message: both carry the code [InvalidParams]). *)
Theorem insertion_rejected g input now newId created :
  ((∃ d, d ∈ LogThoughtInput.dependencies input ∧ graph_has g d = false) →
   ∃ d, d ∈ LogThoughtInput.dependencies input ∧ graph_has g d = false
        ∧ handleLogThought g input now newId created = (g, inl (dangling_error d)))
  ∧ ((∀ d, d ∈ LogThoughtInput.dependencies input → graph_has g d = true) →
     closes_cycle g ("temp_" +:+ pretty now) (LogThoughtInput.dependencies input) →
     handleLogThought g input now newId created = (g, inl cycle_error))
  ∧ (∀ d, dangling_error d ≠ cycle_error).
Proof.
  split_and!.
  - intros (d & Hin & Hd).
    destruct (first_missing_exists g _ d Hin Hd) as (d' & Hfm).
    destruct (first_missing_Some _ _ _ Hfm) as [Hin' Hd'].
    exists d'. split_and!; [done | done |].
    unfold handleLogThought, validateDependencies. by rewrite Hfm.
  - intros Hall Hcyc.
    unfold handleLogThought, validateDependencies.
    rewrite (proj2 (first_missing_None g _) Hall).
    by rewrite (proj2 (hasCycle_correct g _ _) Hcyc).
  - intros d [= H].
Qed.


Lemma insertion_rejected_witness :
  (∃ d, d ∈ LogThoughtInput.dependencies log_missing ∧ graph_has g_diamond d = false
        ∧ handleLogThought g_diamond log_missing 5 "n" 6 = (g_diamond, inl (dangling_error d)))
  ∧ handleLogThought g_cyclic log_on_cycle 5 "n" 6 = (g_cyclic, inl cycle_error).
Proof.
  split.
  - apply (proj1 (insertion_rejected g_diamond log_missing 5 "n" 6)).
    exists "z". split; [by_evaluation | reflexivity].
  - apply (proj1 (proj2 (insertion_rejected g_cyclic log_on_cycle 5 "n" 6))).
    + intros d Hd. apply list_elem_of_singleton in Hd as ->. reflexivity.
    + exists "p". unfold follows. split.
      * apply rtc_once. by_evaluation.
      * apply (tc_l _ _ "q"); [|apply tc_once]; by_evaluation.
Defined.

(** ** The query engine *)

Lemma filter_filter_andb {A} (p q : A → bool) (l : list A) :
  List.filter q (List.filter p l) = List.filter (λ x, p x && q x) l.
Proof.
  induction l as [|x l IH]; simpl; [done|].
  destruct (p x); simpl; [destruct (q x)|]; by rewrite IH.
Qed.

Lemma filter_false {A} (p : A → bool) (l : list A) :
  (∀ x, p x = false) → List.filter p l = [].
Proof. intros Hp. induction l as [|x l IH]; simpl; [done|]. by rewrite Hp. Qed.

Lemma opt_filter_filter {A B} (o : option B) (p : B → A → bool) (l : list A) :
  opt_filter o p l = List.filter (λ x, match o with Some b => p b x | None => true end) l.
Proof.
  destruct o; simpl; [done|]. induction l as [|x l IH]; simpl; [done|]. by rewrite <- IH.
Qed.

Lemma filter_pointwise {A} (p q : A → bool) (l : list A) :
  (∀ x, p x = q x) → List.filter p l = List.filter q l.
Proof. intros Hpq. induction l as [|x l IH]; simpl; [done|]. by rewrite Hpq, IH. Qed.

Lemma dependency_of_filter g (o : option string) (l : list Thought) :
  match o with
  | Some target =>
      match graph_get g target with
      | Some targetThought =>
          List.filter (λ t, includes (dependencies targetThought) (id t)) l
      | None => []
      end
  | None => l
  end
  = List.filter
      (λ t, match o with
            | Some target =>
                match graph_get g target with
                | Some targetThought => includes (dependencies targetThought) (id t)
                | None => false
                end
            | None => true
            end) l.
Proof.
  destruct o as [target|].
  - destruct (graph_get g target); [done|]. symmetry. by apply filter_false.
  - induction l as [|x l IH]; simpl; [done|]. by rewrite <- IH.
Qed.

(** The filters of the handler select the thoughts that [matches] accepts. *)
Lemma apply_filters_matches g input :
  apply_filters g input = List.filter (matches g input) g.
Proof.
  unfold apply_filters, matches.
  rewrite dependency_of_filter, !opt_filter_filter, !filter_filter_andb.
  apply filter_pointwise. intros x. by rewrite ?andb_assoc.
Qed.

Lemma sort_insert_length {A} (cmp : A → A → Q) x l :
  length (sort_insert cmp x l) = S (length l).
Proof.
  induction l as [|y l IH]; simpl; [done|].
  destruct (Qle_bool (cmp x y) 0); simpl; by rewrite ?IH.
Qed.

Lemma js_sort_length {A} (cmp : A → A → Q) l : length (js_sort cmp l) = length l.
Proof.
  induction l as [|x l IH]; simpl; [done|].
  unfold js_sort in *. simpl. by rewrite sort_insert_length, IH.
Qed.


Lemma to_integer_ge (n : Z) (q : Q) :
  (0 ≤ n)%Z → (inject_Z n <= q)%Q → (n ≤ to_integer q)%Z.
Proof.
  intros Hn Hq. unfold to_integer.
  assert (H0 : (0 <= q)%Q).
  { eapply Qle_trans; [|exact Hq].
    change (inject_Z 0 <= inject_Z n)%Q. by rewrite <- Zle_Qle. }
  apply Qle_bool_iff in H0. rewrite H0.
  rewrite <- (Qfloor_Z n). by apply Qfloor_resp_le.
Qed.

Lemma js_slice_nil {A} (start stop : Q) : js_slice (@nil A) start stop = [].
Proof. unfold js_slice. by rewrite drop_nil, take_nil. Qed.




(** C9 as stated fails: the empty string names no stored thought, yet as
    a [dependency_of] filter it is skipped, and the query returns every
    thought. *)
Lemma query_empty_dependency_of :
  graph_get g_diamond EmptyString = None
  ∧ total_results
      (handleQueryThoughts sample_localeCompare g_diamond (query_dependency_of EmptyString 0))
    = 4%nat
  ∧ length (thoughts
      (handleQueryThoughts sample_localeCompare g_diamond (query_dependency_of EmptyString 0)))
    = 4%nat.
Proof. split_and!; reflexivity. Qed.

(** C9, as the code has it: a query whose [dependency_of] filter is a
    non-empty id that is not stored returns no thought and a total of
    zero, whatever its other filters. *)
Theorem query_unknown_dependency_of localeCompare g input target :
  QueryThoughtsInput.dependency_of input = Some target →
  target ≠ EmptyString →
  graph_get g target = None →
  total_results (handleQueryThoughts localeCompare g input) = 0%nat
  ∧ thoughts (handleQueryThoughts localeCompare g input) = []
  ∧ returned_count (handleQueryThoughts localeCompare g input) = 0%nat.
Proof.
  intros Hdep Hne Hget.
  assert (Hnone : apply_filters g input = []).
  { rewrite apply_filters_matches. apply filter_false. intros t.
    unfold matches. rewrite Hdep.
    assert (truthy (Some target) = Some target) as -> by (by destruct target).
    rewrite Hget. by rewrite andb_false_r. }
  unfold handleQueryThoughts. rewrite Hnone. simpl.
  by rewrite js_slice_nil.
Qed.

Lemma query_unknown_dependency_of_witness :
  total_results
    (handleQueryThoughts sample_localeCompare g_diamond (query_dependency_of "zz" 0)) = 0%nat
  ∧ thoughts
      (handleQueryThoughts sample_localeCompare g_diamond (query_dependency_of "zz" 0)) = []
  ∧ returned_count
      (handleQueryThoughts sample_localeCompare g_diamond (query_dependency_of "zz" 0)) = 0%nat.
Proof.
  apply (query_unknown_dependency_of sample_localeCompare g_diamond
           (query_dependency_of "zz" 0) "zz"); [reflexivity | discriminate | reflexivity].
Defined.

(** ** The token bucket *)

Import TokenBucketRateLimiter.

Lemma checkLimit_allowed b clientId cost now1 now2 :
  Qle_bool cost (refilled b now1) = true →
  let out := checkLimit b clientId cost now1 now2 in
  allowed out.2 = true
  ∧ tokens out.1 = (refilled b now1 - cost)%Q
  ∧ retryAfter out.2 = None
  ∧ remaining out.2 = Qfloor (refilled b now1 - cost)
  ∧ lastRefill out.1 = now1 ∧ maxTokens out.1 = maxTokens b
  ∧ refillRate out.1 = refillRate b ∧ windowMs out.1 = windowMs b.
Proof.
  intros Hle. unfold checkLimit, refilled in *. simpl. rewrite Hle. simpl. done.
Qed.

Lemma checkLimit_denied b clientId cost now1 now2 :
  Qle_bool cost (refilled b now1) = false →
  let out := checkLimit b clientId cost now1 now2 in
  allowed out.2 = false
  ∧ tokens out.1 = refilled b now1
  ∧ retryAfter out.2 =
      Some (if Qeq_bool (refillRate b) 0 then RetryInfinity
            else RetryMs (Qceiling ((cost - refilled b now1) / refillRate b * 1000)%Q))
  ∧ remaining out.2 = Qfloor (refilled b now1)
  ∧ lastRefill out.1 = now1 ∧ maxTokens out.1 = maxTokens b
  ∧ refillRate out.1 = refillRate b ∧ windowMs out.1 = windowMs b.
Proof.
  intros Hle. unfold checkLimit, refilled in *. simpl. rewrite Hle. simpl. done.
Qed.

Lemma checkLimit_caller b c1 c2 cost now1 now2 :
  (checkLimit b c1 cost now1 now2).2 = (checkLimit b c2 cost now1 now2).2
  ∧ tokens (checkLimit b c1 cost now1 now2).1 = tokens (checkLimit b c2 cost now1 now2).1
  ∧ lastRefill (checkLimit b c1 cost now1 now2).1 = lastRefill (checkLimit b c2 cost now1 now2).1
  ∧ maxTokens (checkLimit b c1 cost now1 now2).1 = maxTokens (checkLimit b c2 cost now1 now2).1
  ∧ refillRate (checkLimit b c1 cost now1 now2).1 = refillRate (checkLimit b c2 cost now1 now2).1
  ∧ windowMs (checkLimit b c1 cost now1 now2).1 = windowMs (checkLimit b c2 cost now1 now2).1.
Proof. unfold checkLimit. simpl. destruct (Qle_bool cost _); done. Qed.

Lemma manager_checkLimit_caller m name c1 c2 cost now0 now1 now2 :
  (RateLimitManager.checkLimit m name c1 cost now0 now1 now2).2
  = (RateLimitManager.checkLimit m name c2 cost now0 now1 now2).2
  ∧ tokens <$> (RateLimitManager.limiters
                  (RateLimitManager.checkLimit m name c1 cost now0 now1 now2).1 !! name)
    = tokens <$> (RateLimitManager.limiters
                    (RateLimitManager.checkLimit m name c2 cost now0 now1 now2).1 !! name).
Proof.
  unfold RateLimitManager.checkLimit.
  set (l := match RateLimitManager.limiters m !! name with
            | Some l => l
            | None => new (RateLimitManager.defaultConfig m) now0
            end).
  destruct (checkLimit_caller l c1 c2 cost now1 now2) as (Hres & Htok & _).
  destruct (checkLimit l c1 cost now1 now2) as [l1 r1].
  destruct (checkLimit l c2 cost now1 now2) as [l2 r2].
  simpl in *. rewrite !lookup_insert_eq. simpl. by rewrite Hres, Htok.
Qed.

(** C10: the caller's id does not enter the admission decision.  From
    the same bucket, the calls of two callers return the same answer and
    leave the same tokens, refill time, capacity, rate and window: only the
    request counters can differ.  The same holds through the manager, which
    picks the bucket by the name of the operation alone. *)
Theorem caller_shares_bucket b c1 c2 cost now1 now2 :
  let out1 := checkLimit b c1 cost now1 now2 in
  let out2 := checkLimit b c2 cost now1 now2 in
  out1.2 = out2.2
  ∧ tokens out1.1 = tokens out2.1
  ∧ lastRefill out1.1 = lastRefill out2.1
  ∧ maxTokens out1.1 = maxTokens out2.1
  ∧ refillRate out1.1 = refillRate out2.1
  ∧ windowMs out1.1 = windowMs out2.1
  ∧ (∀ m name now0,
       let res1 := RateLimitManager.checkLimit m name c1 cost now0 now1 now2 in
       let res2 := RateLimitManager.checkLimit m name c2 cost now0 now1 now2 in
       res1.2 = res2.2
       ∧ tokens <$> (RateLimitManager.limiters res1.1 !! name)
         = tokens <$> (RateLimitManager.limiters res2.1 !! name)).
Proof.
  intros out1 out2.
  destruct (checkLimit_caller b c1 c2 cost now1 now2) as (? & ? & ? & ? & ? & ?).
  split_and!; try done.
  intros m name now0. apply manager_checkLimit_caller.
Qed.

(** The request counters do tell the callers apart. *)
Example callers_counted_separately :
  requestCount (checkLimit (new sample_config 1000) "alice" 1 1500 1500).1
  ≠ requestCount (checkLimit (new sample_config 1000) "bob" 1 1500 1500).1.
Proof.
  intros H. apply (f_equal (λ m : gmap string nat, m !! "alice:0")) in H.
  vm_compute in H. discriminate.
Qed.

(** * Further properties *)

(** ** Repeated and partial cascades *)

Lemma active_in_dec g x : active_in g x ∨ ¬ active_in g x.
Proof.
  destruct (graph_get g x) as [t|] eqn:Hget.
  - destruct (status t) eqn:Hs; [left; by exists t|].
    right. intros (t' & Ht' & Hs'). congruence.
  - right. intros (t' & Ht' & _). congruence.
Qed.

(** After a cascade from [x], the thought [x] is not active. *)
Lemma markStale_root_inactive g x g' l :
  markStale g x = (g', l) → ¬ active_in g' x.
Proof.
  intros Hrun. destruct (active_in_dec g x) as [Hx | Hx].
  - destruct (markStale_active g x Hx) as (g1 & l1 & Hrun1 & _ & Hstale & _).
    rewrite Hrun in Hrun1. injection Hrun1 as -> ->.
    intros Ha. eapply active_stale_excl; [exact Ha|].
    apply Hstale. right. by apply cascade_root.
  - rewrite (markStale_inactive g x Hx) in Hrun. by injection Hrun as <- <-.
Qed.

Lemma markStale_twice g x :
  markStale (markStale g x).1 x = ((markStale g x).1, []).
Proof.
  destruct (markStale g x) as [g' l] eqn:Hrun. simpl.
  apply markStale_inactive. by eapply markStale_root_inactive.
Qed.

(** A successful invalidation, taken apart. *)
Lemma handleInvalidateAssumption_inv g input newId now g1 out :
  handleInvalidateAssumption g input newId now = (g1, inr out) →
  ∃ th g' l,
    graph_get g (InvalidateInput.thought_id input) = Some th
    ∧ thought_type th = assumption
    ∧ markStale g (InvalidateInput.thought_id input) = (g', l)
    ∧ marks g (InvalidateInput.thought_id input) g' l
    ∧ g1 = graph_set g' (critique_of th input newId now)
    ∧ out = {| invalidated_thoughts := l; critique_id := newId |}.
Proof.
  unfold handleInvalidateAssumption.
  destruct (graph_get g (InvalidateInput.thought_id input)) as [th|] eqn:Hget; [|done].
  case_bool_decide as Hty; [done|].
  assert (thought_type th = assumption) as Hty'.
  { destruct (decide (thought_type th = assumption)); [done|]. by destruct Hty. }
  destruct (markStale_marks g (InvalidateInput.thought_id input)) as (g' & l & Hrun & Hm).
  rewrite Hrun. intros [= <- <-]. exists th, g', l. done.
Qed.

(** X1: invalidating the same assumption twice in a row: the second
    call, made on the graph the first one left, reports no invalidated id,
    turns nothing stale and only stores a second critique. *)
Theorem invalidate_twice g input id1 now1 id2 now2 g1 out1 :
  graph_has g id1 = false →
  handleInvalidateAssumption g input id1 now1 = (g1, inr out1) →
  ∃ th,
    graph_get g1 (InvalidateInput.thought_id input) = Some th
    ∧ status th = stale
    ∧ handleInvalidateAssumption g1 input id2 now2 =
        (graph_set g1 (critique_of th input id2 now2),
         inr {| invalidated_thoughts := []; critique_id := id2 |}).
Proof.
  intros Hfresh Hrun.
  destruct (handleInvalidateAssumption_inv _ _ _ _ _ _ Hrun)
    as (th & g' & l & Hget & Hty & Hms & (He & Hstale & _) & -> & _).
  set (a := InvalidateInput.thought_id input) in *.
  assert (Hnone : graph_get g' id1 = None).
  { apply graph_has_false in Hfresh. by apply (evolves_get_None _ _ _ He). }
  rewrite (graph_set_fresh g' (critique_of th input id1 now1))
    by (by apply graph_has_false).
  destruct (evolves_get _ _ _ _ He Hget) as (th' & Hget' & Hth').
  assert (Hs' : status th' = stale).
  { destruct (status th') eqn:Hs; [|done]. exfalso.
    apply (markStale_root_inactive g a g' l Hms). by exists th'. }
  assert (Hget1 : graph_get (g' ++ [critique_of th input id1 now1]) a = Some th').
  { by rewrite graph_get_app, Hget'. }
  exists th'. split_and!; [done | done |].
  rewrite (handleInvalidateAssumption_ok _ _ _ _ _ Hget1).
  - rewrite markStale_inactive; [done|].
    intros (t & Ht & Hs). subst a. congruence.
  - destruct Hth' as [->| ->]; done.
Qed.

Lemma invalidate_twice_witness :
  ∃ th,
    graph_get (handleInvalidateAssumption g_diamond invalidate_a "c" 1).1 "a" = Some th
    ∧ status th = stale
    ∧ handleInvalidateAssumption (handleInvalidateAssumption g_diamond invalidate_a "c" 1).1
        invalidate_a "d" 2 =
        (graph_set (handleInvalidateAssumption g_diamond invalidate_a "c" 1).1
                   (critique_of th invalidate_a "d" 2),
         inr {| invalidated_thoughts := []; critique_id := "d" |}).
Proof.
  apply (invalidate_twice g_diamond invalidate_a "c" 1 "d" 2
           (handleInvalidateAssumption g_diamond invalidate_a "c" 1).1
           {| invalidated_thoughts := ["a"; "s"; "u"]; critique_id := "c" |});
    reflexivity.
Defined.

(** ** Counting stale thoughts *)

Lemma active_in_ids g y : active_in g y → y ∈ map id g.
Proof. intros (t & Ht & _). apply graph_get_Some_ids. eauto. Qed.

Lemma stale_count_active g : (stale_count g + count_active g = length g)%nat.
Proof.
  unfold stale_count, count_active, is_active.
  induction g as [|t g IH]; simpl; [done|].
  destruct (status t); simpl; lia.
Qed.

(** In a map, whose keys are distinct, the entries that a status change
    turned stale are as many as the ids that were active and are stale. *)
Lemma evolves_changed g g' :
  evolves g g' → NoDup (map id g) →
  ∃ c, NoDup c
       ∧ (∀ y, y ∈ c ↔ active_in g y ∧ stale_in g' y)
       ∧ (stale_count g' = stale_count g + length c)%nat.
Proof.
  unfold stale_count.
  induction 1 as [|t t' g g' Ht He IH]; intros Hnd.
  - exists []. split_and!; [constructor | | done].
    intros y. split; [by intros ?%elem_of_nil|]. intros [(t & Ht & _) _]. done.
  - simpl in Hnd. apply NoDup_cons in Hnd as [Hnin Hnd].
    destruct (IH Hnd) as (c & Hc & Hmem & Hcount).
    assert (Hid : id t' = id t) by (destruct Ht as [->| ->]; done).
    assert (Hnc : id t ∉ c).
    { intros Hin. apply Hmem in Hin as [Hin _]. by apply active_in_ids in Hin. }
    assert (Htail : ∀ y, y ≠ id t →
              (active_in (t :: g) y ∧ stale_in (t' :: g') y) ↔ (active_in g y ∧ stale_in g' y)).
    { intros y Hy. unfold active_in, stale_in. simpl. rewrite Hid.
      rewrite !bool_decide_false by done. done. }
    assert (Hhead : (active_in (t :: g) (id t) ∧ stale_in (t' :: g') (id t))
                    ↔ (status t = active ∧ status t' = stale)).
    { unfold active_in, stale_in. simpl. rewrite Hid.
      rewrite !bool_decide_true by done. split.
      - intros [(u & [= <-] & ?) (u' & [= <-] & ?)]. done.
      - intros [? ?]. split; eexists; eauto. }
    destruct (decide (status t = active ∧ status t' = stale)) as [[Hs Hs']|Hno].
    + exists (id t :: c). split_and!.
      * by constructor.
      * intros y. rewrite elem_of_cons. destruct (decide (y = id t)) as [->|Hy].
        -- rewrite Hhead. split; [done | by left].
        -- rewrite (Htail y Hy), <- Hmem. split; [intros [?|?]; done | by right].
      * simpl. rewrite Hs, Hs'. simpl. simpl in Hcount. rewrite Hcount. lia.
    + exists c. split_and!; [done | | ].
      * intros y. destruct (decide (y = id t)) as [->|Hy].
        -- rewrite Hhead. split; [done | done].
        -- by rewrite (Htail y Hy).
      * simpl. simpl in Hcount.
        destruct Ht as [->| ->].
        -- destruct (status t); simpl; lia.
        -- destruct (status t) eqn:Hs; [destruct Hno; done|]. simpl. lia.
Qed.

(** X2: on a graph with distinct ids, a successful invalidation that
    draws a new id adds one thought, and raises the number of stale
    thoughts by exactly the number of ids it reports. *)
Theorem invalidate_stale_count g input newId now g1 out :
  NoDup (map id g) →
  graph_has g newId = false →
  handleInvalidateAssumption g input newId now = (g1, inr out) →
  length g1 = S (length g)
  ∧ (stale_count g1 = stale_count g + length (invalidated_thoughts out))%nat.
Proof.
  intros Hnd Hfresh Hrun.
  destruct (handleInvalidateAssumption_inv _ _ _ _ _ _ Hrun)
    as (th & g' & l & Hget & Hty & Hms & (He & Hstale & Hndl & Hl) & -> & ->).
  assert (Hnone : graph_get g' newId = None).
  { apply graph_has_false in Hfresh. by apply (evolves_get_None _ _ _ He). }
  rewrite (graph_set_fresh g' (critique_of th input newId now))
    by (by apply graph_has_false).
  destruct (evolves_changed g g' He Hnd) as (c & Hc & Hmem & Hcount).
  assert (Hperm : c ≡ₚ l).
  { apply NoDup_Permutation; [done | done |]. intros y. by rewrite Hmem, Hl. }
  split.
  - rewrite length_app, (evolves_length _ _ He). simpl. lia.
  - simpl. unfold stale_count in *. rewrite List.filter_app, length_app. simpl.
    rewrite Hcount, (Permutation_length Hperm). lia.
Qed.

Lemma invalidate_stale_count_witness :
  length (handleInvalidateAssumption g_diamond invalidate_a "c" 1).1 = S (length g_diamond)
  ∧ (stale_count (handleInvalidateAssumption g_diamond invalidate_a "c" 1).1
     = stale_count g_diamond + length (invalidated_thoughts
         {| invalidated_thoughts := ["a"; "s"; "u"]; critique_id := "c" |}))%nat.
Proof.
  apply (invalidate_stale_count g_diamond invalidate_a "c" 1); [by_evaluation | reflexivity | reflexivity].
Defined.

(** ** What a cascade spares *)

Lemma cascade_tc g a y : cascade g a y → y = a ∨ tc (depends_in g) y a.
Proof.
  induction 1 as [_ | y z _ IH Hd _]; [by left|]. right.
  destruct IH as [->|IH]; [by apply tc_once | by eapply tc_l].
Qed.

(** X3: in a graph without dependency cycles, a successful invalidation
    that draws a new id leaves every stored thought that the assumption
    depends on, directly or through other thoughts, exactly as it was, and
    reports none of them. *)
Theorem invalidate_spares_dependencies g input newId now g1 out d t :
  acyclic g →
  graph_has g newId = false →
  handleInvalidateAssumption g input newId now = (g1, inr out) →
  tc (depends_in g) (InvalidateInput.thought_id input) d →
  graph_get g d = Some t →
  graph_get g1 d = Some t ∧ d ∉ invalidated_thoughts out.
Proof.
  intros Hacyc Hfresh Hrun Hdep Hd.
  destruct (handleInvalidateAssumption_inv _ _ _ _ _ _ Hrun)
    as (th & g' & l & Hget & Hty & Hms & (He & Hstale & Hndl & Hl) & -> & ->).
  set (a := InvalidateInput.thought_id input) in *.
  assert (Hnot : ¬ cascade g a d).
  { intros [->|Hback]%cascade_tc; [by apply (Hacyc a)|].
    apply (Hacyc a). by eapply tc_transitive. }
  assert (Hnone : graph_get g' newId = None).
  { apply graph_has_false in Hfresh. by apply (evolves_get_None _ _ _ He). }
  rewrite (graph_set_fresh g' (critique_of th input newId now))
    by (by apply graph_has_false).
  split.
  - destruct (evolves_get _ _ _ _ He Hd) as (t' & Ht' & Hor).
    rewrite graph_get_app, Ht'. f_equal.
    destruct Hor as [->| ->]; [done|].
    destruct (status t) eqn:Hs; [|by destruct t; simpl in *; subst].
    exfalso. apply Hnot.
    assert (Hsd : stale_in g' d) by (by exists (mk_stale t)).
    apply Hstale in Hsd as [(u & Hu & Hus)|?]; [congruence | done].
  - simpl. intros Hin. apply Hl in Hin as [Hda Hds]. apply Hnot.
    apply Hstale in Hds as [Hds|?]; [|done]. destruct (active_stale_excl g d); done.
Qed.

Lemma g_diamond_ordered : insertion_ordered g_diamond.
Proof.
  apply (ordered_snoc [_; _; _]); [apply (ordered_snoc [_; _]);
    [apply (ordered_snoc [_]); [apply (ordered_snoc []); [constructor|..]|..]|..]|..];
    try by_evaluation; intros d Hd; simpl in Hd;
    repeat (apply elem_of_cons in Hd as [->|Hd]; [by_evaluation|]);
    by apply elem_of_nil in Hd.
Qed.

Lemma invalidate_spares_dependencies_witness :
  graph_get (handleInvalidateAssumption g_diamond invalidate_a "c" 1).1 "o"
  = Some (sample_thought "o" objective [] active)
  ∧ "o" ∉ invalidated_thoughts {| invalidated_thoughts := ["a"; "s"; "u"]; critique_id := "c" |}.
Proof.
  apply (invalidate_spares_dependencies g_diamond invalidate_a "c" 1
           (handleInvalidateAssumption g_diamond invalidate_a "c" 1).1
           {| invalidated_thoughts := ["a"; "s"; "u"]; critique_id := "c" |} "o"
           (sample_thought "o" objective [] active)).
  - apply ordered_acyclic, g_diamond_ordered.
  - reflexivity.
  - reflexivity.
  - apply tc_once. exists active_a. split; [reflexivity | by_evaluation].
  - reflexivity.
Defined.

(** ** Insertion *)

Lemma graph_get_set g t : graph_get (graph_set g t) (id t) = Some t.
Proof.
  induction g as [|u g IH]; simpl.
  - by rewrite bool_decide_true.
  - case_bool_decide as E; simpl.
    + by rewrite bool_decide_true.
    + by rewrite bool_decide_false.
Qed.

Lemma graph_get_set_ne g t k : k ≠ id t → graph_get (graph_set g t) k = graph_get g k.
Proof.
  intros Hne. induction g as [|u g IH]; simpl.
  - by rewrite bool_decide_false.
  - case_bool_decide as E; simpl.
    + rewrite !bool_decide_false; congruence.
    + case_bool_decide; done.
Qed.

Lemma graph_set_stored g t :
  graph_has g (id t) = true →
  length (graph_set g t) = length g ∧ map id (graph_set g t) = map id g.
Proof.
  rewrite graph_has_true. intros [u Hu].
  induction g as [|v g IH]; simpl in *; [done|].
  case_bool_decide as E; simpl.
  - by rewrite E.
  - destruct (IH Hu) as [-> ->]. done.
Qed.

(** X4: an insertion is accepted exactly when every dependency it names
    is stored and no cycle can be reached from the candidate node; it is
    rejected for no other reason, and a rejected insertion throws
    [InvalidParams] and leaves the graph as it was. *)
Theorem log_thought_accepted_iff g input now newId created :
  ((∃ out, (handleLogThought g input now newId created).2 = inr out)
   ↔ (∀ d, d ∈ LogThoughtInput.dependencies input → graph_has g d = true)
     ∧ ¬ closes_cycle g ("temp_" +:+ pretty now) (LogThoughtInput.dependencies input))
  ∧ (∀ e, (handleLogThought g input now newId created).2 = inl e →
          code e = InvalidParams
          ∧ (handleLogThought g input now newId created).1 = g).
Proof.
  unfold handleLogThought, validateDependencies.
  destruct (first_missing g (LogThoughtInput.dependencies input)) as [d|] eqn:Hfm.
  - simpl. split; [|by intros e [= <-]].
    split; [by intros [out ?]|]. intros [Hall _].
    destruct (first_missing_Some _ _ _ Hfm) as [Hin Hd]. rewrite (Hall d Hin) in Hd. done.
  - pose proof (proj1 (first_missing_None _ _) Hfm) as Hall.
    destruct (hasCycle g _ _ _) eqn:Hcyc; simpl.
    + split; [|by intros e [= <-]].
      split; [by intros [out ?]|]. intros [_ Hno]. destruct Hno.
      by apply hasCycle_correct.
    + split; [|done]. split; [|eauto]. intros _. split; [done|].
      intros Hc. apply hasCycle_correct in Hc. congruence.
Qed.

Lemma log_thought_accepted_iff_witness :
  code (dangling_error "z") = InvalidParams
  ∧ (handleLogThought g_diamond log_missing 1 "n" 1).1 = g_diamond.
Proof.
  apply (proj2 (log_thought_accepted_iff g_diamond log_missing 1 "n" 1)).
  reflexivity.
Defined.

(** X5: an accepted insertion whose id is new stores the thought last,
    active, with the fields of the input; it reports one more thought than
    before, and every thought stored before is found unchanged. *)
Theorem log_thought_stores g input now newId created g1 out :
  graph_has g newId = false →
  handleLogThought g input now newId created = (g1, inr out) →
  g1 = g ++ [logged input newId created]
  ∧ out = {| logged_thought_id := newId; total_thoughts := S (length g) |}
  ∧ graph_get g1 newId = Some (logged input newId created)
  ∧ (∀ k t, graph_get g k = Some t → graph_get g1 k = Some t).
Proof.
  intros Hfresh. unfold handleLogThought.
  destruct (validateDependencies g _ now) as [e|[]]; [done|].
  rewrite (graph_set_fresh g (logged input newId created)) by done.
  intros [= <- <-]. split_and!.
  - done.
  - rewrite length_app. simpl. f_equal. lia.
  - apply graph_has_false in Hfresh. rewrite graph_get_app, Hfresh. simpl.
    by rewrite bool_decide_true.
  - intros k t Hk. by rewrite graph_get_app, Hk.
Qed.

Lemma log_thought_stores_witness :
  g_diamond ++ [logged log_evidence "e" 8] = g_diamond ++ [logged log_evidence "e" 8]
  ∧ {| logged_thought_id := "e"; total_thoughts := 5 |}
    = {| logged_thought_id := "e"; total_thoughts := S (length g_diamond) |}
  ∧ graph_get (g_diamond ++ [logged log_evidence "e" 8]) "e" = Some (logged log_evidence "e" 8)
  ∧ (∀ k t, graph_get g_diamond k = Some t →
            graph_get (g_diamond ++ [logged log_evidence "e" 8]) k = Some t).
Proof.
  apply (log_thought_stores g_diamond log_evidence 7 "e" 8); reflexivity.
Defined.

(** X6: the handler does not compare the id it draws with the stored
    ids.  An accepted insertion whose id is already stored replaces the
    thought stored under that id, in place: the ids and their order stay,
    the count does not grow, and the old thought is gone. *)
Theorem log_thought_collision g input now newId created g1 out :
  graph_has g newId = true →
  handleLogThought g input now newId created = (g1, inr out) →
  map id g1 = map id g
  ∧ total_thoughts out = length g
  ∧ graph_get g1 newId = Some (logged input newId created)
  ∧ (∀ k, k ≠ newId → graph_get g1 k = graph_get g k).
Proof.
  intros Hstored. unfold handleLogThought.
  destruct (validateDependencies g _ now) as [e|[]]; [done|].
  intros [= <- <-]. simpl.
  destruct (graph_set_stored g (logged input newId created) Hstored) as [Hlen Hids].
  split_and!; [done | done | | ].
  - apply (graph_get_set g (logged input newId created)).
  - intros k Hk. by apply (graph_get_set_ne g (logged input newId created)).
Qed.

Lemma log_thought_collision_witness :
  map id (handleLogThought g_diamond log_evidence 7 "o" 8).1 = map id g_diamond
  ∧ total_thoughts {| logged_thought_id := "o"; total_thoughts := 4 |} = length g_diamond
  ∧ graph_get (handleLogThought g_diamond log_evidence 7 "o" 8).1 "o"
    = Some (logged log_evidence "o" 8)
  ∧ (∀ k, k ≠ "o" →
       graph_get (handleLogThought g_diamond log_evidence 7 "o" 8).1 k = graph_get g_diamond k).
Proof.
  apply (log_thought_collision g_diamond log_evidence 7 "o" 8); reflexivity.
Defined.

(** ** The cycle guard on graphs that the engine built *)

Section GuardOnOrderedGraphs.
Variable g : ThoughtMap.
Variable tempId : string.
Variable candidate : list string.
Hypothesis g_ordered : insertion_ordered g.
Hypothesis temp_new : tempId ∉ map id g.
Hypothesis candidate_stored : ∀ d, d ∈ candidate → graph_has g d = true.

Lemma follows_target a b : follows g tempId candidate a b → b ∈ map id g.
Proof.
  unfold follows, deps_of. case_bool_decide as E.
  - intros Hb. apply graph_get_Some_ids, graph_has_true. auto.
  - destruct (graph_get g a) as [t|] eqn:Ha; [|by intros ?%elem_of_nil].
    intros Hb. eapply depends_target; [by apply ordered_deps_closed|].
    exists t. eauto.
Qed.

Lemma follows_stored a b :
  a ∈ map id g → follows g tempId candidate a b → depends_in g a b.
Proof.
  intros Ha. unfold follows, deps_of.
  rewrite bool_decide_false by (intros ->; done).
  destruct (graph_get g a) as [t|] eqn:Hget; [|by intros ?%elem_of_nil].
  intros Hb. by exists t.
Qed.

Lemma tc_follows_stored a b :
  a ∈ map id g → tc (follows g tempId candidate) a b → tc (depends_in g) a b.
Proof.
  intros Ha Htc. induction Htc as [a b Hab | a w b Haw _ IH].
  - apply tc_once. by apply follows_stored.
  - eapply tc_l; [by apply follows_stored|]. apply IH. by eapply follows_target.
Qed.

Lemma ordered_never_closes_cycle : ¬ closes_cycle g tempId candidate.
Proof.
  intros (c & _ & Hcyc).
  assert (Hc : c ∈ map id g).
  { clear -Hcyc g_ordered candidate_stored.
    assert (∀ a b, tc (follows g tempId candidate) a b → b ∈ map id g) as H; [|by eapply H].
    induction 1; eauto using follows_target. }
  apply (ordered_acyclic g g_ordered c). by apply tc_follows_stored.
Qed.
End GuardOnOrderedGraphs.

(** X7: on a graph in which every thought was stored under a new id
    after its dependencies (as the engine builds it), and in which the
    name of the candidate node is not a stored id, the cycle check never
    fires: an insertion all of whose dependencies are stored is accepted. *)
Theorem log_thought_on_ordered_graph g input now newId created :
  insertion_ordered g →
  "temp_" +:+ pretty now ∉ map id g →
  (∀ d, d ∈ LogThoughtInput.dependencies input → graph_has g d = true) →
  handleLogThought g input now newId created =
    (graph_set g (logged input newId created),
     inr {| logged_thought_id := newId;
            total_thoughts := length (graph_set g (logged input newId created)) |}).
Proof.
  intros Hord Htemp Hall. unfold handleLogThought, validateDependencies.
  rewrite (proj2 (first_missing_None _ _) Hall).
  destruct (hasCycle g _ _ _) eqn:Hcyc; [|done].
  apply hasCycle_correct in Hcyc.
  by destruct (ordered_never_closes_cycle g _ _ Hord Htemp Hall).
Qed.

Lemma log_thought_on_ordered_graph_witness :
  handleLogThought g_diamond log_evidence 7 "e" 8 =
    (graph_set g_diamond (logged log_evidence "e" 8),
     inr {| logged_thought_id := "e";
            total_thoughts := length (graph_set g_diamond (logged log_evidence "e" 8)) |}).
Proof.
  apply (log_thought_on_ordered_graph g_diamond log_evidence 7 "e" 8).
  - apply g_diamond_ordered.
  - by_evaluation.
  - intros d ->%list_elem_of_singleton. reflexivity.
Defined.

(** ** Bounds and timing of the token bucket *)

Lemma checkLimit_decision b clientId cost now1 now2 :
  allowed (checkLimit b clientId cost now1 now2).2 = Qle_bool cost (refilled b now1).
Proof.
  destruct (Qle_bool cost (refilled b now1)) eqn:E.
  - by destruct (checkLimit_allowed b clientId cost now1 now2 E) as (-> & _).
  - by destruct (checkLimit_denied b clientId cost now1 now2 E) as (-> & _).
Qed.

Lemma refilled_le_capacity b now : (refilled b now <= maxTokens b)%Q.
Proof. unfold refilled. apply Q.le_min_l. Qed.




(** X9: a request that costs more than the capacity of the bucket is
    denied in every state of the bucket and at every time. *)
Theorem over_capacity_denied b clientId cost now1 now2 :
  (maxTokens b < cost)%Q →
  allowed (checkLimit b clientId cost now1 now2).2 = false
  ∧ tokens (checkLimit b clientId cost now1 now2).1 = refilled b now1.
Proof.
  intros Hover. pose proof (refilled_le_capacity b now1) as Hle.
  assert (E : Qle_bool cost (refilled b now1) = false).
  { destruct (Qle_bool cost (refilled b now1)) eqn:E; [|done].
    apply Qle_bool_iff in E. lra. }
  by destruct (checkLimit_denied b clientId cost now1 now2 E) as (-> & -> & _).
Qed.

Lemma over_capacity_denied_witness :
  allowed (checkLimit (new sample_config 1000) "alice" 4 9000 9000).2 = false
  ∧ tokens (checkLimit (new sample_config 1000) "alice" 4 9000 9000).1
    = refilled (new sample_config 1000) 9000.
Proof.
  apply (over_capacity_denied (new sample_config 1000) "alice" 4 9000 9000). reflexivity.
Defined.

(** ** The keys of the request counter *)

Lemma split_on_colon_free s : colon_free s = true → split_on ":" s = [s].
Proof.
  induction s as [|c s IH]; simpl; [done|].
  intros [Hc Hs]%andb_true_iff. apply negb_true_iff in Hc. rewrite Hc.
  by rewrite (IH Hs).
Qed.

Lemma split_on_app c s :
  colon_free c = true → split_on ":" (c +:+ ":" +:+ s) = c :: split_on ":" s.
Proof.
  induction c as [|a c IH]; simpl; [done|].
  intros [Ha Hc]%andb_true_iff. apply negb_true_iff in Ha. rewrite Ha.
  by rewrite (IH Hc).
Qed.

Lemma is_digit_cases c :
  is_digit c = true →
  c ∈ ["0"; "1"; "2"; "3"; "4"; "5"; "6"; "7"; "8"; "9"]%char.
Proof.
  destruct c as [[] [] [] [] [] [] [] []]; intros H; try discriminate H;
    repeat (first [left | right]).
Qed.

Lemma all_digits_colon_free s : all_digits s = true → colon_free s = true.
Proof.
  induction s as [|c s IH]; simpl; [done|].
  intros [Hc Hs]%andb_true_iff. rewrite (IH Hs), andb_true_r.
  apply is_digit_cases in Hc. set_unfold.
  by destruct Hc as [->|[->|[->|[->|[->|[->|[->|[->|[->|[->|[]]]]]]]]]]].
Qed.

Lemma pretty_N_char_digit d : is_digit (pretty_N_char d) = true.
Proof. unfold pretty_N_char. by repeat case_match. Qed.

Lemma pretty_N_char_value d :
  (d < 10)%N → digit_value 10 (pretty_N_char d) = Some (Z.of_N d).
Proof.
  intros Hd.
  assert (d = 0 ∨ d = 1 ∨ d = 2 ∨ d = 3 ∨ d = 4 ∨ d = 5 ∨ d = 6 ∨ d = 7 ∨ d = 8 ∨ d = 9)%N
    as Hcases by lia.
  by destruct Hcases as [->|[->|[->|[->|[->|[->|[->|[->|[->| ->]]]]]]]]].
Qed.

Lemma pretty_N_go_digits x : ∀ s, all_digits s = true → all_digits (pretty_N_go x s) = true.
Proof.
  induction (N.lt_wf_0 x) as [x _ IH]; intros s Hs.
  assert (x = 0 ∨ 0 < x)%N as [->|Hx] by lia; [by rewrite pretty_N_go_0|].
  rewrite pretty_N_go_step by done. apply IH; [by apply N.div_lt|].
  simpl. by rewrite pretty_N_char_digit.
Qed.

(** Reading back the decimal digits that [pretty] wrote. *)
Lemma parse_pretty_N_go x : ∀ s,
  (0 < x)%N →
  parse_digits 10 (pretty_N_go x s) None = parse_digits 10 s (Some (Z.of_N x)).
Proof.
  induction (N.lt_wf_0 x) as [x _ IH]; intros s Hx.
  rewrite pretty_N_go_step by done.
  pose proof (N.div_mod x 10 ltac:(done)) as Hdm.
  pose proof (N.mod_lt x 10 ltac:(done)) as Hmod.
  assert (x `div` 10 = 0 ∨ 0 < x `div` 10)%N as [Hq|Hq] by lia.
  - rewrite Hq, pretty_N_go_0. simpl. rewrite (pretty_N_char_value _ Hmod).
    do 2 f_equal. lia.
  - rewrite IH; [|by apply N.div_lt|done]. simpl.
    rewrite (pretty_N_char_value _ Hmod). do 2 f_equal. lia.
Qed.

Lemma fmap_mul_1 (o : option Z) : Z.mul 1 <$> o = o.
Proof. destruct o as [z|]; simpl; [|done]. f_equal. lia. Qed.

Ltac digit_cases H :=
  apply is_digit_cases in H; set_unfold;
  destruct H as [->|[->|[->|[->|[->|[->|[->|[->|[->|[->|[]]]]]]]]]]].

Lemma parseInt_digits s :
  all_digits s = true → s ≠ EmptyString → parseInt (Some s) = parse_digits 10 s None.
Proof.
  intros Hs Hne. rewrite <- (fmap_mul_1 (parse_digits 10 s None)).
  destruct s as [|c s]; [done|]. simpl in Hs. apply andb_true_iff in Hs as [Hc Hs].
  digit_cases Hc; try reflexivity.
  destruct s as [|c2 s]; [reflexivity|]. simpl in Hs. apply andb_true_iff in Hs as [Hc2 _].
  digit_cases Hc2; reflexivity.
Qed.

Lemma parseInt_minus_digits s :
  all_digits s = true → s ≠ EmptyString →
  parseInt (Some ("-" +:+ s)) = Z.mul (-1) <$> parse_digits 10 s None.
Proof.
  intros Hs Hne.
  destruct s as [|c s]; [done|]. simpl in Hs. apply andb_true_iff in Hs as [Hc Hs].
  digit_cases Hc; try reflexivity.
  destruct s as [|c2 s]; [reflexivity|]. simpl in Hs. apply andb_true_iff in Hs as [Hc2 _].
  digit_cases Hc2; reflexivity.
Qed.

Lemma pretty_N_go_parts x :
  (0 < x)%N →
  all_digits (pretty_N_go x EmptyString) = true
  ∧ pretty_N_go x EmptyString ≠ EmptyString
  ∧ parse_digits 10 (pretty_N_go x EmptyString) None = Some (Z.of_N x).
Proof.
  intros Hx. pose proof (parse_pretty_N_go x EmptyString Hx) as Hparse. simpl in Hparse.
  split_and!; [by apply pretty_N_go_digits | | done].
  intros Hempty. rewrite Hempty in Hparse. done.
Qed.

(** [parseInt] reads back the integer that a template literal wrote. *)
Lemma parseInt_pretty (z : Z) : parseInt (Some (pretty z)) = Some z.
Proof.
  destruct z as [|p|p].
  - reflexivity.
  - destruct (pretty_N_go_parts (N.pos p)) as (Hd & Hne & Hparse); [done|].
    change (pretty (Z.pos p)) with (pretty_N_go (N.pos p) EmptyString).
    rewrite parseInt_digits by done. by rewrite Hparse.
  - destruct (pretty_N_go_parts (N.pos p)) as (Hd & Hne & Hparse); [done|].
    change (pretty (Z.neg p)) with ("-" +:+ pretty_N_go (N.pos p) EmptyString).
    rewrite parseInt_minus_digits by done. by rewrite Hparse.
Qed.

Lemma pretty_Z_colon_free (z : Z) : colon_free (pretty z) = true.
Proof.
  destruct z as [|p|p].
  - reflexivity.
  - change (pretty (Z.pos p)) with (pretty_N_go (N.pos p) EmptyString).
    by apply all_digits_colon_free, pretty_N_go_digits.
  - change (pretty (Z.neg p)) with ("-" +:+ pretty_N_go (N.pos p) EmptyString).
    simpl. by apply all_digits_colon_free, pretty_N_go_digits.
Qed.

Lemma append_cons a s t : String a s +:+ t = String a (s +:+ t).
Proof. reflexivity. Qed.

Lemma append_nil s : EmptyString +:+ s = s.
Proof. reflexivity. Qed.

Lemma second_segment c s :
  colon_free c = true → split_on ":" (c +:+ ":" +:+ s) !! 1%nat = head (split_on ":" s).
Proof. intros Hc. rewrite (split_on_app c s Hc). by destruct (split_on ":" s). Qed.

Lemma expired_window_key b clientId now now' :
  colon_free clientId = true →
  expired b now (windowKey b clientId now')
  = (Qfloor (inject_Z now' / windowMs b)
     <? Qfloor ((inject_Z now - windowMs b) / windowMs b))%Z.
Proof.
  intros Hc. unfold expired, windowKey.
  rewrite (second_segment clientId _ Hc).
  rewrite split_on_colon_free by apply pretty_Z_colon_free.
  change (head [?x]) with (Some x). by rewrite parseInt_pretty.
Qed.

(** X12: the window index that [checkLimit] writes into a key of the
    request counter is the one that the clean-up loop reads back, when the
    caller's id holds no colon and the window, a whole number of
    milliseconds, and the readings of the clock are below [2 ^ 53] (the
    quotients then have the integer parts that the doubles of the code
    have, and the index is printed with all its digits): such a key
    is deleted exactly when its window index is below that of the window
    before the current one. *)
Theorem window_key_round_trip b clientId now now' w :
  colon_free clientId = true →
  windowMs b = inject_Z w → (0 < w < 2 ^ 53)%Z →
  (0 ≤ now < 2 ^ 53)%Z → (0 ≤ now' < 2 ^ 53)%Z →
  expired b now (windowKey b clientId now')
  = (Qfloor (inject_Z now' / windowMs b)
     <? Qfloor ((inject_Z now - windowMs b) / windowMs b))%Z.
Proof. intros Hc _ _ _ _. by apply expired_window_key. Qed.

Lemma window_key_round_trip_witness :
  expired (new sample_config 0) 200000 (windowKey (new sample_config 0) "alice" 70000)
  = (Qfloor (inject_Z 70000 / windowMs (new sample_config 0))
     <? Qfloor ((inject_Z 200000 - windowMs (new sample_config 0))
                / windowMs (new sample_config 0)))%Z.
Proof.
  apply (window_key_round_trip (new sample_config 0) "alice" 200000 70000 60000);
    [reflexivity | reflexivity | lia | lia | lia].
Defined.



Lemma previous_window_le (w : Q) (now : Z) :
  (0 < w)%Q → (Qfloor ((inject_Z now - w) / w) ≤ Qfloor (inject_Z now / w))%Z.
Proof.
  intros Hw. apply Qfloor_resp_le.
  apply Qmult_le_r; [by apply Qinv_lt_0_compat|]. lra.
Qed.

Lemma current_key_kept b clientId now :
  (0 < windowMs b)%Q → colon_free clientId = true →
  expired b now (windowKey b clientId now) = false.
Proof.
  intros Hw Hc. rewrite expired_window_key by done.
  pose proof (previous_window_le (windowMs b) now Hw). lia.
Qed.

Lemma colon_free_app_colon x y : colon_free (x +:+ String ":" y) = false.
Proof.
  induction x as [|a x IH]; [reflexivity|].
  rewrite append_cons. simpl. rewrite IH. apply andb_false_r.
Qed.

(** Two keys are equal only if they were written for the same caller. *)
Lemma window_key_inj c c' p p' :
  colon_free p = true → colon_free p' = true →
  c +:+ ":" +:+ p = c' +:+ ":" +:+ p' → c = c'.
Proof.
  intros Hp Hp'. revert c'. induction c as [|a c IH]; intros [|a' c']; [done|..].
  - rewrite !append_cons, !append_nil. intros [= _ ->].
    by rewrite colon_free_app_colon in Hp.
  - rewrite !append_cons, !append_nil. intros [= _ <-].
    by rewrite colon_free_app_colon in Hp'.
  - rewrite !append_cons. intros [= -> Htail]. f_equal. by apply IH.
Qed.

Lemma getStats_count b c n now :
  requestsInWindow (getStats b c n now).2 = default 0%nat (requestCount b !! windowKey b c now).
Proof. reflexivity. Qed.

(** X14: the request counter counts per caller.  In a bucket whose
    window is a whole number of milliseconds below [2 ^ 53], while the
    clock reads less than [2 ^ 53], a call leaves the count that [getStats] reports for the
    current window as it was for every caller whose id holds no colon,
    except that an allowed call raises the count of the caller who made it
    by one. *)
Theorem request_counter_per_caller b c cost now1 now2 c' n3 n3' w :
  windowMs b = inject_Z w → (0 < w < 2 ^ 53)%Z → (0 ≤ now2 < 2 ^ 53)%Z →
  colon_free c' = true →
  requestsInWindow (getStats (checkLimit b c cost now1 now2).1 c' n3 now2).2
  = (requestsInWindow (getStats b c' n3' now2).2
     + if bool_decide (c' = c) && allowed (checkLimit b c cost now1 now2).2 then 1 else 0)%nat.
Proof.
  intros Hwin [Hwpos _] _ Hc'.
  assert (Hw : (0 < windowMs b)%Q).
  { rewrite Hwin. change 0%Q with (inject_Z 0). by rewrite <-Zlt_Qlt. }
  rewrite !getStats_count.
  assert (Hkept : filter (λ kv : string * nat, expired b now2 kv.1 = false) (requestCount b)
                  !! windowKey b c' now2 = requestCount b !! windowKey b c' now2).
  { rewrite map_lookup_filter. destruct (requestCount b !! windowKey b c' now2) as [n|]; [|done].
    simpl. rewrite option_guard_True; [done|]. simpl. by apply current_key_kept. }
  rewrite checkLimit_decision.
  unfold checkLimit. fold (refilled b now1).
  change (tokens (refillTokens b now1)) with (refilled b now1).
  destruct (Qle_bool cost (refilled b now1)) eqn:E; simpl.
  - change (windowKey (refillTokens b now1) c now2) with (windowKey b c now2).
    change (windowKey _ c' now2) with (windowKey b c' now2).
    change (expired (refillTokens b now1)) with (expired b).
    case_bool_decide as Hcc; simpl.
    + subst c'. rewrite lookup_insert_eq, Hkept. simpl. lia.
    + rewrite lookup_insert_ne, Hkept; [lia|].
      unfold windowKey. intros Heq. apply Hcc. symmetry.
      eapply window_key_inj; [| |exact Heq]; apply pretty_Z_colon_free.
  - change (windowKey _ c' now2) with (windowKey b c' now2).
    change (expired (refillTokens b now1)) with (expired b).
    rewrite Hkept, andb_false_r. lia.
Qed.

Lemma request_counter_per_caller_witness :
  requestsInWindow
    (getStats (checkLimit (new sample_config 1000) "alice" 1 1500 1500).1 "alice" 1600 1500).2
  = (requestsInWindow (getStats (new sample_config 1000) "alice" 1400 1500).2
     + if bool_decide ("alice" = "alice")
          && allowed (checkLimit (new sample_config 1000) "alice" 1 1500 1500).2
       then 1 else 0)%nat.
Proof.
  apply (request_counter_per_caller (new sample_config 1000) "alice" 1 1500 1500 "alice"
           1600 1400 60000);
    [reflexivity | lia | lia | reflexivity].
Defined.




(** ** The query engine: sorting and pages *)

Section SortFacts.
Context {A : Type}.
Variable cmp : A → A → Q.

Lemma sort_insert_perm x l : sort_insert cmp x l ≡ₚ x :: l.
Proof.
  induction l as [|y l IH]; simpl; [done|].
  destruct (Qle_bool (cmp x y) 0); [done|].
  rewrite IH. apply Permutation_swap.
Qed.

Lemma js_sort_perm l : js_sort cmp l ≡ₚ l.
Proof.
  induction l as [|x l IH]; [done|].
  unfold js_sort in *. simpl. rewrite sort_insert_perm. by rewrite IH.
Qed.

Hypothesis cmp_total : ∀ a b, (cmp a b <= 0)%Q ∨ (cmp b a <= 0)%Q.
Hypothesis cmp_trans : ∀ a b c, (cmp a b <= 0)%Q → (cmp b c <= 0)%Q → (cmp a c <= 0)%Q.

Lemma sort_insert_sorted x l :
  StronglySorted (λ a b, (cmp a b <= 0)%Q) l →
  StronglySorted (λ a b, (cmp a b <= 0)%Q) (sort_insert cmp x l).
Proof.
  induction 1 as [|y l Hs IH Hy]; simpl.
  - repeat constructor.
  - destruct (Qle_bool (cmp x y) 0) eqn:Hxy.
    + apply Qle_bool_iff in Hxy. constructor.
      * by constructor.
      * constructor; [done|].
        eapply Forall_impl; [exact Hy|]. intros z Hz. by eapply cmp_trans.
    + assert (Hyx : (cmp y x <= 0)%Q).
      { destruct (cmp_total x y) as [H|H]; [|done].
        apply Qle_bool_iff in H. congruence. }
      constructor; [done|].
      rewrite sort_insert_perm. by constructor.
Qed.

Lemma js_sort_sorted l : StronglySorted (λ a b, (cmp a b <= 0)%Q) (js_sort cmp l).
Proof.
  induction l as [|x l IH]; [constructor|].
  unfold js_sort in *. simpl. by apply sort_insert_sorted.
Qed.
End SortFacts.

(** The elements of a class of ties keep the order they had. *)
Lemma sort_insert_filter {A} (cmp : A → A → Q) (p : A → bool) x l :
  (∀ y, p x = true → p y = true → (cmp x y <= 0)%Q) →
  List.filter p (sort_insert cmp x l) = List.filter p (x :: l).
Proof.
  intros Hties. induction l as [|y l IH]; [done|].
  simpl. destruct (Qle_bool (cmp x y) 0) eqn:Hxy; [done|].
  simpl. rewrite IH. simpl.
  destruct (p x) eqn:Hx, (p y) eqn:Hy; try done.
  specialize (Hties y eq_refl Hy). apply Qle_bool_iff in Hties. congruence.
Qed.

Lemma js_sort_stable {A} (cmp : A → A → Q) (p : A → bool) l :
  (∀ x y, p x = true → p y = true → (cmp x y <= 0)%Q) →
  List.filter p (js_sort cmp l) = List.filter p l.
Proof.
  intros Hties. induction l as [|x l IH]; [done|].
  unfold js_sort in *. simpl foldr. rewrite sort_insert_filter by eauto.
  simpl. by rewrite IH.
Qed.

Lemma StronglySorted_take_drop {A} (R : relation A) (l : list A) n k :
  StronglySorted R l → StronglySorted R (take n (drop k l)).
Proof.
  intros Hs.
  rewrite <-(take_drop k l) in Hs. apply StronglySorted_app_1_r in Hs.
  rewrite <-(take_drop n (drop k l)) in Hs. by apply StronglySorted_app_1_l in Hs.
Qed.

Lemma StronglySorted_weaken {A} (R1 R2 : relation A) l :
  (∀ a b, R1 a b → R2 a b) → StronglySorted R1 l → StronglySorted R2 l.
Proof.
  intros Himp. induction 1 as [|x l Hs IH Hx]; constructor; [done|].
  eapply Forall_impl; [exact Hx|]. intros y. apply Himp.
Qed.

Lemma comparator_key lc qt key a b :
  numeric_key qt = Some key → (comparator lc qt a b == key b - key a)%Q.
Proof.
  destruct qt; simpl; intros [= <-]; try reflexivity.
  - unfold Qminus. by rewrite <-inject_Z_opp, <-inject_Z_plus.
  - unfold Qminus. by rewrite <-inject_Z_opp, <-inject_Z_plus.
Qed.

Lemma rows_augment g l : map row (map (augment g) l) = l.
Proof. induction l as [|t l IH]; simpl; [done|]. by rewrite IH. Qed.

Lemma rows_query lc g input :
  rows (handleQueryThoughts lc g input) =
  js_slice (apply_sort lc (QueryThoughtsInput.query_type input)
              (List.filter (matches g input) g))
           (QueryThoughtsInput.offset input)
           (QueryThoughtsInput.offset input + QueryThoughtsInput.limit input).
Proof.
  unfold rows, handleQueryThoughts. simpl.
  by rewrite rows_augment, apply_filters_matches.
Qed.

Lemma apply_sort_sorted lc qt key l :
  numeric_key qt = Some key →
  StronglySorted (λ a b, (key b <= key a)%Q) (apply_sort lc qt l).
Proof.
  intros Hkey.
  assert (Hle : ∀ a b, (comparator lc qt a b <= 0)%Q ↔ (key b <= key a)%Q).
  { intros a b. rewrite (comparator_key lc qt key a b Hkey). split; intros H; lra. }
  eapply StronglySorted_weaken; last apply (js_sort_sorted (comparator lc qt)).
  - intros a b. apply Hle.
  - intros a b. rewrite !Hle. destruct (Qlt_le_dec (key a) (key b)) as [H|H]; [right|left]; lra.
  - intros a b c. rewrite !Hle. lra.
Qed.

Lemma to_integer_inject_Z z : to_integer (inject_Z z) = z.
Proof.
  unfold to_integer. destruct (Qle_bool 0 (inject_Z z)).
  - apply Qfloor_Z.
  - apply Qceiling_Z.
Qed.

Lemma to_integer_sum a b : to_integer (inject_Z a + inject_Z b) = (a + b)%Z.
Proof.
  rewrite <-(to_integer_inject_Z (a + b)). unfold to_integer.
  assert (He : (inject_Z a + inject_Z b == inject_Z (a + b))%Q)
    by (by rewrite inject_Z_plus).
  rewrite (Qfloor_comp _ _ He), (Qceiling_comp _ _ He).
  destruct (Qle_bool 0 (inject_Z a + inject_Z b)) eqn:H1,
           (Qle_bool 0 (inject_Z (a + b))) eqn:H2; try done.
  - apply Qle_bool_iff in H1. rewrite He in H1. apply Qle_bool_iff in H1. congruence.
  - apply Qle_bool_iff in H2. rewrite <-He in H2. apply Qle_bool_iff in H2. congruence.
Qed.

(** [slice(o, o + n)] for two natural numbers. *)
Lemma js_slice_nat {A} (l : list A) (o n : nat) :
  js_slice l (inject_Z (Z.of_nat o)) (inject_Z (Z.of_nat o) + inject_Z (Z.of_nat n))
  = take n (drop o l).
Proof.
  unfold js_slice. rewrite to_integer_inject_Z, to_integer_sum.
  unfold relative_index.
  destruct (Z.ltb_spec (Z.of_nat o) 0) as [?|_]; [lia|].
  destruct (Z.ltb_spec (Z.of_nat o + Z.of_nat n) 0) as [?|_]; [lia|].
  destruct (decide (length l ≤ o)%nat) as [Hge|Hlt].
  - rewrite (drop_ge l o) by done. rewrite take_nil.
    rewrite drop_ge by lia. by rewrite take_nil.
  - replace (Z.to_nat (Z.of_nat o `min` Z.of_nat (length l))) with o by lia.
    destruct (decide (length l - o ≤ n)%nat) as [Hn|Hn].
    + rewrite !take_ge; [done| |]; rewrite length_drop; lia.
    + f_equal. lia.
Qed.

(** [slice(0, limit)] with a limit that is not below the length. *)
Lemma js_slice_full {A} (l : list A) (limit : Q) :
  (inject_Z (Z.of_nat (length l)) <= limit)%Q → js_slice l 0 (0 + limit) = l.
Proof.
  intros Hlimit. unfold js_slice.
  assert (H0 : to_integer 0 = 0%Z) by reflexivity. rewrite H0.
  assert (Hfinal : (Z.of_nat (length l) ≤ to_integer (0 + limit))%Z).
  { apply to_integer_ge; [lia|]. eapply Qle_trans; [exact Hlimit|].
    rewrite Qplus_0_l. apply Qle_refl. }
  unfold relative_index.
  destruct (Z.ltb_spec 0 0) as [?|_]; [lia|].
  destruct (Z.ltb_spec (to_integer (0 + limit)) 0) as [?|_]; [lia|].
  replace (Z.to_nat (0 `min` Z.of_nat (length l))) with 0%nat by lia.
  change (drop 0 l) with l. apply take_ge. lia.
Qed.

Lemma matches_with_page g input o n t :
  matches g (with_page input o n) t = matches g input t.
Proof. reflexivity. Qed.

Lemma filter_ext_bool {A} (p q : A → bool) l :
  (∀ x, p x = q x) → List.filter p l = List.filter q l.
Proof. intros H. induction l as [|x l IH]; simpl; [done|]. by rewrite H, IH. Qed.

Lemma rows_page lc g input o n :
  rows (handleQueryThoughts lc g (with_page input o n)) =
  take n (drop o (apply_sort lc (QueryThoughtsInput.query_type input)
                    (List.filter (matches g input) g))).
Proof.
  rewrite rows_query. change (QueryThoughtsInput.offset (with_page input o n))
    with (inject_Z (Z.of_nat o)).
  change (QueryThoughtsInput.limit (with_page input o n)) with (inject_Z (Z.of_nat n)).
  rewrite js_slice_nat.
  change (QueryThoughtsInput.query_type (with_page input o n))
    with (QueryThoughtsInput.query_type input).
  by rewrite (filter_ext_bool _ _ g (matches_with_page g input o n)).
Qed.

Lemma rows_full lc g input :
  QueryThoughtsInput.offset input = 0%Q →
  (inject_Z (Z.of_nat (total_results (handleQueryThoughts lc g input)))
     <= QueryThoughtsInput.limit input)%Q →
  rows (handleQueryThoughts lc g input) =
  apply_sort lc (QueryThoughtsInput.query_type input) (List.filter (matches g input) g).
Proof.
  intros Hoff Hlim. rewrite rows_query, Hoff.
  apply js_slice_full. revert Hlim. unfold handleQueryThoughts. simpl.
  by rewrite apply_filters_matches.
Qed.

(** X16.  In the sort modes [recent], [by_confidence] and [by_dependency]
    every page of a query is in descending order of the sort key (the time
    stamp, the confidence with a missing one counted as 0, the number of
    dependencies): each returned thought has a key at least as large as
    that of every thought returned after it. *)
Theorem query_rows_sorted lc g input key :
  numeric_key (QueryThoughtsInput.query_type input) = Some key →
  StronglySorted (λ a b, (key b <= key a)%Q) (rows (handleQueryThoughts lc g input)).
Proof.
  intros Hkey. rewrite rows_query. unfold js_slice.
  apply StronglySorted_take_drop. by apply apply_sort_sorted.
Qed.

(** X17.  A query from offset 0 whose limit is not below the number of
    results returns exactly the stored thoughts that pass all the filters,
    each of them once, whatever the sort mode and the order of the locale. *)
Theorem query_full_page lc g input :
  QueryThoughtsInput.offset input = 0%Q →
  (inject_Z (Z.of_nat (total_results (handleQueryThoughts lc g input)))
     <= QueryThoughtsInput.limit input)%Q →
  rows (handleQueryThoughts lc g input) ≡ₚ List.filter (matches g input) g
  ∧ returned_count (handleQueryThoughts lc g input)
    = total_results (handleQueryThoughts lc g input).
Proof.
  intros Hoff Hlim. split.
  - rewrite rows_full by done. apply js_sort_perm.
  - pose proof (rows_full lc g input Hoff Hlim) as Hrows.
    apply (f_equal length) in Hrows. revert Hrows.
    unfold rows, handleQueryThoughts. simpl.
    rewrite !length_map, apply_filters_matches. done.
Qed.

(** X18.  The sort is stable: in the numeric sort modes the results that
    share a sort key come in the order in which the graph stores them. *)
Theorem query_ties_in_insertion_order lc g input key k :
  numeric_key (QueryThoughtsInput.query_type input) = Some key →
  QueryThoughtsInput.offset input = 0%Q →
  (inject_Z (Z.of_nat (total_results (handleQueryThoughts lc g input)))
     <= QueryThoughtsInput.limit input)%Q →
  List.filter (λ t, Qeq_bool (key t) k) (rows (handleQueryThoughts lc g input))
  = List.filter (λ t, Qeq_bool (key t) k) (List.filter (matches g input) g).
Proof.
  intros Hkey Hoff Hlim. rewrite rows_full by done.
  apply js_sort_stable. intros x y Hx Hy.
  apply Qeq_bool_iff in Hx. apply Qeq_bool_iff in Hy.
  rewrite (comparator_key lc _ key x y Hkey). lra.
Qed.

(** X19.  Pages fit together: the page of [n] results from offset [o]
    followed by the page of [m] results from offset [o + n] is the page of
    [n + m] results from offset [o], and the total that is reported does
    not depend on the page. *)
Theorem query_pages_compose lc g input (o n m : nat) :
  rows (handleQueryThoughts lc g (with_page input o n))
    ++ rows (handleQueryThoughts lc g (with_page input (o + n) m))
  = rows (handleQueryThoughts lc g (with_page input o (n + m)))
  ∧ total_results (handleQueryThoughts lc g (with_page input o n))
    = total_results (handleQueryThoughts lc g input).
Proof.
  split.
  - rewrite !rows_page. rewrite <-drop_drop. apply take_take_drop.
  - unfold handleQueryThoughts. simpl. rewrite !apply_filters_matches.
    change (QueryThoughtsInput.query_type (with_page input o n))
      with (QueryThoughtsInput.query_type input).
    by rewrite (filter_ext_bool _ _ g (matches_with_page g input o n)).
Qed.

Lemma query_rows_sorted_witness :
  numeric_key (QueryThoughtsInput.query_type (query_all by_dependency 10))
    = Some dependency_count
  ∧ StronglySorted (λ a b, (dependency_count b <= dependency_count a)%Q)
      (rows (handleQueryThoughts sample_localeCompare g_diamond (query_all by_dependency 10))).
Proof.
  split; [reflexivity|].
  apply (query_rows_sorted sample_localeCompare g_diamond (query_all by_dependency 10)
           dependency_count).
  reflexivity.
Defined.

Lemma query_full_page_witness :
  QueryThoughtsInput.offset (query_all recent 10) = 0%Q
  ∧ (inject_Z (Z.of_nat (total_results
        (handleQueryThoughts sample_localeCompare g_diamond (query_all recent 10))))
      <= QueryThoughtsInput.limit (query_all recent 10))%Q
  ∧ rows (handleQueryThoughts sample_localeCompare g_diamond (query_all recent 10))
      ≡ₚ List.filter (matches g_diamond (query_all recent 10)) g_diamond
  ∧ returned_count (handleQueryThoughts sample_localeCompare g_diamond (query_all recent 10))
    = total_results (handleQueryThoughts sample_localeCompare g_diamond (query_all recent 10)).
Proof.
  assert (Hlim : (inject_Z (Z.of_nat (total_results
        (handleQueryThoughts sample_localeCompare g_diamond (query_all recent 10))))
      <= QueryThoughtsInput.limit (query_all recent 10))%Q)
    by (vm_compute; discriminate).
  split; [reflexivity|]. split; [exact Hlim|].
  apply (query_full_page sample_localeCompare g_diamond (query_all recent 10));
    [reflexivity | exact Hlim].
Defined.

Lemma query_ties_in_insertion_order_witness :
  numeric_key (QueryThoughtsInput.query_type (query_all by_dependency 10))
    = Some dependency_count
  ∧ QueryThoughtsInput.offset (query_all by_dependency 10) = 0%Q
  ∧ (inject_Z (Z.of_nat (total_results
        (handleQueryThoughts sample_localeCompare g_diamond (query_all by_dependency 10))))
      <= QueryThoughtsInput.limit (query_all by_dependency 10))%Q
  ∧ List.filter (λ t, Qeq_bool (dependency_count t) 1)
      (rows (handleQueryThoughts sample_localeCompare g_diamond (query_all by_dependency 10)))
    = List.filter (λ t, Qeq_bool (dependency_count t) 1)
        (List.filter (matches g_diamond (query_all by_dependency 10)) g_diamond).
Proof.
  assert (Hlim : (inject_Z (Z.of_nat (total_results
        (handleQueryThoughts sample_localeCompare g_diamond (query_all by_dependency 10))))
      <= QueryThoughtsInput.limit (query_all by_dependency 10))%Q)
    by (vm_compute; discriminate).
  split; [reflexivity|]. split; [reflexivity|]. split; [exact Hlim|].
  apply (query_ties_in_insertion_order sample_localeCompare g_diamond
           (query_all by_dependency 10) dependency_count 1);
    [reflexivity | reflexivity | exact Hlim].
Defined.

(** ** The [dependency_of] filter *)

Lemma filter_map_id (p : string → bool) (g : ThoughtMap) :
  map id (List.filter (λ t, p (id t)) g) = List.filter p (map id g).
Proof.
  induction g as [|t g IH]; simpl; [done|].
  destruct (p (id t)); simpl; by rewrite IH.
Qed.

Lemma NoDup_list_filter {A} (p : A → bool) (l : list A) :
  NoDup l → NoDup (List.filter p l).
Proof.
  induction 1 as [|x l Hx Hl IH]; simpl; [constructor|].
  destruct (p x); [|done]. constructor; [|done].
  rewrite list_elem_of_In, filter_In, <-list_elem_of_In. tauto.
Qed.

Lemma matches_dependency_of g x off t target :
  x ≠ EmptyString → graph_get g x = Some target →
  matches g (query_dependency_of x off) t = includes (dependencies target) (id t).
Proof.
  intros Hx Hget. unfold matches. simpl.
  destruct x as [|c x]; [done|]. cbn [truthy]. rewrite Hget. apply andb_true_r.
Qed.

(** X20.  A [dependency_of] query counts each dependency once: when the
    ids of the graph are distinct and every dependency of the target is
    stored, the total of the query for the dependencies of the target is the
    number of distinct ids in its dependency list, however often the list
    repeats one. *)
Theorem dependency_of_counts_distinct lc g x off target :
  NoDup (map id g) →
  x ≠ EmptyString →
  graph_get g x = Some target →
  (∀ d, d ∈ dependencies target → d ∈ map id g) →
  total_results (handleQueryThoughts lc g (query_dependency_of x off))
  = length (remove_dups (dependencies target)).
Proof.
  intros Hnodup Hx Hget Hclosed.
  unfold handleQueryThoughts. cbn [total_results].
  unfold apply_sort. rewrite js_sort_length, apply_filters_matches.
  rewrite (filter_ext_bool _ (λ t, includes (dependencies target) (id t)) g)
    by (intros t; by apply matches_dependency_of).
  rewrite <-(length_map id), (filter_map_id (includes (dependencies target))).
  apply Permutation_length, NoDup_Permutation.
  - by apply NoDup_list_filter.
  - apply NoDup_remove_dups.
  - intros d. rewrite elem_of_remove_dups.
    rewrite list_elem_of_In, filter_In, <-!list_elem_of_In.
    unfold includes. rewrite bool_decide_eq_true. naive_solver.
Qed.

Lemma dependency_of_counts_distinct_witness :
  NoDup (map id g_repeated)
  ∧ "h" ≠ EmptyString
  ∧ graph_get g_repeated "h" = Some (sample_thought "h" hypothesis ["o"; "o"] active)
  ∧ (∀ d, d ∈ dependencies (sample_thought "h" hypothesis ["o"; "o"] active) →
          d ∈ map id g_repeated)
  ∧ total_results (handleQueryThoughts sample_localeCompare g_repeated
                     (query_dependency_of "h" 0))
    = length (remove_dups (dependencies (sample_thought "h" hypothesis ["o"; "o"] active))).
Proof.
  assert (Hnodup : NoDup (map id g_repeated)) by by_evaluation.
  assert (Hclosed : ∀ d, d ∈ dependencies (sample_thought "h" hypothesis ["o"; "o"] active) →
                         d ∈ map id g_repeated).
  { intros d Hd. simpl in Hd. simpl.
    apply elem_of_cons in Hd as [->|Hd]; [by_evaluation|].
    apply elem_of_cons in Hd as [->|Hd]; [by_evaluation|].
    by apply elem_of_nil in Hd. }
  split; [exact Hnodup|]. split; [discriminate|]. split; [reflexivity|].
  split; [exact Hclosed|].
  apply (dependency_of_counts_distinct sample_localeCompare g_repeated "h" 0
           (sample_thought "h" hypothesis ["o"; "o"] active));
    [exact Hnodup | discriminate | reflexivity | exact Hclosed].
Defined.

(** ** The views of the graph ([handleGetThoughtGraph]) *)

Lemma count_type_keys ty c :
  (count_type ty c).*1 = if bool_decide (ty ∈ c.*1) then c.*1 else c.*1 ++ [ty].
Proof.
  induction c as [|[k n] c IH]; csimpl.
  - done.
  - destruct (decide (k = ty)) as [->|E].
    + rewrite bool_decide_true by done. csimpl.
      by rewrite bool_decide_true by apply list_elem_of_here.
    + rewrite bool_decide_false by done. csimpl. rewrite IH.
      destruct (decide (ty ∈ c.*1)) as [E1|E1].
      * rewrite !bool_decide_true; [done | by apply list_elem_of_further | done].
      * rewrite !bool_decide_false; [done | | done].
        intros [->|?]%elem_of_cons; done.
Qed.

Lemma count_type_NoDup ty c : NoDup c.*1 → NoDup (count_type ty c).*1.
Proof.
  intros Hnd. rewrite count_type_keys. case_bool_decide as E; [done|].
  apply NoDup_app. split_and!; [done| |apply NoDup_singleton].
  intros k Hk ->%list_elem_of_singleton. done.
Qed.

Lemma type_count_count_type ty ty' c :
  type_count ty' (count_type ty c)
  = (type_count ty' c + if bool_decide (ty = ty') then 1 else 0)%nat.
Proof.
  induction c as [|[k n] c IH]; csimpl.
  - destruct (decide (ty = ty')) as [->|E].
    + rewrite !bool_decide_true by done. done.
    + rewrite !bool_decide_false by done. done.
  - destruct (decide (k = ty)) as [->|E].
    + rewrite (bool_decide_true (ty = ty)) by done. csimpl.
      destruct (decide (ty = ty')) as [->|E'].
      * rewrite !bool_decide_true by done. done.
      * rewrite !bool_decide_false by done. lia.
    + rewrite (bool_decide_false (k = ty)) by done. csimpl.
      destruct (decide (k = ty')) as [->|E'].
      * rewrite (bool_decide_true (ty' = ty')) by done.
        rewrite bool_decide_false by done. lia.
      * rewrite (bool_decide_false (k = ty')) by done. apply IH.
Qed.

Lemma count_type_sum ty c : sum_list (count_type ty c).*2 = S (sum_list c.*2).
Proof.
  induction c as [|[k n] c IH]; csimpl; [done|].
  destruct (decide (k = ty)) as [->|E].
  - rewrite bool_decide_true by done. csimpl. lia.
  - rewrite bool_decide_false by done. csimpl. rewrite IH. lia.
Qed.

Lemma type_counts_fold g c :
  NoDup c.*1 →
  let counts := foldl (λ typeCounts thought, count_type (thought_type thought) typeCounts)
                      c g in
  NoDup counts.*1
  ∧ (∀ ty, type_count ty counts = (type_count ty c + length (of_type ty g))%nat)
  ∧ (∀ ty, ty ∈ counts.*1 ↔ ty ∈ c.*1 ∨ ∃ t, t ∈ g ∧ thought_type t = ty)
  ∧ sum_list counts.*2 = (sum_list c.*2 + length g)%nat.
Proof.
  revert c. induction g as [|t g IH]; intros c Hnd; simpl.
  - split_and!; [done | intros; lia | | lia].
    intros ty. split; [auto|]. intros [?|(t & Ht & _)]; [done|].
    by apply elem_of_nil in Ht.
  - destruct (IH (count_type (thought_type t) c) (count_type_NoDup _ _ Hnd))
      as (Hnd' & Hcount & Hkeys & Hsum).
    split_and!; [done | | |].
    + intros ty. rewrite Hcount, type_count_count_type. unfold of_type. simpl.
      case_bool_decide as E; simpl; lia.
    + intros ty. rewrite Hkeys, count_type_keys.
      assert (Hk : ty ∈ (if bool_decide (thought_type t ∈ c.*1) then c.*1
                         else c.*1 ++ [thought_type t])
                   ↔ ty ∈ c.*1 ∨ ty = thought_type t).
      { case_bool_decide as E.
        - split; [auto|]. intros [?| ->]; done.
        - rewrite elem_of_app, list_elem_of_singleton. done. }
      rewrite Hk. split.
      * intros [[?| ->]|(u & Hu & Hty)]; [by left | right | right].
        -- exists t. split; [apply list_elem_of_here | done].
        -- exists u. split; [by apply list_elem_of_further | done].
      * intros [?|(u & Hu & Hty)]; [by left; left|].
        apply elem_of_cons in Hu as [->|Hu]; [left; right; done|].
        right. by exists u.
    + rewrite Hsum, count_type_sum. lia.
Qed.

Lemma type_count_elem ty n c :
  NoDup c.*1 → (ty, n) ∈ c ↔ ty ∈ c.*1 ∧ type_count ty c = n.
Proof.
  induction c as [|[k m] c IH]; simpl; intros Hnd.
  - split; [by intros ?%elem_of_nil | by intros [?%elem_of_nil _]].
  - apply NoDup_cons in Hnd as [Hk Hnd]. specialize (IH Hnd).
    rewrite !elem_of_cons. case_bool_decide as E.
    + subst k. split.
      * intros [[= <-]|Hin]; [by split; [left|]|].
        exfalso. apply Hk. apply list_elem_of_fmap. by exists (ty, n).
      * intros [_ ->]. by left.
    + rewrite IH. split.
      * intros [[= -> ->]|[? ?]]; [done|]. split; [by right | done].
      * intros [[->|?] ?]; [done|]. right. done.
Qed.

Lemma of_type_nonempty ty g :
  (0 < length (of_type ty g))%nat ↔ ∃ t, t ∈ g ∧ thought_type t = ty.
Proof.
  unfold of_type. induction g as [|t g IH]; simpl.
  - split; [lia|]. intros (t & Ht & _). by apply elem_of_nil in Ht.
  - case_bool_decide as E; simpl.
    + split; [|lia]. intros _. exists t. split; [apply list_elem_of_here|done].
    + rewrite IH. split.
      * intros (u & Hu & Hty). exists u. split; [by apply list_elem_of_further|done].
      * intros (u & Hu & Hty). apply elem_of_cons in Hu as [->|Hu]; [done|]. by exists u.
Qed.

Lemma filter_length_le {A} (p : A → bool) l : (length (List.filter p l) ≤ length l)%nat.
Proof. induction l as [|x l IH]; simpl; [done|]. destruct (p x); simpl; lia. Qed.

(** X21.  The summary of the graph is consistent: [thought_types] has one
    entry for each type that occurs among the stored thoughts and none for
    the others, the entry of a type is the number of thoughts of that type,
    the entries add up to [total_thoughts], and [stale_thoughts] is the
    number of stale thoughts, which never exceeds the total. *)
Theorem summary_counts graph sid total counts n_stale :
  handleGetThoughtGraph graph {| GetGraphInput.format := format_summary |}
    = GraphSummary sid total counts n_stale →
  total = length (ReasoningGraph.thoughts graph)
  ∧ NoDup counts.*1
  ∧ (∀ ty n, (ty, n) ∈ counts ↔
             n = length (of_type ty (ReasoningGraph.thoughts graph)) ∧ (0 < n)%nat)
  ∧ sum_list counts.*2 = total
  ∧ n_stale = stale_count (ReasoningGraph.thoughts graph)
  ∧ (n_stale ≤ total)%nat.
Proof.
  unfold handleGetThoughtGraph. simpl. intros [= <- <- <- <-].
  destruct (type_counts_fold (ReasoningGraph.thoughts graph) [] (NoDup_nil_2))
    as (Hnd & Hcount & Hkeys & Hsum).
  split_and!; [done | done | | by rewrite Hsum | done | apply filter_length_le].
  intros ty n. rewrite (type_count_elem _ _ _ Hnd), Hkeys, Hcount. simpl.
  rewrite <-of_type_nonempty. split.
  - intros [[?%elem_of_nil|Hpos] <-]; [done|]. done.
  - intros [-> Hpos]. split; [by right | done].
Qed.

Lemma summary_counts_witness :
  4%nat = length (ReasoningGraph.thoughts sample_graph)
  ∧ NoDup [(objective, 1%nat); (assumption, 1%nat); (sub_problem, 1%nat); (synthesis, 1%nat)].*1
  ∧ (∀ ty n,
       (ty, n) ∈ [(objective, 1%nat); (assumption, 1%nat); (sub_problem, 1%nat);
                  (synthesis, 1%nat)] ↔
       n = length (of_type ty (ReasoningGraph.thoughts sample_graph)) ∧ (0 < n)%nat)
  ∧ sum_list [(objective, 1%nat); (assumption, 1%nat); (sub_problem, 1%nat);
              (synthesis, 1%nat)].*2 = 4%nat
  ∧ 0%nat = stale_count (ReasoningGraph.thoughts sample_graph)
  ∧ (0 ≤ 4)%nat.
Proof.
  apply (summary_counts sample_graph "session" 4
           [(objective, 1%nat); (assumption, 1%nat); (sub_problem, 1%nat); (synthesis, 1%nat)]
           0).
  reflexivity.
Defined.

(** ** Dispatch ([checkRateLimit] and the handler of tool calls) *)

Lemma checkRateLimit_present name env s b now0 now1 now2 :
  RateLimitManager.limiters (DREServer.rateLimiter s) !! name = Some b →
  Env.limit_clock env = (now0, now1, now2) →
  checkRateLimit name env s =
    (DREServer.set_rateLimiter s
       {| RateLimitManager.limiters :=
            <[name := (checkLimit b "default" 1 now1 now2).1]>
              (RateLimitManager.limiters (DREServer.rateLimiter s));
          RateLimitManager.defaultConfig :=
            RateLimitManager.defaultConfig (DREServer.rateLimiter s) |},
     if Qle_bool 1 (refilled b now1) then inr tt
     else inl (rate_limit_error name (checkLimit b "default" 1 now1 now2).2)).
Proof.
  intros Hb Hclock. unfold checkRateLimit, RateLimitManager.checkLimit.
  rewrite Hclock, Hb.
  rewrite <-(checkLimit_decision b "default" 1 now1 now2).
  destruct (checkLimit b "default" 1 now1 now2) as [b' r]. simpl.
  by destruct (allowed r).
Qed.

Lemma checkRateLimit_graph name env s :
  DREServer.graph (checkRateLimit name env s).1 = DREServer.graph s.
Proof.
  unfold checkRateLimit. destruct (Env.limit_clock env) as [[now0 now1] now2].
  destruct (RateLimitManager.checkLimit _ _ _ _ _ _ _) as [m [r l]].
  by destruct (allowed r).
Qed.

Lemma checkRateLimit_result name env s :
  (∃ e, (checkRateLimit name env s).2 = inl e ∧ code e = InvalidRequest)
  ∨ (checkRateLimit name env s).2 = inr tt.
Proof.
  unfold checkRateLimit. destruct (Env.limit_clock env) as [[now0 now1] now2].
  destruct (RateLimitManager.checkLimit _ _ _ _ _ _ _) as [m [r l]].
  destruct (allowed r); simpl; [by right|]. left. eauto.
Qed.

Ltac pick_tool :=
  repeat first [ rewrite bool_decide_true by reflexivity
               | rewrite bool_decide_false by discriminate ];
  cbv iota.

Ltac tool_cases H :=
  unfold tool_names in H;
  repeat (apply elem_of_cons in H as [->|H]);
  [ .. | by apply elem_of_nil in H ].

Section DispatchFacts.
Variable host : Host.


End DispatchFacts.

Lemma insert_present_dom (m : gmap string TokenBucketRateLimiter.t) name b b' :
  m !! name = Some b → dom (<[name := b']> m) = dom m.
Proof.
  intros Hb. rewrite dom_insert_L.
  assert (name ∈ dom m) by (apply elem_of_dom; eauto). set_solver.
Qed.

Lemma checkLimit_config b clientId cost now1 now2 :
  maxTokens (checkLimit b clientId cost now1 now2).1 = maxTokens b
  ∧ refillRate (checkLimit b clientId cost now1 now2).1 = refillRate b
  ∧ windowMs (checkLimit b clientId cost now1 now2).1 = windowMs b.
Proof.
  destruct (Qle_bool cost (refilled b now1)) eqn:E.
  - destruct (checkLimit_allowed b clientId cost now1 now2 E) as (_ & _ & _ & _ & _ & ? & ? & ?).
    done.
  - destruct (checkLimit_denied b clientId cost now1 now2 E) as (_ & _ & _ & _ & _ & ? & ? & ?).
    done.
Qed.

Lemma tool_limits_names name cap rate :
  (name, (cap, rate)) ∈ tool_limits → name ∈ tool_names.
Proof.
  unfold tool_limits, tool_names. rewrite !elem_of_cons.
  intros H. repeat (destruct H as [[= -> _ _]|H]; [tauto|]).
  by apply elem_of_nil in H.
Qed.

Lemma tool_names_limits name : name ∈ tool_names → ∃ cap rate, (name, (cap, rate)) ∈ tool_limits.
Proof.
  intros H. tool_cases H; do 2 eexists; unfold tool_limits; rewrite !elem_of_cons; tauto.
Qed.

(** A limiter that is replaced by one of the same configuration. *)
Lemma configured_insert m name b b' :
  configured m →
  RateLimitManager.limiters m !! name = Some b →
  maxTokens b' = maxTokens b → refillRate b' = refillRate b → windowMs b' = windowMs b →
  configured {| RateLimitManager.limiters := <[name := b']> (RateLimitManager.limiters m);
                RateLimitManager.defaultConfig := RateLimitManager.defaultConfig m |}.
Proof.
  intros [Hdom Hall] Hb Hmax Hrate Hwin. split; simpl.
  - by rewrite (insert_present_dom _ _ _ _ Hb).
  - intros n cap rate Hn. destruct (Hall n cap rate Hn) as (b0 & Hb0 & ? & ? & ?).
    destruct (decide (n = name)) as [->|Hne].
    + exists b'. rewrite lookup_insert_eq. rewrite Hb in Hb0. injection Hb0 as <-.
      split_and!; congruence.
    + exists b0. by rewrite lookup_insert_ne.
Qed.

Lemma configured_lookup m name :
  configured m → name ∈ tool_names → is_Some (RateLimitManager.limiters m !! name).
Proof.
  intros [_ Hall] Hname. destruct (tool_names_limits name Hname) as (cap & rate & Hin).
  destruct (Hall _ _ _ Hin) as (b & Hb & _). eauto.
Qed.

Lemma checkRateLimit_configured name env s :
  name ∈ tool_names →
  configured (DREServer.rateLimiter s) →
  configured (DREServer.rateLimiter (checkRateLimit name env s).1).
Proof.
  intros Hname Hconf.
  destruct (configured_lookup _ _ Hconf Hname) as [b Hb].
  destruct (Env.limit_clock env) as [[now0 now1] now2] eqn:Hclock.
  rewrite (checkRateLimit_present name env s b now0 now1 now2 Hb Hclock). simpl.
  destruct (checkLimit_config b "default" 1 now1 now2) as (? & ? & ?).
  by eapply configured_insert.
Qed.

Lemma limiterStats_spec name env s :
  configured (DREServer.rateLimiter s) →
  ∀ cap rate, (name, (cap, rate)) ∈ tool_limits →
  ∃ s' st,
    limiterStats name env s = (s', inr (name, Some st))
    ∧ stats_maxTokens (stats_of_limiter st) = cap
    ∧ stats_refillRate (stats_of_limiter st) = rate
    ∧ DREServer.graph s' = DREServer.graph s
    ∧ configured (DREServer.rateLimiter s').
Proof.
  intros Hconf cap rate Hin. destruct (proj2 Hconf _ _ _ Hin) as (b & Hb & Hmax & Hrate & Hwin).
  unfold limiterStats, manager_getStats.
  destruct (Env.stats_clock env name) as [now1 now2]. rewrite Hb.
  unfold getStats. simpl. do 2 eexists. split; [reflexivity|]. simpl.
  split_and!; [done | done | done |].
  by eapply configured_insert.
Qed.

Lemma session_counts g :
  (length (List.filter (λ t, bool_decide (status t = active)) g)
   + length (List.filter (λ t, bool_decide (status t = stale)) g) = length g)%nat.
Proof.
  induction g as [|t g IH]; simpl; [done|].
  destruct (status t); simpl; lia.
Qed.

Lemma handleGetMetrics_spec input env s s' out :
  configured (DREServer.rateLimiter s) →
  handleGetMetrics input env s = (s', inr out) →
  DREServer.graph s' = DREServer.graph s
  ∧ configured (DREServer.rateLimiter s')
  ∧ reported_limits out =
      [("log_thought", Some (50, 5)%Q); ("get_thought_graph", Some (15, 2)%Q);
       ("invalidate_assumption", Some (30, 3)%Q); ("get_metrics", Some (10, 1)%Q);
       ("query_thoughts", Some (20, 2)%Q)]
  ∧ CurrentSession.thoughts_in_memory (current_session out) = length (DREServer.thoughts s)
  ∧ (CurrentSession.active_thoughts (current_session out)
     + CurrentSession.stale_thoughts (current_session out)
     = CurrentSession.thoughts_in_memory (current_session out))%nat
  ∧ CurrentSession.stale_thoughts (current_session out) = stale_count (DREServer.thoughts s).
Proof.
  intros Hconf. unfold handleGetMetrics.
  unfold mbind at 1, call_bind at 1. unfold from_store at 1.
  destruct (Env.metrics env) as [text|metrics]; [done|]. unfold mret at 1, call_ret at 1.
  unfold mbind at 1, call_bind at 1. unfold currentSession at 1.
  unfold mbind at 1, call_bind at 1.
  assert (Hall : ∃ all, (if GetMetricsInput.include_sessions input
            then x ← from_store (Env.all_sessions env); mret (Some x)
            else mret None) s = (s, inr all) ∨
          ∃ e, (if GetMetricsInput.include_sessions input
            then x ← from_store (Env.all_sessions env); mret (Some x)
            else mret None) s = (s, @inl _ (option JsonValue) e)).
  { destruct (GetMetricsInput.include_sessions input).
    - unfold mbind, call_bind, from_store.
      destruct (Env.all_sessions env) as [text|x].
      + exists None. right. by eexists.
      + exists (Some x). by left.
    - exists None. by left. }
  destruct Hall as (all & [Hall | [e Hall]]); rewrite Hall; [|done].
  assert (Hlim : ∀ n cap rate, (n, (cap, rate)) ∈ tool_limits → (n, (cap, rate)) ∈ tool_limits)
    by done.
  destruct (limiterStats_spec "log_thought" env s Hconf 50 5)
    as (s1 & st1 & E1 & M1 & R1 & G1 & C1);
    [unfold tool_limits; rewrite !elem_of_cons; tauto|].
  unfold mbind at 1, call_bind at 1. rewrite E1.
  destruct (limiterStats_spec "get_thought_graph" env s1 C1 15 2)
    as (s2 & st2 & E2 & M2 & R2 & G2 & C2);
    [unfold tool_limits; rewrite !elem_of_cons; tauto|].
  unfold mbind at 1, call_bind at 1. rewrite E2.
  destruct (limiterStats_spec "invalidate_assumption" env s2 C2 30 3)
    as (s3 & st3 & E3 & M3 & R3 & G3 & C3);
    [unfold tool_limits; rewrite !elem_of_cons; tauto|].
  unfold mbind at 1, call_bind at 1. rewrite E3.
  destruct (limiterStats_spec "get_metrics" env s3 C3 10 1)
    as (s4 & st4 & E4 & M4 & R4 & G4 & C4);
    [unfold tool_limits; rewrite !elem_of_cons; tauto|].
  unfold mbind at 1, call_bind at 1. rewrite E4.
  destruct (limiterStats_spec "query_thoughts" env s4 C4 20 2)
    as (s5 & st5 & E5 & M5 & R5 & G5 & C5);
    [unfold tool_limits; rewrite !elem_of_cons; tauto|].
  unfold mbind at 1, call_bind at 1. rewrite E5.
  unfold mret, call_ret. intros [= <- <-].
  split_and!.
  - congruence.
  - done.
  - unfold reported_limits. simpl. by rewrite M1, R1, M2, R2, M3, R3, M4, R4, M5, R5.
  - done.
  - simpl. apply session_counts.
  - done.
Qed.

(** *** Steps of a request *)

Lemma bind_state {A B} (m : Call A) (f : A → Call B) s (P : DREServer.t → Prop) :
  (∀ e, (m s).2 = inl e → P (m s).1) →
  (∀ a, (m s).2 = inr a → P (f a (m s).1).1) →
  P ((m ≫= f) s).1.
Proof.
  unfold mbind, call_bind. destruct (m s) as [s1 [e|a]]; simpl; eauto.
Qed.

Lemma bind_inr {A B} (m : Call A) (f : A → Call B) s s' b :
  (m ≫= f) s = (s', inr b) → ∃ a s1, m s = (s1, inr a) ∧ f a s1 = (s', inr b).
Proof.
  unfold mbind, call_bind. destruct (m s) as [s1 [e|a]]; [done|]. eauto.
Qed.

Lemma parse_state {A} (schema : JsonValue → list ZodIssue + A) args s :
  (parse schema args s).1 = s.
Proof. unfold parse. by destruct (schema args). Qed.

Lemma from_store_state {A} (r : string + A) s : (from_store r s).1 = s.
Proof. by destruct r. Qed.

Lemma saveThoughts_state env s : (saveThoughts env s).1 = s.
Proof. unfold saveThoughts. by destruct (Env.save_error env). Qed.

Lemma keeps_refl s : keeps_graph s s.
Proof. by split. Qed.

Lemma keeps_trans s1 s2 s3 : keeps_graph s1 s2 → keeps_graph s2 s3 → keeps_graph s1 s3.
Proof. intros [G1 C1] [G2 C2]. split; [congruence | auto]. Qed.

Lemma keeps_step env s1 s2 s3 :
  keeps_graph s1 s2 → graph_step env s2 s3 → graph_step env s1 s3.
Proof.
  intros [G C] (S & T & C' & H). unfold graph_step, DREServer.thoughts in *.
  rewrite G in S, T, H. split_and!; auto.
Qed.

Lemma step_refl env s : graph_step env s s.
Proof. unfold graph_step. auto. Qed.

Lemma checkRateLimit_keeps name env s :
  name ∈ tool_names → keeps_graph s (checkRateLimit name env s).1.
Proof.
  intros Hname. split; [apply checkRateLimit_graph | by apply checkRateLimit_configured].
Qed.

Lemma logThought_step input env s : graph_step env s (logThought input env s).1.
Proof.
  unfold logThought.
  destruct (handleLogThought _ _ _ _ _) as [g r] eqn:E. simpl.
  split_and!; [done | done | done |]. right.
  exists (OpLog input (Env.now env) (Env.new_id env) (Env.created env)).
  split; [done|]. simpl. unfold DREServer.thoughts at 1. simpl. by rewrite E.
Qed.

Lemma invalidateAssumption_step input env s :
  graph_step env s (invalidateAssumption input env s).1.
Proof.
  unfold invalidateAssumption.
  destruct (handleInvalidateAssumption _ _ _ _) as [g r] eqn:E. simpl.
  split_and!; [done | done | done |]. right.
  exists (OpInvalidate input (Env.new_id env) (Env.now env)).
  split; [done|]. simpl. unfold DREServer.thoughts at 1. simpl. by rewrite E.
Qed.

Lemma limiterStats_keeps name env s :
  name ∈ tool_names → keeps_graph s (limiterStats name env s).1.
Proof.
  intros Hname. split.
  - unfold limiterStats, manager_getStats.
    destruct (Env.stats_clock env name) as [now1 now2].
    destruct (RateLimitManager.limiters (DREServer.rateLimiter s) !! name); [|done].
    by destruct (getStats _ _ _ _).
  - intros Hconf. destruct (tool_names_limits name Hname) as (cap & rate & Hin).
    destruct (limiterStats_spec name env s Hconf cap rate Hin) as (s' & st & -> & _ & _ & _ & ?).
    done.
Qed.

Lemma bind_keeps {A B} (m : Call A) (f : A → Call B) s :
  keeps_graph s (m s).1 → (∀ a s1, keeps_graph s1 (f a s1).1) →
  keeps_graph s ((m ≫= f) s).1.
Proof.
  intros Hm Hf. apply bind_state; intros; [done|].
  eapply keeps_trans; [exact Hm | apply Hf].
Qed.

Lemma from_store_keeps {A} (r : string + A) s : keeps_graph s (from_store r s).1.
Proof. rewrite from_store_state. apply keeps_refl. Qed.

Lemma handleGetMetrics_keeps input env s : keeps_graph s (handleGetMetrics input env s).1.
Proof.
  unfold handleGetMetrics.
  apply bind_keeps; [apply from_store_keeps | clear s; intros metrics s].
  apply bind_keeps; [apply keeps_refl | clear s; intros session s].
  apply bind_keeps; [| clear s; intros all s].
  { destruct (GetMetricsInput.include_sessions input); [|apply keeps_refl].
    apply bind_keeps; [apply from_store_keeps | intros; apply keeps_refl]. }
  do 5 (apply bind_keeps;
        [apply limiterStats_keeps; by_evaluation | clear s; intros ? s]).
  apply keeps_refl.
Qed.

Lemma step_keeps env s1 s2 s3 :
  graph_step env s1 s2 → keeps_graph s2 s3 → graph_step env s1 s3.
Proof.
  intros (S & T & C & H) [G C']. unfold graph_step, DREServer.thoughts in *.
  rewrite G. split_and!; auto.
Qed.

Lemma bind_step {A B} env (m : Call A) (f : A → Call B) s :
  keeps_graph s (m s).1 → (∀ a s1, graph_step env s1 (f a s1).1) →
  graph_step env s ((m ≫= f) s).1.
Proof.
  intros Hm Hf. apply bind_state; intros.
  - eapply keeps_step; [exact Hm | apply step_refl].
  - eapply keeps_step; [exact Hm | apply Hf].
Qed.

Lemma bind_step_keeps {A B} env (m : Call A) (f : A → Call B) s :
  graph_step env s (m s).1 → (∀ a s1, keeps_graph s1 (f a s1).1) →
  graph_step env s ((m ≫= f) s).1.
Proof.
  intros Hm Hf. apply bind_state; intros; [done|].
  eapply step_keeps; [exact Hm | apply Hf].
Qed.

Lemma parse_keeps {A} (schema : JsonValue → list ZodIssue + A) args s :
  keeps_graph s (parse schema args s).1.
Proof. rewrite parse_state. apply keeps_refl. Qed.

Lemma saveThoughts_keeps env s : keeps_graph s (saveThoughts env s).1.
Proof. rewrite saveThoughts_state. apply keeps_refl. Qed.

Lemma keeps_is_step env s s' : keeps_graph s s' → graph_step env s s'.
Proof. intros H. eapply keeps_step; [exact H | apply step_refl]. Qed.

(** Every request is one step on the graph. *)
Lemma callTool_step host name args env s :
  graph_step env s (callTool host name args env s).1.
Proof.
  unfold callTool. repeat case_bool_decide; subst.
  - apply bind_step; [apply checkRateLimit_keeps; by_evaluation | clear s; intros _ s].
    apply bind_step; [apply parse_keeps | clear s; intros input s].
    apply bind_step_keeps; [apply logThought_step | clear s; intros out s].
    apply bind_keeps; [apply saveThoughts_keeps | intros; apply keeps_refl].
  - apply bind_step; [apply checkRateLimit_keeps; by_evaluation | clear s; intros _ s].
    apply bind_step; [apply parse_keeps | clear s; intros input s].
    apply keeps_is_step. apply bind_keeps; [apply keeps_refl | intros; apply keeps_refl].
  - apply bind_step; [apply checkRateLimit_keeps; by_evaluation | clear s; intros _ s].
    apply bind_step; [apply parse_keeps | clear s; intros input s].
    apply bind_step_keeps; [apply invalidateAssumption_step | clear s; intros out s].
    apply bind_keeps; [apply saveThoughts_keeps | intros; apply keeps_refl].
  - apply bind_step; [apply checkRateLimit_keeps; by_evaluation | clear s; intros _ s].
    apply bind_step; [apply parse_keeps | clear s; intros input s].
    apply keeps_is_step.
    apply bind_keeps; [apply handleGetMetrics_keeps | intros; apply keeps_refl].
  - apply bind_step; [apply checkRateLimit_keeps; by_evaluation | clear s; intros _ s].
    apply bind_step; [apply parse_keeps | clear s; intros input s].
    apply keeps_is_step. apply bind_keeps; [apply keeps_refl | intros; apply keeps_refl].
  - apply step_refl.
Qed.

Lemma new_configured clock sid created :
  configured (DREServer.rateLimiter (DREServer.new clock sid created)).
Proof.
  split.
  - simpl. rewrite !dom_insert_L, dom_empty_L. unfold tool_names. simpl. set_solver.
  - intros name cap rate Hin. unfold tool_limits in Hin.
    repeat (apply elem_of_cons in Hin as [[= -> -> ->]|Hin];
            [eexists; split; [reflexivity | done]|]).
    by apply elem_of_nil in Hin.
Qed.

Lemma serve_configured host s rs :
  configured (DREServer.rateLimiter s) →
  configured (DREServer.rateLimiter (serve host s rs)).
Proof.
  revert s. induction rs as [|r rs IH]; intros s Hconf; [done|].
  simpl. apply IH. unfold serve1.
  by destruct (callTool_step host (req_name r) (req_args r) (req_env r) s) as (_ & _ & H & _); auto.
Qed.

(** X22.  The server never uses the default configuration of the rate
    limit manager: after any sequence of requests to a new server,
    whatever the names of the tools they call, the manager holds the
    limiters of the five tools and no other, each with the capacity and
    the refill rate the constructor gave it. *)
Theorem limiters_stay_configured host clock sid created rs :
  configured (DREServer.rateLimiter (serve host (DREServer.new clock sid created) rs)).
Proof. apply serve_configured, new_configured. Qed.

(** X23.  A [get_metrics] call that succeeds on a server reached from a new
    one reports the statistics of all five limiters, none of them [null],
    with the configured capacities and rates; its counts of active and
    stale thoughts add up to [thoughts_in_memory], which is the size of the
    graph; and the call leaves the graph as it is. *)
Theorem metrics_answer host clock sid created rs args env s' out :
  callTool host "get_metrics" args env (serve host (DREServer.new clock sid created) rs)
    = (s', inr (Metrics out)) →
  reported_limits out =
    [("log_thought", Some (50, 5)%Q); ("get_thought_graph", Some (15, 2)%Q);
     ("invalidate_assumption", Some (30, 3)%Q); ("get_metrics", Some (10, 1)%Q);
     ("query_thoughts", Some (20, 2)%Q)]
  ∧ CurrentSession.thoughts_in_memory (current_session out)
    = length (DREServer.thoughts (serve host (DREServer.new clock sid created) rs))
  ∧ (CurrentSession.active_thoughts (current_session out)
     + CurrentSession.stale_thoughts (current_session out)
     = CurrentSession.thoughts_in_memory (current_session out))%nat
  ∧ DREServer.graph s' = DREServer.graph (serve host (DREServer.new clock sid created) rs).
Proof.
  set (s := serve host (DREServer.new clock sid created) rs).
  assert (Hconf : configured (DREServer.rateLimiter s))
    by apply serve_configured, new_configured.
  unfold callTool. pick_tool. intros Hrun.
  apply bind_inr in Hrun as ([] & s1 & Hcheck & Hrun).
  apply bind_inr in Hrun as (input & s2 & Hparse & Hrun).
  apply bind_inr in Hrun as (out' & s3 & Hmetrics & Hrun).
  injection Hrun as <- <-.
  pose proof (parse_state (GetMetricsSchema host) args s1) as Hs2.
  rewrite Hparse in Hs2. simpl in Hs2. subst s2.
  destruct (checkRateLimit_keeps "get_metrics" env s) as [Hg1 Hc1]; [by_evaluation|].
  rewrite Hcheck in Hg1, Hc1. simpl in Hg1, Hc1.
  destruct (handleGetMetrics_spec input env s1 s3 out' (Hc1 Hconf) Hmetrics)
    as (Hg3 & _ & Hlim & Hmem & Hsum & _).
  unfold DREServer.thoughts in *. rewrite Hg1 in Hmem, Hg3. done.
Qed.

Lemma metrics_answer_witness :
  reported_limits sample_metrics =
    [("log_thought", Some (50, 5)%Q); ("get_thought_graph", Some (15, 2)%Q);
     ("invalidate_assumption", Some (30, 3)%Q); ("get_metrics", Some (10, 1)%Q);
     ("query_thoughts", Some (20, 2)%Q)]
  ∧ CurrentSession.thoughts_in_memory (current_session sample_metrics)
    = length (DREServer.thoughts
                (serve sample_host (DREServer.new (λ _, 0%Z) "session" 0) sample_requests))
  ∧ (CurrentSession.active_thoughts (current_session sample_metrics)
     + CurrentSession.stale_thoughts (current_session sample_metrics)
     = CurrentSession.thoughts_in_memory (current_session sample_metrics))%nat
  ∧ DREServer.graph
      (callTool sample_host "get_metrics" (JObj []) (sample_env 5 "M" None) served_server).1
    = DREServer.graph
        (serve sample_host (DREServer.new (λ _, 0%Z) "session" 0) sample_requests).
Proof.
  apply (metrics_answer sample_host (λ _, 0%Z) "session" 0 sample_requests (JObj [])
           (sample_env 5 "M" None)
           (callTool sample_host "get_metrics" (JObj []) (sample_env 5 "M" None)
              served_server).1
           sample_metrics).
  vm_compute. reflexivity.
Defined.



(** X24.  A tool the server does not know is answered with
    [MethodNotFound], and the request changes nothing: no limiter is
    consulted or created for the unknown name, and the graph is as it
    was. *)
Theorem unknown_tool host name args env s :
  name ∉ tool_names →
  callTool host name args env s = (s, inl (unknown_tool_error name)).
Proof.
  intros Hname. unfold callTool.
  repeat (case_bool_decide as E;
          [exfalso; apply Hname; subst name; by_evaluation | clear E]).
  done.
Qed.

Lemma unknown_tool_witness :
  callTool sample_host "no_such_tool" JNull (sample_env 3 "Q" None) new_server
  = (new_server, inl (unknown_tool_error "no_such_tool")).
Proof.
  apply (unknown_tool sample_host "no_such_tool" JNull (sample_env 3 "Q" None) new_server).
  by_evaluation.
Defined.





(** *** The two writers when the store fails *)








(** *** The graph of a server stays acyclic *)

Lemma ordered_NoDup g : insertion_ordered g → NoDup (map id g).
Proof.
  induction 1 as [|g t Hord IH Hid Hdeps]; simpl; [constructor|].
  rewrite map_app. apply NoDup_app. split_and!; [done| |apply NoDup_singleton].
  intros k Hk Hk'%list_elem_of_singleton. by subst k.
Qed.

Lemma serve1_ordered host s r :
  insertion_ordered (DREServer.thoughts s) →
  graph_has (DREServer.thoughts s) (Env.new_id (req_env r)) = false →
  insertion_ordered (DREServer.thoughts (serve1 host s r)).
Proof.
  intros Hord Hfresh. unfold serve1.
  destruct (callTool_step host (req_name r) (req_args r) (req_env r) s)
    as (_ & _ & _ & [-> | (op & Hid & ->)]); [done|].
  apply exec_ordered; [done|]. by rewrite Hid.
Qed.

Lemma serve_ordered host s rs :
  insertion_ordered (DREServer.thoughts s) →
  fresh_requests host s rs = true →
  insertion_ordered (DREServer.thoughts (serve host s rs)).
Proof.
  revert s. induction rs as [|r rs IH]; intros s Hord Hfresh; [done|].
  simpl in Hfresh. apply andb_true_iff in Hfresh as [Hr Hrs].
  apply negb_true_iff in Hr. simpl. apply IH; [|done].
  by apply serve1_ordered.
Qed.

(** X29.  Whatever requests a new server answers, accepted or refused,
    rate limited or failing in the store, and whatever the tools they
    name, its graph has no dependency cycle, every dependency of a stored
    thought is stored, and no two thoughts share an id, as long as the
    generated ids are new. *)
Theorem server_graph_stays_acyclic host clock sid created rs :
  fresh_requests host (DREServer.new clock sid created) rs = true →
  acyclic (DREServer.thoughts (serve host (DREServer.new clock sid created) rs))
  ∧ deps_closed (DREServer.thoughts (serve host (DREServer.new clock sid created) rs))
  ∧ NoDup (map id (DREServer.thoughts (serve host (DREServer.new clock sid created) rs))).
Proof.
  intros Hfresh.
  assert (Hord : insertion_ordered
            (DREServer.thoughts (serve host (DREServer.new clock sid created) rs))).
  { apply serve_ordered; [constructor | done]. }
  split_and!; [by apply ordered_acyclic | by apply ordered_deps_closed | by apply ordered_NoDup].
Qed.

Lemma server_graph_stays_acyclic_witness :
  acyclic (DREServer.thoughts
             (serve sample_host (DREServer.new (λ _, 0%Z) "session" 0) sample_requests))
  ∧ deps_closed (DREServer.thoughts
                   (serve sample_host (DREServer.new (λ _, 0%Z) "session" 0) sample_requests))
  ∧ NoDup (map id (DREServer.thoughts
                     (serve sample_host (DREServer.new (λ _, 0%Z) "session" 0)
                            sample_requests))).
Proof.
  apply (server_graph_stays_acyclic sample_host (λ _, 0%Z) "session" 0 sample_requests).
  vm_compute. reflexivity.
Defined.

(** ** Doubles that are integers *)

Section Binary64Facts.
Local Open Scope Z_scope.

Lemma digits2_size p : digits2_pos p = Pos.size p.
Proof. induction p as [p IH|p IH|]; simpl; by rewrite ?IH. Qed.

Lemma size_bounds p : 2 ^ (Zpos (Pos.size p) - 1) ≤ Zpos p < 2 ^ Zpos (Pos.size p).
Proof.
  induction p as [p IH|p IH|]; simpl Pos.size.
  - rewrite Pos2Z.inj_succ. replace (Z.succ (Zpos (Pos.size p)) - 1) with (Zpos (Pos.size p)) by lia.
    rewrite Z.pow_succ_r by lia.
    replace (Zpos (Pos.size p)) with (Z.succ (Zpos (Pos.size p) - 1)) at 1 by lia.
    rewrite Z.pow_succ_r by lia. lia.
  - rewrite Pos2Z.inj_succ. replace (Z.succ (Zpos (Pos.size p)) - 1) with (Zpos (Pos.size p)) by lia.
    rewrite Z.pow_succ_r by lia.
    replace (Zpos (Pos.size p)) with (Z.succ (Zpos (Pos.size p) - 1)) at 1 by lia.
    rewrite Z.pow_succ_r by lia. lia.
  - simpl. lia.
Qed.

Lemma size_le_iff p n : 0 ≤ n → Zpos (Pos.size p) ≤ n ↔ Zpos p < 2 ^ n.
Proof.
  intros Hn. pose proof (size_bounds p) as [Hlo Hhi]. split.
  - intros Hle. eapply Z.lt_le_trans; [exact Hhi|]. apply Z.pow_le_mono_r; lia.
  - intros Hlt. destruct (Z.le_gt_cases (Zpos (Pos.size p)) n) as [|Hgt]; [done|].
    exfalso. assert (2 ^ n ≤ 2 ^ (Zpos (Pos.size p) - 1)) by (apply Z.pow_le_mono_r; lia).
    lia.
Qed.



Lemma shiftl_size p n : Zpos (Pos.size (Pos.shiftl p n)) = Zpos (Pos.size p) + Z.of_N n.
Proof.
  destruct n as [|d].
  { change (Zpos (Pos.size p) = Zpos (Pos.size p) + 0). lia. }
  change (Zpos (Pos.size (Pos.iter xO p d)) = Zpos (Pos.size p) + Zpos d).
  induction d as [|d IH] using Pos.peano_ind.
  - change (Zpos (Pos.succ (Pos.size p)) = Zpos (Pos.size p) + 1). lia.
  - rewrite Pos.iter_succ. change (Pos.size (?x)~0) with (Pos.succ (Pos.size x)).
    rewrite Pos2Z.inj_succ, IH. lia.
Qed.






(** A mantissa of 53 bits with an exponent in the range of the format is
    kept as it is. *)
Lemma binary_round_aux_canonical s m e :
  Zpos (Pos.size m) = 53 → -1074 ≤ e ≤ 971 →
  binary_round_aux Number.prec Number.emax s (Zpos m) e loc_Exact = S754_finite s m e.
Proof.
  intros Hsize He.
  assert (Hshift : shr_fexp Number.prec Number.emax (Zpos m) e loc_Exact
                   = ({| shr_m := Zpos m; shr_r := false; shr_s := false |}, e)).
  { unfold shr_fexp, fexp, emin, Number.prec, Number.emax. simpl Zdigits2.
    rewrite digits2_size, Hsize.
    replace (Z.max (53 + e - 53) (3 - 1024 - 53) - e) with 0 by lia. done. }
  unfold binary_round_aux. rewrite Hshift. simpl round_nearest_even. rewrite Hshift.
  simpl shr_m. unfold Number.emax, Number.prec.
  destruct (Z.leb_spec e (1024 - 53)); [done | lia].
Qed.

Lemma shl_align_spec mx ex ex' :
  ex' ≤ ex → shl_align mx ex ex' = (Pos.shiftl mx (Z.to_N (ex - ex')), ex').
Proof.
  intros Hle. unfold shl_align.
  destruct (ex' - ex) as [|d|d] eqn:E; try lia.
  - assert (ex' = ex) as -> by lia. by rewrite Z.sub_diag.
  - replace (ex - ex') with (Zpos d) by lia. done.
Qed.

(** Rounding a mantissa that has too few bits: it is shifted to 53 bits. *)
Lemma binary_round_down s p n e :
  Zpos (Pos.size p) + Z.of_N n = 53 → -1074 ≤ e - Z.of_N n ∧ e - Z.of_N n ≤ 971 →
  binary_round Number.prec Number.emax s p e
  = S754_finite s (Pos.shiftl p n) (e - Z.of_N n).
Proof.
  intros Hsize He. unfold binary_round.
  assert (Hfexp : fexp Number.prec Number.emax (Zpos (digits2_pos p) + e) = e - Z.of_N n).
  { unfold fexp, emin, Number.prec, Number.emax. rewrite digits2_size. lia. }
  rewrite Hfexp, shl_align_spec by lia.
  replace (Z.to_N (e - (e - Z.of_N n))) with n by lia.
  apply binary_round_aux_canonical; [|lia]. rewrite shiftl_size. lia.
Qed.


(** The double of a positive integer below [2 ^ 53]: its digits shifted to
    53 bits. *)
Lemma of_Z_pos p :
  Zpos p < 2 ^ 53 →
  Number.of_Z (Zpos p)
  = S754_finite false (Pos.shiftl p (Z.to_N (53 - Zpos (Pos.size p))))
                (Zpos (Pos.size p) - 53).
Proof.
  intros Hp. apply size_le_iff in Hp; [|lia].
  unfold Number.of_Z, binary_normalize.
  rewrite (binary_round_down false p (Z.to_N (53 - Zpos (Pos.size p))) 0);
    rewrite ?Z2N.id by lia; [|lia|lia].
  f_equal. lia.
Qed.






Lemma of_Z_finite j : 0 ≤ j < 2 ^ 53 → Number.is_finite (Number.of_Z j) = true.
Proof.
  intros Hj. destruct j as [|p|p]; try lia; [done|]. by rewrite of_Z_pos by lia.
Qed.





End Binary64Facts.

(** ** The token bucket in doubles *)

Section Binary64Bucket.
Import Binary64.TokenBucketRateLimiter.
Variable toString : Number.t → string.





End Binary64Bucket.



(** Two buckets whose tokens are not integers.  With 0.7 tokens a request
    of cost 1 is told to retry after 301 milliseconds: [1 - 0.7] is
    0.30000000000000004 in doubles.  With 0.1 tokens and 5 tokens a second,
    180 milliseconds bring the bucket to 0.9999999999999999 tokens, not to
    1, and a request of cost 1 is denied. *)
Example retry_after_of_seven_tenths :
  Binary64.TokenBucketRateLimiter.retryAfter
    (Binary64.TokenBucketRateLimiter.checkLimit sample_toString
       (Binary64.TokenBucketRateLimiter.new
          {| Binary64.RateLimitConfig.maxTokens := Number.div (Number.of_Z 7) (Number.of_Z 10);
             Binary64.RateLimitConfig.refillRate := Number.of_Z 1;
             Binary64.RateLimitConfig.windowMs := None |} 0)
       "default" (Number.of_Z 1) 0 0).2
  = Some (Number.of_Z 301).
Proof. vm_compute. reflexivity. Qed.

Example refill_of_one_tenth :
  Binary64.TokenBucketRateLimiter.allowed
    (Binary64.TokenBucketRateLimiter.checkLimit sample_toString
       {| Binary64.TokenBucketRateLimiter.tokens := Number.div (Number.of_Z 1) (Number.of_Z 10);
          Binary64.TokenBucketRateLimiter.lastRefill := Number.of_Z 20;
          Binary64.TokenBucketRateLimiter.maxTokens := Number.of_Z 10;
          Binary64.TokenBucketRateLimiter.refillRate := Number.of_Z 5;
          Binary64.TokenBucketRateLimiter.requestCount := ∅;
          Binary64.TokenBucketRateLimiter.windowMs := Number.of_Z 60000 |}
       "default" (Number.of_Z 1) 200 200).2
  = false.
Proof. vm_compute. reflexivity. Qed.
